(** * Branch-and-bound driver for binary quadratic problems

    A shallow embedding of [solveBB] (Fusion/BinaryQuadratic-SDP/binquad.ipynb)
    and of the ceiling-based variant of its termination test.

    Numbers.  The notebook computes with NumPy floats; the embedding uses the
    exact rationals [Q] in their place, compared with [Qeq] ([==]), so that
    every definition still evaluates on concrete data.

    Arrays.  A one-dimensional array is a [list Q]; a two-dimensional array is
    the list of its rows.  Indices are natural numbers ([np.argmin] and the
    entries of an index map are never negative).  An access that NumPy rejects
    raises, and is modelled by the [Raise] outcome of the error monad. *)

From Stdlib Require Import List Arith Lia Bool.
From Stdlib Require Import ZArith QArith Qabs Qround Qminmax Lqa.
From Stdlib Require Import Setoid Morphisms Permutation.
Import ListNotations.

Set Implicit Arguments.

(** ** Exceptions *)

Inductive exn : Type :=
| IndexError      (* an index beyond the end of an axis *)
| ValueError      (* operands that cannot be broadcast together *)
| SolutionError   (* the conic solver delivered no solution *)
| TypeError.      (* an object of the wrong kind *)

Inductive result (A : Type) : Type :=
| Ok (a : A)
| Raise (e : exn).

Arguments Ok {A} a.
Arguments Raise {A} e.

Definition bind {A B : Type} (m : result A) (k : A -> result B) : result B :=
  match m with
  | Ok a => k a
  | Raise e => Raise e
  end.

Notation "'do' x <- m ; k" := (bind m (fun x => k))
  (at level 10, x pattern, m at level 100, k at level 200).

Definition of_option {A : Type} (e : exn) (o : option A) : result A :=
  match o with
  | Some a => Ok a
  | None => Raise e
  end.

(** ** NumPy arrays *)

Module NumPy.

Definition Vec := list Q.
Definition Matrix := list (list Q).

(** [np.delete(a, i)] on one axis: a fresh array without position [i];
    [IndexError] when [i] is out of bounds. *)
Fixpoint delete {A : Type} (i : nat) (a : list A) {struct a} : result (list A) :=
  match a, i with
  | [], _ => Raise IndexError
  | _ :: t, O => Ok t
  | h :: t, S j => do t' <- delete j t; Ok (h :: t')
  end.

(** [a[i]]. *)
Definition getitem {A : Type} (a : list A) (i : nat) : result A :=
  of_option IndexError (nth_error a i).

(** [a[i] = v], an update in place, given here by the new contents. *)
Fixpoint setitem {A : Type} (a : list A) (i : nat) (v : A) {struct a}
  : result (list A) :=
  match a, i with
  | [], _ => Raise IndexError
  | _ :: t, O => Ok (v :: t)
  | h :: t, S j => do t' <- setitem t j v; Ok (h :: t')
  end.

(** Run a fallible function over every row. *)
Fixpoint mapM {A B : Type} (f : A -> result B) (l : list A) : result (list B) :=
  match l with
  | [] => Ok []
  | h :: t => do h' <- f h; do t' <- mapM f t; Ok (h' :: t')
  end.

(** [np.delete(M, i, axis=0)] and [np.delete(M, i, axis=1)]. *)
Definition delete_row (i : nat) (M : Matrix) : result Matrix := delete i M.
Definition delete_col (i : nat) (M : Matrix) : result Matrix := mapM (delete i) M.

(** [M[:, i]]. *)
Definition column (M : Matrix) (i : nat) : result Vec :=
  mapM (fun row => getitem row i) M.

(** [M[i, j]]. *)
Definition getitem2 (M : Matrix) (i j : nat) : result Q :=
  do row <- getitem M i; getitem row j.

(** [c * a] for a scalar [c]. *)
Definition scale (c : Q) (a : Vec) : Vec := map (Qmult c) a.

Fixpoint zip_add (a b : Vec) : Vec :=
  match a, b with
  | x :: a', y :: b' => (x + y) :: zip_add a' b'
  | _, _ => []
  end.

(** [a + b] on one-dimensional arrays: entrywise on equal lengths, an array
    of length one is broadcast along the other, anything else is a
    [ValueError]. *)
Definition add (a b : Vec) : result Vec :=
  if Nat.eqb (length a) (length b) then Ok (zip_add a b)
  else match a, b with
       | [x], _ => Ok (map (Qplus x) b)
       | _, [y] => Ok (map (fun x => x + y) a)
       | _, _ => Raise ValueError
       end.

(** Inner product, and the objective [x'Qx + P'x + R]. *)
Fixpoint dot (a b : Vec) : Q :=
  match a, b with
  | x :: a', y :: b' => x * y + dot a' b'
  | _, _ => 0
  end.

Definition matvec (M : Matrix) (x : Vec) : Vec := map (fun row => dot row x) M.

Definition quad (M : Matrix) (x : Vec) : Q := dot x (matvec M x).

Definition objective (M : Matrix) (P : Vec) (R : Q) (x : Vec) : Q :=
  quad M x + dot P x + R.

(** Shapes. *)
Definition square (n : nat) (M : Matrix) : Prop :=
  length M = n /\ Forall (fun row => length row = n) M.

Definition entry (M : Matrix) (i j : nat) : Q := nth j (nth i M []) 0.

Definition symmetric (M : Matrix) : Prop :=
  forall i j, entry M i j == entry M j i.

(** [x] with the value [v] put at position [p]. *)
Fixpoint insert_at {A : Type} (p : nat) (v : A) (x : list A) : list A :=
  match p, x with
  | O, _ => v :: x
  | S q, h :: t => h :: insert_at q v t
  | S _, [] => [v]
  end.

End NumPy.

Import NumPy.

(** ** The reduction of lines 88-93 *)

(** The data of a child node when the variable at reduced position [pivot]
    is fixed to [val]. *)
Definition reduce (Qm : Matrix) (P : Vec) (R : Q) (pivot : nat) (val : Q)
  : result (Matrix * Vec * Q) :=
  do QT <- delete_row pivot Qm;
  do Q0 <- delete_col pivot QT;
  do QZ <- column QT pivot;
  do PT <- delete pivot P;
  do P0 <- add PT (scale (2 * val) QZ);
  do qpp <- getitem2 Qm pivot pivot;
  do pp <- getitem P pivot;
  Ok (Q0, P0, val * qpp + val * pp + R).

(** ** Search nodes *)

(** The tuple pushed on the queue at line 97:
    [(obj, self.relSolved, Q, P, R, curr, idxmap, pivot)]. *)
Record Node : Type := mkNode {
  nd_obj : Q;
  nd_seq : nat;
  nd_Q : Matrix;
  nd_P : Vec;
  nd_R : Q;
  nd_curr : Vec;
  nd_idxmap : list nat;
  nd_pivot : nat
}.

(** ** The priority queue

    [heapq] is Python's library; it is modelled by its contract.  The queue is
    the collection of its tuples, [heappop] takes out the least tuple and
    [heappush] adds one.  Tuples compare lexicographically, so the objective
    decides and the sequence number breaks ties; two tuples that agree on both
    would be compared on their arrays, which Python refuses, and which the
    counter [relSolved] rules out. *)
Module heapq.

Definition precedes (a b : Node) : bool :=
  negb (Qle_bool (nd_obj b) (nd_obj a))
  || (Qeq_bool (nd_obj a) (nd_obj b) && (nd_seq a <=? nd_seq b)%nat).

Fixpoint heappop (h : list Node) : option (Node * list Node) :=
  match h with
  | [] => None
  | x :: t =>
      match heappop t with
      | None => Some (x, [])
      | Some (m, rest) =>
          if precedes x m then Some (x, t) else Some (m, x :: rest)
      end
  end.

Definition heappush (h : list Node) (x : Node) : list Node := x :: h.

End heapq.

(** ** The solver object *)

(** What a run leaves behind for an observer: the rows printed by [stats],
    the calls of [solveRelaxation] with the reduced data they are given, and
    the nodes pushed. *)
Inductive event : Type :=
| EvStats (solved active_nodes : nat) (bound best : Q)
| EvSolve (Q0 : Matrix) (P0 : Vec) (R0 : Q)
| EvPush (nd : Node).

(** Modelled from the spec: the class of [self] and its constructor are not
    part of the notebook.  [active], [lb], [ub], [gaptol] and [relSolved] are
    the attributes [solveBB] reads and writes; the original problem data and
    the incumbent assignment are the fields the spec's search state lists.
    [trace] is the observer's record and is read by no code. *)
Record BB : Type := mkBB {
  active : list Node;
  lb : Q;
  ub : Q;
  gaptol : Q;
  relSolved : nat;
  problem_Q : Matrix;
  problem_P : Vec;
  problem_R : Q;
  incumbent : Vec;
  trace : list event
}.

Definition set_active (s : BB) (a : list Node) : BB :=
  mkBB a (lb s) (ub s) (gaptol s) (relSolved s)
       (problem_Q s) (problem_P s) (problem_R s) (incumbent s) (trace s).

Definition set_lb (s : BB) (v : Q) : BB :=
  mkBB (active s) v (ub s) (gaptol s) (relSolved s)
       (problem_Q s) (problem_P s) (problem_R s) (incumbent s) (trace s).

Definition set_best (s : BB) (v : Q) (x : Vec) : BB :=
  mkBB (active s) (lb s) v (gaptol s) (relSolved s)
       (problem_Q s) (problem_P s) (problem_R s) x (trace s).

Definition set_relSolved (s : BB) (k : nat) : BB :=
  mkBB (active s) (lb s) (ub s) (gaptol s) k
       (problem_Q s) (problem_P s) (problem_R s) (incumbent s) (trace s).

Definition emit (s : BB) (e : event) : BB :=
  mkBB (active s) (lb s) (ub s) (gaptol s) (relSolved s)
       (problem_Q s) (problem_P s) (problem_R s) (incumbent s) (trace s ++ [e]).

(** The termination test of line 71, and the one of line 216 that replaces
    it on integral data. *)
Inductive TermTest : Type := GapTest | CeilTest.

Definition ceil (x : Q) : Q := inject_Z (Qceiling x).

Definition optimality_proved (t : TermTest) (s : BB) : bool :=
  match t with
  | GapTest => Qle_bool (ub s - gaptol s) (lb s)
  | CeilTest => Qle_bool (ub s) (ceil (lb s))
  end.

(** How one pass through the loop body ends. *)
Inductive signal : Type :=
| Continue                 (* back to the [while] test *)
| Return                   (* the [return] of line 73 *)
| Raised (e : exn).        (* an exception leaves [solveBB] *)

(** How [solveBB] ends. *)
Inductive outcome : Type :=
| Proved (s : BB)            (* left through the termination test *)
| Exhausted (s : BB)         (* the queue ran empty *)
| Failed (e : exn) (s : BB)  (* an exception escaped *)
| OutOfFuel (s : BB).

Section Engine.

(** The conic solver: [fusionSDP(Q, P, R)] followed by the solve.  It yields
    the optimal value of the relaxation and the level of [x], or nothing when
    no solution is available. *)
Variable sdp : Matrix -> Vec -> Q -> option (Q * Vec).

(** What the call [self.solveRelaxation(Q0, P0, R0, curr0, idxmap0)] of
    line 95 gives when the solver has no solution for it.  The method is not
    part of the notebook and nothing tells how it leaves such a call, so its
    answer is left open: the pair that line 95 unpacks, or an exception. *)
Variable unsolved : BB -> Matrix -> Vec -> Q -> Vec -> list nat -> result (Q * nat).

(** Modelled from the spec: [stats] is not part of the notebook; it reports
    one row with the relaxations solved, the number of active nodes and the
    two bounds. *)
Definition stats (s : BB) : BB :=
  emit s (EvStats (relSolved s) (length (active s)) (lb s) (ub s)).

(** Modelled from the spec: entrywise rounding with threshold one half. *)
Definition round_half (x : Q) : Q := if Qle_bool (1 # 2) x then 1 else 0.

(** Modelled from the spec: the distance of an entry from one half. *)
Definition dist_half (x : Q) : Q := Qabs (x - (1 # 2)).

(** Modelled from the spec: the scan for the entry closest to one half, from
    position [i] on, with the best position so far and its distance. *)
Fixpoint argmin_half_from (i best : nat) (d : Q) (x : Vec) : nat :=
  match x with
  | [] => best
  | h :: t =>
      if negb (Qle_bool d (dist_half h))
      then argmin_half_from (S i) i (dist_half h) t
      else argmin_half_from (S i) best d t
  end.

(** Modelled from the spec: the index of the entry closest to one half, the
    smallest such index on ties. *)
Definition argmin_half (x : Vec) : nat :=
  match x with
  | [] => O
  | h :: t => argmin_half_from 1 0 (dist_half h) t
  end.

(** Total update of one position (nothing happens out of range). *)
Fixpoint put {A : Type} (i : nat) (v : A) (a : list A) {struct a} : list A :=
  match a, i with
  | [], _ => []
  | _ :: t, O => v :: t
  | h :: t, S j => h :: put j v t
  end.

(** Modelled from the spec: the fully assigned vector, the node's assignment
    with the rounded free entries written at their original indices. *)
Fixpoint scatter (curr : Vec) (idxmap : list nat) (xr : Vec) : Vec :=
  match idxmap, xr with
  | i :: idxmap', x :: xr' => scatter (put i x curr) idxmap' xr'
  | _, _ => curr
  end.

(** Modelled from the spec: the incumbent is replaced when the rounded
    vector improves the upper bound on the original problem. *)
Definition updateBest (s : BB) (x : Vec) : BB :=
  let val := objective (problem_Q s) (problem_P s) (problem_R s) x in
  if negb (Qle_bool (ub s) val) then set_best s val x else s.

(** Modelled from the spec: [solveRelaxation] is not part of the notebook.
    It solves the relaxation of the reduced data, counts it, rounds the
    fractional solution to update the incumbent, and returns the objective
    with the next branching index.  When the solver has no solution nothing
    is counted or rounded, and the call ends as [unsolved] has it. *)
Definition solveRelaxation (s : BB) (Q0 : Matrix) (P0 : Vec) (R0 : Q)
    (curr0 : Vec) (idxmap0 : list nat) : BB * result (Q * nat) :=
  let s1 := emit s (EvSolve Q0 P0 R0) in
  match sdp Q0 P0 R0 with
  | None => (s1, unsolved s Q0 P0 R0 curr0 idxmap0)
  | Some (objval, xx) =>
      let s2 := set_relSolved s1 (S (relSolved s1)) in
      let s3 := updateBest s2 (scatter curr0 idxmap0 (map round_half xx)) in
      (s3, Ok (objval, argmin_half xx))
  end.

(** Lines 84-93: the arrays of the child for the value [val]. *)
Definition child_data (nd : Node) (pidx : nat) (val : Q)
  : result (list nat * Vec * (Matrix * Vec * Q)) :=
  do idxmap0 <- delete (nd_pivot nd) (nd_idxmap nd);
  do curr0 <- setitem (nd_curr nd) pidx val;
  do red <- reduce (nd_Q nd) (nd_P nd) (nd_R nd) (nd_pivot nd) val;
  Ok (idxmap0, curr0, red).

Definition push (s : BB) (nd : Node) : BB :=
  emit (set_active s (heapq.heappush (active s) nd)) (EvPush nd).

(** Lines 84-97: one pass of the [for] loop. *)
Definition expand_child (nd : Node) (pidx : nat) (val : Q) (s : BB)
  : BB * result unit :=
  match child_data nd pidx val with
  | Raise e => (s, Raise e)
  | Ok (idxmap0, curr0, (Q0, P0, R0)) =>
      match solveRelaxation s Q0 P0 R0 curr0 idxmap0 with
      | (s1, Raise e) => (s1, Raise e)
      | (s1, Ok (obj0, pivot0)) =>
          (push s1 (mkNode obj0 (relSolved s1) Q0 P0 R0 curr0 idxmap0 pivot0),
           Ok tt)
      end
  end.

(** Line 83: [for val in [0, 1]]. *)
Fixpoint for_vals (vals : list Q) (nd : Node) (pidx : nat) (s : BB)
  : BB * result unit :=
  match vals with
  | [] => (s, Ok tt)
  | val :: vals' =>
      match expand_child nd pidx val s with
      | (s1, Raise e) => (s1, Raise e)
      | (s1, Ok _) => for_vals vals' nd pidx s1
      end
  end.

(** Lines 66-97: one pass of the [while] body, entered with a non-empty
    queue from which [nd] is popped, leaving [rest]. *)
Definition body (t : TermTest) (nd : Node) (rest : list Node) (s : BB)
  : BB * signal :=
  let s1 := set_lb (set_active s rest) (nd_obj nd) in
  if optimality_proved t s1 then (set_active s1 [], Return)
  else
    let s2 := stats s1 in
    if (length (nd_P nd) <=? 1)%nat then (s2, Continue)
    else
      match getitem (nd_idxmap nd) (nd_pivot nd) with
      | Raise e => (s2, Raised e)
      | Ok pidx =>
          match for_vals [0; 1] nd pidx s2 with
          | (s3, Raise e) => (s3, Raised e)
          | (s3, Ok _) => (s3, Continue)
          end
      end.

(** Lines 63-97.  The loop is unrolled [fuel] times. *)
Fixpoint solveBB (t : TermTest) (fuel : nat) (s : BB) : outcome :=
  match heapq.heappop (active s) with
  | None => Exhausted s
  | Some (nd, rest) =>
      match fuel with
      | O => OutOfFuel s
      | S fuel' =>
          match body t nd rest s with
          | (s', Continue) => solveBB t fuel' s'
          | (s', Return) => Proved s'
          | (s', Raised e) => Failed e s'
          end
      end
  end.

End Engine.

(** ** Arrays in memory

    The pure model above passes arrays by value.  That is sound only if no
    array of a queued or popped node is ever changed in place.  This module
    models lines 84-93 once more, on a heap of array objects referred to by
    address: [np.delete] and [np.copy] and the arithmetic operators allocate a
    new object, [QT[:, pivot]] is a view read in place, and [curr0[pidx] = val]
    is the one update in place. *)
Module Memory.

Inductive array : Type :=
| AVec (v : Vec)
| AMat (m : Matrix)
| AIdx (l : list nat).

(** The object at address [l] is the [l]-th entry; allocation appends. *)
Definition heap := list array.

Definition M (A : Type) : Type := heap -> result (A * heap).

Definition ret {A : Type} (a : A) : M A := fun h => Ok (a, h).

Definition bindM {A B : Type} (m : M A) (k : A -> M B) : M B :=
  fun h => match m h with
           | Ok (a, h') => k a h'
           | Raise e => Raise e
           end.

Notation "'let*' x ':=' m 'in' k" := (bindM m (fun x => k))
  (at level 10, x pattern, m at level 100, k at level 200).

Definition lift {A : Type} (r : result A) : M A :=
  fun h => match r with
           | Ok a => Ok (a, h)
           | Raise e => Raise e
           end.

Definition new (a : array) : M nat := fun h => Ok (length h, h ++ [a]).

Definition read (l : nat) : M array :=
  fun h => match nth_error h l with
           | Some a => Ok (a, h)
           | None => Raise IndexError
           end.

Definition write (l : nat) (a : array) : M unit :=
  fun h => if (l <? length h)%nat then Ok (tt, put l a h) else Raise IndexError.

Definition read_vec (l : nat) : M Vec :=
  let* a := read l in
  match a with AVec v => ret v | _ => lift (Raise TypeError) end.

Definition read_mat (l : nat) : M Matrix :=
  let* a := read l in
  match a with AMat m => ret m | _ => lift (Raise TypeError) end.

Definition read_idx (l : nat) : M (list nat) :=
  let* a := read l in
  match a with AIdx i => ret i | _ => lift (Raise TypeError) end.

(** The arrays a popped node refers to, with its scalars. *)
Record NodeRef : Type := mkNodeRef {
  r_Q : nat;
  r_P : nat;
  r_R : Q;
  r_curr : nat;
  r_idxmap : nat;
  r_pivot : nat
}.

(** The arrays built for a child, with its scalar [R0]. *)
Record ChildRef : Type := mkChildRef {
  c_idxmap : nat;
  c_curr : nat;
  c_Q : nat;
  c_P : nat;
  c_R : Q
}.

(** Lines 84-93 for one value [val]. *)
Definition build_child (par : NodeRef) (pidx : nat) (val : Q) : M ChildRef :=
  let pivot := r_pivot par in
  let* idxmap := read_idx (r_idxmap par) in
  let* i0 := lift (delete pivot idxmap) in
  let* l_idxmap0 := new (AIdx i0) in
  let* curr := read_vec (r_curr par) in
  let* l_curr0 := new (AVec curr) in
  let* c := read_vec l_curr0 in
  let* c' := lift (setitem c pidx val) in
  let* _ := write l_curr0 (AVec c') in
  let* Qm := read_mat (r_Q par) in
  let* QT := lift (delete_row pivot Qm) in
  let* l_QT := new (AMat QT) in
  let* Q0 := lift (delete_col pivot QT) in
  let* l_Q0 := new (AMat Q0) in
  let* QZ := lift (column QT pivot) in
  let* P := read_vec (r_P par) in
  let* PT := lift (delete pivot P) in
  let* l_PT := new (AVec PT) in
  let* l_tmp := new (AVec (scale (2 * val) QZ)) in
  let* P0 := lift (add PT (scale (2 * val) QZ)) in
  let* l_P0 := new (AVec P0) in
  let* qpp := lift (getitem2 Qm pivot pivot) in
  let* pp := lift (getitem P pivot) in
  ret (mkChildRef l_idxmap0 l_curr0 l_Q0 l_P0 (val * qpp + val * pp + r_R par)).

(** The references [par] point at the arrays of the node [nd]. *)
Definition holds (h : heap) (par : NodeRef) (nd : Node) : Prop :=
  nth_error h (r_Q par) = Some (AMat (nd_Q nd)) /\
  nth_error h (r_P par) = Some (AVec (nd_P nd)) /\
  nth_error h (r_curr par) = Some (AVec (nd_curr nd)) /\
  nth_error h (r_idxmap par) = Some (AIdx (nd_idxmap nd)) /\
  r_R par = nd_R nd /\ r_pivot par = nd_pivot nd.

(** Every array of the child was allocated after [h]. *)
Definition allocated_after (h : heap) (c : ChildRef) : Prop :=
  (length h <= c_idxmap c)%nat /\ (length h <= c_curr c)%nat /\
  (length h <= c_Q c)%nat /\ (length h <= c_P c)%nat.

(** The child's arrays hold the data [d]. *)
Definition contents (h : heap) (c : ChildRef)
    (d : list nat * Vec * (Matrix * Vec * Q)) : Prop :=
  let '(i0, c0, (Q0, P0, R0)) := d in
  nth_error h (c_idxmap c) = Some (AIdx i0) /\
  nth_error h (c_curr c) = Some (AVec c0) /\
  nth_error h (c_Q c) = Some (AMat Q0) /\
  nth_error h (c_P c) = Some (AVec P0) /\
  c_R c = R0.

(** An instance: the root of the example, laid out in memory. *)
Definition example_heap : heap :=
  [AMat [[0; 0]; [0; 0]]; AVec [3; -1]; AVec [0; 0]; AIdx [0; 1]%nat].

Definition example_ref : NodeRef := mkNodeRef 0 1 0 2 3 0.

End Memory.

(** * Vocabulary of the statements *)

(** The contents left by a successful [delete]. *)
Fixpoint del {A : Type} (i : nat) (a : list A) {struct a} : list A :=
  match a, i with
  | [], _ => []
  | _ :: t, O => t
  | h :: t, S j => h :: del j t
  end.

(** Entrywise equality of rational vectors. *)
Definition veq : Vec -> Vec -> Prop := Forall2 Qeq.

(** Closed form of the child data. *)
Definition reduced_Q (Qm : Matrix) (p : nat) : Matrix := map (del p) (del p Qm).

Definition coupling (Qm : Matrix) (p : nat) : Vec :=
  map (fun row => nth p row 0) (del p Qm).

Definition reduced_P (Qm : Matrix) (P : Vec) (p : nat) (v : Q) : Vec :=
  zip_add (del p P) (scale (2 * v) (coupling Qm p)).

Definition reduced_R (Qm : Matrix) (P : Vec) (R : Q) (p : nat) (v : Q) : Q :=
  v * entry Qm p p + v * nth p P 0 + R.

(** The shape of a node of an instance with [n] variables: the index map is
    as long as the reduced data and lists distinct original indices. *)
Definition idx_ok (n : nat) (nd : Node) : Prop :=
  length (nd_idxmap nd) = length (nd_P nd) /\
  square (length (nd_P nd)) (nd_Q nd) /\
  NoDup (nd_idxmap nd) /\
  Forall (fun i => (i < n)%nat) (nd_idxmap nd).

(** A node ready for expansion: its pivot is a position of the reduced
    problem and the index map sends it into the assignment. *)
Definition expandable (nd : Node) (pidx : nat) : Prop :=
  length (nd_idxmap nd) = length (nd_P nd) /\
  square (length (nd_P nd)) (nd_Q nd) /\
  nth_error (nd_idxmap nd) (nd_pivot nd) = Some pidx /\
  (pidx < length (nd_curr nd))%nat.

(** The child built by lines 84-97 for the value [val], given what the
    relaxation returned. *)
Definition child_of (nd : Node) (pidx : nat) (val : Q) (seq : nat)
    (obj0 : Q) (pivot0 : nat) : Node :=
  mkNode obj0 seq
         (reduced_Q (nd_Q nd) (nd_pivot nd))
         (reduced_P (nd_Q nd) (nd_P nd) (nd_pivot nd) val)
         (reduced_R (nd_Q nd) (nd_P nd) (nd_R nd) (nd_pivot nd) val)
         (put pidx val (nd_curr nd))
         (del (nd_pivot nd) (nd_idxmap nd))
         pivot0.

Section Runs.

Variable sdp : Matrix -> Vec -> Q -> option (Q * Vec).
Variable unsolved : BB -> Matrix -> Vec -> Q -> Vec -> list nat -> result (Q * nat).
Variable t : TermTest.

(** One pass of the [while] loop from [s], ending in [s'] with [sig]. *)
Definition iteration (s s' : BB) (sig : signal) : Prop :=
  exists nd rest,
    heapq.heappop (active s) = Some (nd, rest) /\
    body sdp unsolved t nd rest s = (s', sig).

(** The states a run from [s] passes through at the ends of its
    iterations, the last one included. *)
Inductive visits : BB -> BB -> Prop :=
| visits_here (s : BB) : visits s s
| visits_last (s s' : BB) (sig : signal) : iteration s s' sig -> visits s s'
| visits_next (s s1 s' : BB) :
    iteration s s1 Continue -> visits s1 s' -> visits s s'.

End Runs.

(** The fields a relaxation solve leaves alone. *)
Definition same_frame (s s' : BB) : Prop :=
  active s' = active s /\ lb s' = lb s /\ gaptol s' = gaptol s /\
  problem_Q s' = problem_Q s /\ problem_P s' = problem_P s /\
  problem_R s' = problem_R s.

(** The bounds and the problem data after a step. *)
Definition kept (s s' : BB) : Prop :=
  lb s' = lb s /\ gaptol s' = gaptol s /\ problem_Q s' = problem_Q s /\
  problem_P s' = problem_P s /\ problem_R s' = problem_R s /\ ub s' <= ub s.

(** ** Assumptions on the conic solver *)

Definition is_bin (x : Q) : Prop := x = 0 \/ x = 1.

Section Oracle.

Variable sdp : Matrix -> Vec -> Q -> option (Q * Vec).

(** The level of [x] has one entry per variable of the relaxation. *)
Definition sdp_shape : Prop :=
  forall Qm P R o x, sdp Qm P R = Some (o, x) -> length x = length P.

Variable unsolved : BB -> Matrix -> Vec -> Q -> Vec -> list nat -> result (Q * nat).

(** [o] is an objective that [solveRelaxation] returns for the data
    [(Qm, P, R)]: the value of the solver, or the first component of the pair
    the call answers with when the solver has no solution. *)
Definition returned (Qm : Matrix) (P : Vec) (R : Q) (o : Q) : Prop :=
  (exists x, sdp Qm P R = Some (o, x)) \/
  (sdp Qm P R = None /\
   exists s curr0 idxmap0 pv, unsolved s Qm P R curr0 idxmap0 = Ok (o, pv)).

(** Fixing a variable of a problem with symmetric [Q] to 0 or to 1, as
    lines 83-93 do, does not lower the objective [solveRelaxation]
    returns. *)
Definition relax_monotone : Prop :=
  forall n Qm P R p v Q0 P0 R0 o o0,
    square n Qm -> symmetric Qm -> length P = n -> is_bin v ->
    reduce Qm P R p v = Ok (Q0, P0, R0) ->
    returned Qm P R o ->
    returned Q0 P0 R0 o0 ->
    o <= o0.

(** The objective stored in a node is one returned for its data. *)
Definition obj_ok (nd : Node) : Prop :=
  returned (nd_Q nd) (nd_P nd) (nd_R nd) (nd_obj nd).

(** The nodes the assumption speaks of: well shaped, for an instance with [n]
    variables, with symmetric [Q], and carrying a returned objective. *)
Definition relaxed (n : nat) (nd : Node) : Prop :=
  obj_ok nd /\ idx_ok n nd /\ symmetric (nd_Q nd).

End Oracle.

(** ** Feasible assignments and the incumbent *)

Definition feasible (n : nat) (x : Vec) : Prop :=
  length x = n /\ Forall is_bin x.

(** The value of the original problem of [s] at [x]. *)
Definition value (s : BB) (x : Vec) : Q :=
  objective (problem_Q s) (problem_P s) (problem_R s) x.

(** The incumbent is feasible and attains the upper bound. *)
Definition inc_ok (s : BB) : Prop :=
  feasible (length (problem_P s)) (incumbent s) /\
  value s (incumbent s) == ub s.

(** A node of an instance with [n] variables: besides the shape of its
    index map, its assignment has [n] entries, and those the index map does
    not list are already fixed to 0 or 1. *)
Definition node_ok (n : nat) (nd : Node) : Prop :=
  idx_ok n nd /\
  length (nd_curr nd) = n /\
  forall i, (i < n)%nat -> In i (nd_idxmap nd) \/ is_bin (nth i (nd_curr nd) 0).

(** The queue and the incumbent of a state in good order. *)
Definition state_ok (s : BB) : Prop :=
  Forall (node_ok (length (problem_P s))) (active s) /\ inc_ok s.

(** ** The size of the remaining search *)

(** A node with reduced dimension [d] heads a subtree of at most
    [2^(d+1) - 1] nodes.  The dimension is read off both [P] and [Q], which
    agree on well-shaped nodes. *)
Definition dimension (nd : Node) : nat :=
  Nat.max (length (nd_P nd)) (length (nd_Q nd)).

Definition weight (nd : Node) : nat := (2 ^ S (dimension nd) - 1)%nat.

Definition potential (h : list Node) : nat := list_sum (map weight h).

(** ** Integral data and the exact optimum *)

Definition is_int (q : Q) : Prop := exists z : Z, q == inject_Z z.

Definition integral (Qm : Matrix) (P : Vec) (R : Q) : Prop :=
  Forall (Forall is_int) Qm /\ Forall is_int P /\ is_int R.

(** All 0/1 vectors of length [n]. *)
Fixpoint assignments (n : nat) : list Vec :=
  match n with
  | O => [[]]
  | S m => map (cons 0) (assignments m) ++ map (cons 1) (assignments m)
  end.

Definition minimum (l : list Q) : Q :=
  match l with
  | [] => 0
  | v :: vs => fold_right Qmin v vs
  end.

(** The least value of [x'Qx + P'x + R] over [{0,1}^n]. *)
Definition optimum (Qm : Matrix) (P : Vec) (R : Q) : Q :=
  minimum (map (objective Qm P R) (assignments (length P))).

(** ** Instances used in examples: minimise 3 x1 - x2 over {0,1}^2 *)

Module Example.

Definition Qm : Matrix := [[0; 0]; [0; 0]].
Definition P : Vec := [3; -1].

(** The root as the first relaxation left it; rounding its solution gave
    the incumbent (0,1) of value -1. *)
Definition root (o : Q) : Node := mkNode o 1 Qm P 0 [0; 0] [0; 1]%nat 0.

Definition start (o : Q) : BB :=
  mkBB [root o] (-10000000000) (-1) (1 # 1000000) 1 Qm P 0 [0; 1] [].

(** A solver whose values are lower bounds of the node's problems: -2 at the
    root, [lo] for the child with x1 = 0 and 2 for the child with x1 = 1. *)
Definition sdp (lo : Q) (M : Matrix) (P0 : Vec) (R0 : Q) : option (Q * Vec) :=
  match P0 with
  | [_; _] => Some (-2, [2 # 5; 9 # 10])
  | [_] => if Qeq_bool R0 0 then Some (lo, [1]) else Some (2, [1])
  | _ => None
  end.

(** A solver that returns the exact value of the binary problem, the
    tightest lower bound a relaxation can give, with every entry of [x]
    at one half. *)
Definition exact (M : Matrix) (P0 : Vec) (R0 : Q) : option (Q * Vec) :=
  Some (optimum M P0 R0, repeat (1 # 2) (length P0)).

(** The example with the incumbent (0,0) of value 0, the root carrying its
    exact value. *)
Definition start_exact : BB :=
  mkBB [root (-1)] (-10000000000) 0 (1 # 1000000) 1 Qm P 0 [0; 0] [].

(** A solver that finds no solution for the child with x1 = 1. *)
Definition sdp_failing (M : Matrix) (P0 : Vec) (R0 : Q) : option (Q * Vec) :=
  match P0 with
  | [_; _] => Some (-2, [2 # 5; 9 # 10])
  | [_] => if Qeq_bool R0 0 then Some (-(3 # 2), [1]) else None
  | _ => None
  end.

(** Two ways for [solveRelaxation] to leave a call whose solve gave no
    solution: with the exception Fusion raises when a level is read that is
    not there, or with a pair made up from the value [o]. *)
Definition unsolved_raises (s : BB) (M : Matrix) (P0 : Vec) (R0 : Q)
    (curr0 : Vec) (idxmap0 : list nat) : result (Q * nat) :=
  Raise SolutionError.

Definition unsolved_returns (o : Q) (s : BB) (M : Matrix) (P0 : Vec) (R0 : Q)
    (curr0 : Vec) (idxmap0 : list nat) : result (Q * nat) :=
  Ok (o, 0%nat).

Definition child0 (lo : Q) : Node :=
  mkNode lo 2 [[0]] [-1] 0 [0; 0] [1%nat] 0.
Definition child1 : Node :=
  mkNode 2 3 [[0]] [-1] 3 [1; 0] [1%nat] 0.

End Example.

(** ** The sub-problem of a node *)

(** Reduced position [k] of a child names position [skip p k] of its
    parent, the pivot [p] being left out. *)
Definition skip (p k : nat) : nat := if (k <? p)%nat then k else S k.

(** The reduced data of [nd] evaluate the problem [(Qm, P, R)] on the
    assignment of [nd] completed, through its index map, by the values [y] of
    its free variables. *)
Definition subproblem (Qm : Matrix) (P : Vec) (R : Q) (nd : Node) : Prop :=
  forall y, length y = length (nd_P nd) ->
    objective (nd_Q nd) (nd_P nd) (nd_R nd) y
    == objective Qm P R (scatter (nd_curr nd) (nd_idxmap nd) y).

Definition node_sound (n : nat) (Qm : Matrix) (P : Vec) (R : Q) (nd : Node) : Prop :=
  idx_ok n nd /\ symmetric (nd_Q nd) /\ subproblem Qm P R nd.

(** ** Fusion models

    A Fusion model is a set of constraints on the values of its variables and
    a linear objective.  The embedding reads a model at given values of the
    variables: the constraints as a proposition, the objective as a number.
    A one-dimensional variable or expression is a [Vec], a two-dimensional one
    the list of its rows.  The operations of [Expr] and the domains are those
    of the library, with the meaning the notebooks state for them. *)
Module Fusion.

(** [Expr.mul(A, x)], [Expr.add(e, b)], [Expr.sub(e, f)]. *)
Definition mul (A : Matrix) (x : Vec) : Vec := matvec A x.
Definition add (e b : Vec) : Vec := zip_add e b.

Fixpoint sub (e f : Vec) : Vec :=
  match e, f with
  | a :: e', b :: f' => (a - b) :: sub e' f'
  | _, _ => []
  end.

(** [Expr.vstack(t, e)] for a variable [t] of size one. *)
Definition vstack (t : Q) (e : Vec) : Vec := t :: e.

(** [Expr.transpose(e)] of a vector: the list of one row. *)
Definition transpose (e : Vec) : Matrix := [e].

(** [Expr.hstack(z, x)] of two vectors: the rows [(z_j, x_j)]. *)
Fixpoint hstack (z x : Vec) : Matrix :=
  match z, x with
  | a :: z', b :: x' => [a; b] :: hstack z' x'
  | _, _ => []
  end.

(** [z.index(j)]. *)
Definition index (z : Vec) (j : nat) : Q := nth j z 0.

(** [Expr.sum(z)], [Expr.dot(lam, z)] and [Expr.dot(Q, X)] on matrices. *)
Definition sum (z : Vec) : Q := fold_right Qplus 0 z.

Fixpoint dot2 (A B : Matrix) : Q :=
  match A, B with
  | a :: A', b :: B' => dot a b + dot2 A' B'
  | _, _ => 0
  end.

(** [Z.slice([r0, c0], [r1, c1])], [X.diag()] and [Z.index(i, j)]. *)
Definition slice (Z : Matrix) (r0 c0 r1 c1 : nat) : Matrix :=
  map (fun row => firstn (c1 - c0) (skipn c0 row)) (firstn (r1 - r0) (skipn r0 Z)).

Definition diag (X : Matrix) : Vec :=
  map (fun k => entry X k k) (seq 0 (length X)).

Definition index2 (Z : Matrix) (i j : nat) : Q := entry Z i j.

(** [Domain.inQCone()]: the first entry bounds the norm of the others; on a
    two-dimensional expression every row is in the cone. *)
Definition inQCone (v : Vec) : Prop :=
  match v with
  | [] => False
  | t :: u => 0 <= t /\ dot u u <= t * t
  end.

Definition rows_inQCone (e : Matrix) : Prop := Forall inQCone e.

(** [Domain.inPSDCone(d)]: symmetric of order [d] and positive semidefinite. *)
Definition inPSDCone (d : nat) (Z : Matrix) : Prop :=
  square d Z /\ symmetric Z /\ forall w, length w = d -> 0 <= quad Z w.

(** [Domain.equalsTo(c)]. *)
Definition equalsTo (c : Q) (e : Vec) : Prop := Forall (fun a => a == c) e.

End Fusion.

(** ** The relaxation of [fusionSDP] (binquad.ipynb, lines 118-129) *)

Module Relaxation.

(** The blocks [X] and [x] of the variable [Z], the latter a column. *)
Definition X_of (n : nat) (Z : Matrix) : Matrix := Fusion.slice Z 0 0 n n.
Definition x_of (n : nat) (Z : Matrix) : Vec := concat (Fusion.slice Z 0 n n (n + 1)).

(** The constraints of the model at the value [Z] of its variable. *)
Definition constraints (P : Vec) (Z : Matrix) : Prop :=
  let n := length P in
  Fusion.inPSDCone (n + 1) Z /\
  Fusion.equalsTo 0 (Fusion.sub (Fusion.diag (X_of n Z)) (x_of n Z)) /\
  Fusion.equalsTo 1 [Fusion.index2 Z n n].

(** The objective [R + P.x + Q.X]. *)
Definition objective_at (Qm : Matrix) (P : Vec) (R : Q) (Z : Matrix) : Q :=
  let n := length P in
  R + dot P (x_of n Z) + Fusion.dot2 Qm (X_of n Z).

(** [a b'], and the point [(x; 1)(x; 1)'] that a 0/1 vector lifts to. *)
Definition outer (a b : Vec) : Matrix := map (fun ai => scale ai b) a.

Definition lifted (x : Vec) : Matrix := outer (x ++ [1]) (x ++ [1]).

End Relaxation.

(** ** The models of the Quickstart notebook (expressions.ipynb) *)

Module Quickstart.

(** [(m, n) = A.shape]. *)
Definition columns (A : Matrix) : nat := length (hd [] A).

(** Lines 122-123: the constraint [(t; Ax + b)] in the quadratic cone. *)
Definition norm_constraint (A : Matrix) (b : Vec) (t : Q) (x : Vec) : Prop :=
  Fusion.rows_inQCone
    (Fusion.transpose (Fusion.vstack t (Fusion.add (Fusion.mul A x) b))).

(** [buildmodel(A, b)] at the values [t], [x] of its variables. *)
Definition buildmodel (A : Matrix) (b : Vec) (t : Q) (x : Vec) : Prop * Q :=
  (norm_constraint A b t x, t).

(** [buildregumodel(A, b, lam)]: one cone constraint per [j] in [range(n)]. *)
Definition buildregumodel (A : Matrix) (b : Vec) (lam : Q)
    (t : Q) (x z : Vec) : Prop * Q :=
  (norm_constraint A b t x /\
   Forall (fun j => Fusion.inQCone [Fusion.index z j; Fusion.index x j])
          (seq 0 (columns A)),
   t + lam * Fusion.sum z).

(** [buildregumodel2(A, b, lam)]: the rows of [hstack(z, x)] in the cone. *)
Definition buildregumodel2 (A : Matrix) (b : Vec) (lam : Vec)
    (t : Q) (x z : Vec) : Prop * Q :=
  (norm_constraint A b t x /\ Fusion.rows_inQCone (Fusion.hstack z x),
   t + dot lam z).

End Quickstart.

(** * Properties *)

Unset Implicit Arguments.

(** ** Arrays: deletion, insertion and inner products *)

Lemma delete_del {A : Type} (a : list A) :
  forall i, (i < length a)%nat -> delete i a = Ok (del i a).
Proof.
  induction a as [|h t IH]; intros [|j] Hlt; simpl in *; try lia; trivial.
  rewrite IH by lia. reflexivity.
Qed.

Lemma delete_inv {A : Type} (a : list A) :
  forall i a', delete i a = Ok a' -> (i < length a)%nat /\ a' = del i a.
Proof.
  induction a as [|h t IH]; intros [|j] a' H; simpl in *; try discriminate.
  - inversion H. split; [lia | reflexivity].
  - destruct (delete j t) as [t'|] eqn:E; simpl in H; try discriminate.
    inversion H. destruct (IH _ _ E) as [Hlt ->]. split; [lia | reflexivity].
Qed.

Lemma length_del {A : Type} (a : list A) :
  forall i, (i < length a)%nat -> length (del i a) = pred (length a).
Proof.
  induction a as [|h t IH]; intros [|j] Hlt; simpl in *; try lia.
  rewrite IH by lia. lia.
Qed.

Lemma del_map {A B : Type} (f : A -> B) (a : list A) :
  forall i, del i (map f a) = map f (del i a).
Proof.
  induction a as [|h t IH]; intros [|j]; simpl; trivial.
  now rewrite IH.
Qed.

Lemma nth_del {A : Type} (d : A) (a : list A) :
  forall i k, nth k (del i a) d = if (k <? i)%nat then nth k a d else nth (S k) a d.
Proof.
  induction a as [|h t IH]; intros i k.
  - simpl. destruct (k <? i)%nat; destruct k; reflexivity.
  - destruct i as [|j], k as [|k]; simpl; trivial.
    rewrite IH. reflexivity.
Qed.

Lemma mapM_map {A B : Type} (f : A -> result B) (g : A -> B) (l : list A) :
  Forall (fun x => f x = Ok (g x)) l -> mapM f l = Ok (map g l).
Proof.
  induction 1 as [|x l Hx _ IH]; simpl; trivial.
  now rewrite Hx, IH.
Qed.

Lemma getitem_nth {A : Type} (d : A) (a : list A) (i : nat) :
  (i < length a)%nat -> getitem a i = Ok (nth i a d).
Proof.
  intros Hlt. unfold getitem.
  now rewrite (nth_error_nth' a d Hlt).
Qed.

Lemma veq_refl (a : Vec) : veq a a.
Proof. induction a; constructor; [reflexivity | assumption]. Qed.

Lemma veq_nth (a b : Vec) :
  length a = length b ->
  (forall k, (k < length a)%nat -> nth k a 0 == nth k b 0) ->
  veq a b.
Proof.
  revert b. induction a as [|x a IH]; intros [|y b] Hlen Hnth; simpl in *;
    try discriminate; constructor.
  - apply (Hnth O). lia.
  - apply IH; [lia|]. intros k Hk. apply (Hnth (S k)). lia.
Qed.

Lemma dot_veq (a a' y : Vec) : veq a a' -> dot a y == dot a' y.
Proof.
  intros H. revert y. induction H as [|x x' a a' Hx _ IH]; intros [|y0 y]; simpl;
    try reflexivity.
  rewrite Hx, IH. reflexivity.
Qed.

Lemma dot_comm (a : Vec) : forall b, dot a b == dot b a.
Proof.
  induction a as [|x a IH]; intros [|y b]; simpl; try reflexivity.
  rewrite IH. ring.
Qed.

Lemma dot_nil_r (a : Vec) : dot a [] = 0.
Proof. now destruct a. Qed.

Lemma dot_zip_add (a : Vec) :
  forall b y, length a = length b -> dot (zip_add a b) y == dot a y + dot b y.
Proof.
  induction a as [|x a IH]; intros [|z b] [|y0 y] Hlen; simpl in *;
    try discriminate; try ring.
  rewrite IH by lia. ring.
Qed.

Lemma dot_scale (c : Q) (a : Vec) : forall y, dot (scale c a) y == c * dot a y.
Proof.
  induction a as [|x a IH]; intros [|y0 y]; simpl; try ring.
  rewrite IH. ring.
Qed.

Lemma dot_map_plus {A : Type} (f g : A -> Q) (l : list A) :
  forall y, dot (map (fun r => f r + g r) l) y == dot (map f l) y + dot (map g l) y.
Proof.
  induction l as [|r l IH]; intros [|y0 y]; simpl; try ring.
  rewrite IH. ring.
Qed.

Lemma dot_map_scale {A : Type} (f : A -> Q) (c : Q) (l : list A) :
  forall y, dot (map (fun r => f r * c) l) y == c * dot (map f l) y.
Proof.
  induction l as [|r l IH]; intros [|y0 y]; simpl; try ring.
  rewrite IH. ring.
Qed.

(** An inner product against a vector with one more entry splits off the
    inserted entry. *)
Lemma dot_insert_at (v : Q) (p : nat) :
  forall a y, length a = S (length y) -> (p <= length y)%nat ->
    dot a (insert_at p v y) == dot (del p a) y + nth p a 0 * v.
Proof.
  induction p as [|p IH]; intros [|x a] y Hlen Hp; simpl in *; try discriminate.
  - ring.
  - destruct y as [|y0 y]; simpl in *; [lia|].
    rewrite IH by lia. ring.
Qed.

Lemma Forall_del {A : Type} (F : A -> Prop) (a : list A) :
  forall i, Forall F a -> Forall F (del i a).
Proof.
  induction a as [|h t IH]; intros i H; simpl; trivial.
  inversion H; subst. destruct i; auto.
Qed.

Lemma In_del {A : Type} (x : A) (a : list A) :
  forall i, In x (del i a) -> In x a.
Proof.
  induction a as [|h t IH]; intros [|j] H; simpl in *; auto.
  destruct H as [H|H]; eauto.
Qed.

(** ** The reduction on well-shaped data *)

Lemma square_row (n : nat) (Qm : Matrix) (i : nat) :
  square n Qm -> (i < n)%nat -> length (nth i Qm []) = n.
Proof.
  intros [Hlen Hrows] Hi.
  rewrite Forall_forall in Hrows. apply Hrows, nth_In. lia.
Qed.

Lemma reduce_closed_form (n : nat) (Qm : Matrix) (P : Vec) (R : Q) (p : nat) (v : Q) :
  square n Qm -> length P = n -> (p < n)%nat ->
  reduce Qm P R p v =
    Ok (reduced_Q Qm p, reduced_P Qm P p v, reduced_R Qm P R p v).
Proof.
  intros Hsq HP Hp. pose proof Hsq as [HlenQ Hrows].
  unfold reduce, delete_row, delete_col, column.
  rewrite (delete_del Qm) by lia. cbn [bind].
  rewrite (mapM_map (delete p) (del p)); cycle 1.
  { apply Forall_del. eapply Forall_impl; [|exact Hrows].
    intros row Hrow. cbv beta in Hrow. apply delete_del. lia. }
  cbn [bind].
  rewrite (mapM_map (fun row => getitem row p) (fun row => nth p row 0)); cycle 1.
  { apply Forall_del. eapply Forall_impl; [|exact Hrows].
    intros row Hrow. cbv beta in Hrow. apply getitem_nth. lia. }
  cbn [bind].
  rewrite (delete_del P) by lia. cbn [bind].
  unfold add.
  replace (Nat.eqb _ _) with true; cycle 1.
  { symmetry. apply Nat.eqb_eq. unfold scale.
    rewrite !length_map, !length_del by lia. lia. }
  cbn [bind]. unfold getitem2.
  rewrite (getitem_nth [] Qm) by lia. cbn [bind].
  rewrite (getitem_nth 0 (nth p Qm [])) by (rewrite (square_row n Qm p Hsq); lia).
  cbn [bind].
  rewrite (getitem_nth 0 P) by lia. reflexivity.
Qed.

Lemma coupling_symmetric (n : nat) (Qm : Matrix) (p : nat) :
  square n Qm -> symmetric Qm -> (p < n)%nat ->
  veq (del p (nth p Qm [])) (coupling Qm p).
Proof.
  intros Hsq Hsym Hp. pose proof Hsq as [HlenQ Hrows].
  unfold coupling. apply veq_nth.
  - rewrite length_map, !length_del; rewrite ?(square_row n Qm p Hsq); lia.
  - intros k Hk.
    rewrite length_del, (square_row n Qm p Hsq) in Hk by (rewrite ?(square_row n Qm p Hsq); lia).
    rewrite nth_del.
    assert (Hcol : forall i, (i < n)%nat ->
              nth i (map (fun row : list Q => nth p row 0) Qm) 0 = entry Qm i p).
    { intros i Hi. unfold entry.
      rewrite (nth_indep _ 0 (nth p [] 0)) by (rewrite length_map; lia).
      apply (map_nth (fun row : list Q => nth p row 0)). }
    rewrite <- del_map, nth_del.
    destruct (k <? p)%nat; rewrite Hcol by lia; apply (Hsym p).
Qed.

(** The quadratic form splits along the inserted coordinate. *)
Lemma quad_insert_at (n : nat) (Qm : Matrix) (p : nat) (v : Q) (y : Vec) :
  square n Qm -> symmetric Qm -> (p < n)%nat -> n = S (length y) ->
  quad Qm (insert_at p v y) ==
    quad (reduced_Q Qm p) y + 2 * v * dot (coupling Qm p) y + v * v * entry Qm p p.
Proof.
  intros Hsq Hsym Hp Hn. pose proof Hsq as [HlenQ Hrows].
  set (x := insert_at p v y).
  set (f := fun row : list Q => dot (del p row) y).
  set (g := fun row : list Q => nth p row 0).
  assert (Hmv : veq (matvec Qm x) (map (fun row => f row + g row * v) Qm)).
  { unfold matvec. clear HlenQ Hsq Hsym. induction Hrows as [|row rows Hrow _ IH]; simpl.
    - constructor.
    - constructor; [|exact IH].
      apply dot_insert_at; lia. }
  unfold quad. rewrite dot_comm, (dot_veq _ _ _ Hmv).
  unfold x. rewrite dot_insert_at by (rewrite ?length_map; lia).
  rewrite del_map, dot_map_plus, dot_map_scale.
  assert (Hp' : nth p (map (fun row => f row + g row * v) Qm) 0
                == f (nth p Qm []) + g (nth p Qm []) * v).
  { rewrite (nth_indep _ 0 (f [] + g [] * v)) by (rewrite length_map; lia).
    rewrite (map_nth (fun row => f row + g row * v)). reflexivity. }
  rewrite Hp'. unfold f at 2, g at 2.
  rewrite (dot_veq _ _ _ (coupling_symmetric n Qm p Hsq Hsym Hp)).
  assert (HQ0 : dot (map f (del p Qm)) y == quad (reduced_Q Qm p) y).
  { unfold quad, reduced_Q, matvec. rewrite map_map, dot_comm. reflexivity. }
  rewrite HQ0. change (map g (del p Qm)) with (coupling Qm p).
  fold (entry Qm p p). fold (quad (reduced_Q Qm p) y). ring.
Qed.

(** C1.  Reduction correctness: for a symmetric n x n matrix, a vector of
    length n, a pivot p < n and a value v in {0,1}, the expansion step succeeds
    and returns Q0 (row and column p removed), P0 (entry p removed, plus 2 v
    times the coupling column) and R0 = v Q[p,p] + v P[p] + R; for every
    assignment y of the other n-1 variables, R0 + y'Q0y + P0'y equals the
    original objective at y with v inserted at position p. *)
Theorem reduction_correct (n : nat) (Qm : Matrix) (P : Vec) (R : Q) (p : nat) (v : Q) :
  square n Qm -> symmetric Qm -> length P = n -> (p < n)%nat ->
  v == 0 \/ v == 1 ->
  exists Q0 P0 R0,
    reduce Qm P R p v = Ok (Q0, P0, R0) /\
    Q0 = map (del p) (del p Qm) /\
    P0 = zip_add (del p P) (scale (2 * v) (map (fun row => nth p row 0) (del p Qm))) /\
    R0 = v * entry Qm p p + v * nth p P 0 + R /\
    forall y : Vec, length y = pred n ->
      R0 + quad Q0 y + dot P0 y == objective Qm P R (insert_at p v y).
Proof.
  intros Hsq Hsym HP Hp Hv. pose proof Hsq as [HlenQ Hrows].
  exists (reduced_Q Qm p), (reduced_P Qm P p v), (reduced_R Qm P R p v).
  split; [now apply reduce_closed_form with (n := n)|].
  repeat (split; [reflexivity|]).
  intros y Hy. unfold objective.
  rewrite (quad_insert_at n) by (trivial; lia).
  rewrite (dot_insert_at v p P y) by lia.
  unfold reduced_P, reduced_R.
  rewrite dot_zip_add, dot_scale; cycle 1.
  { unfold scale, coupling. rewrite !length_map, !length_del by lia. lia. }
  assert (Hvv : v * v == v) by (destruct Hv as [-> | ->]; ring).
  rewrite Hvv. ring.
Qed.

Lemma reduction_correct_witness :
  exists Q0 P0 R0,
    reduce [[1; 2]; [2; 3]] [4; 5] 6 1%nat 1 = Ok (Q0, P0, R0) /\
    Q0 = map (del 1) (del 1 [[1; 2]; [2; 3]]) /\
    P0 = zip_add (del 1 [4; 5])
           (scale (2 * 1) (map (fun row => nth 1 row 0) (del 1 [[1; 2]; [2; 3]]))) /\
    R0 = 1 * entry [[1; 2]; [2; 3]] 1 1 + 1 * nth 1 [4; 5] 0 + 6 /\
    forall y : Vec, length y = pred 2 ->
      R0 + quad Q0 y + dot P0 y == objective [[1; 2]; [2; 3]] [4; 5] 6 (insert_at 1 1 y).
Proof.
  apply (reduction_correct 2 [[1; 2]; [2; 3]] [4; 5] 6 1%nat 1).
  - split; [reflexivity | repeat constructor].
  - intros [|[|[|i]]] [|[|[|j]]]; unfold entry; simpl; try reflexivity;
      destruct i; try destruct j; reflexivity.
  - reflexivity.
  - lia.
  - right. reflexivity.
Defined.

(** ** Single steps of the loop *)

Lemma setitem_put {A : Type} (a : list A) :
  forall i v, (i < length a)%nat -> setitem a i v = Ok (put i v a).
Proof.
  induction a as [|h tl IH]; intros [|j] v Hlt; simpl in *; try lia; trivial.
  rewrite IH by lia. reflexivity.
Qed.

Lemma setitem_inv {A : Type} (a : list A) :
  forall i v a', setitem a i v = Ok a' -> (i < length a)%nat /\ a' = put i v a.
Proof.
  induction a as [|h tl IH]; intros [|j] v a' H; simpl in *; try discriminate.
  - inversion H. split; [lia | reflexivity].
  - destruct (setitem tl j v) as [t'|] eqn:E; simpl in H; try discriminate.
    inversion H. destruct (IH _ _ _ E) as [Hlt ->]. split; [lia | reflexivity].
Qed.

Lemma length_put {A : Type} (a : list A) :
  forall i v, length (put i v a) = length a.
Proof.
  induction a as [|h tl IH]; intros [|j] v; simpl; trivial.
  now rewrite IH.
Qed.

Lemma child_data_expandable (nd : Node) (pidx : nat) (val : Q) :
  expandable nd pidx ->
  child_data nd pidx val =
    Ok (del (nd_pivot nd) (nd_idxmap nd), put pidx val (nd_curr nd),
        (reduced_Q (nd_Q nd) (nd_pivot nd),
         reduced_P (nd_Q nd) (nd_P nd) (nd_pivot nd) val,
         reduced_R (nd_Q nd) (nd_P nd) (nd_R nd) (nd_pivot nd) val)).
Proof.
  intros (Hlen & Hsq & Hpiv & Hpidx).
  assert (Hp : (nd_pivot nd < length (nd_idxmap nd))%nat).
  { apply nth_error_Some. congruence. }
  unfold child_data.
  rewrite delete_del by exact Hp. cbn [bind].
  rewrite setitem_put by exact Hpidx. cbn [bind].
  rewrite (reduce_closed_form (length (nd_P nd))) by (trivial; lia).
  reflexivity.
Qed.

Section Steps.

Variable sdp : Matrix -> Vec -> Q -> option (Q * Vec).
Variable unsolved : BB -> Matrix -> Vec -> Q -> Vec -> list nat -> result (Q * nat).
Variable t : TermTest.

(** C6, as amended.  Terminal-node guard: a popped node whose [P] has length
    at most one is never expanded, but the loop goes on to the next pop only
    when the termination test of lines 71-73, which comes before the guard of
    line 77, fails.  When the test holds the pass returns with the queue
    emptied; otherwise it ends right after [stats] with the queue as the pop
    left it.  In both cases no relaxation is solved, nothing is pushed, and
    [idxmap[pivot]] is never evaluated: the outcome depends neither on the
    solver nor on the node's index map or pivot, and no exception is raised
    whatever these are. *)
Theorem terminal_node_guard (nd : Node) (rest : list Node) (s : BB) :
  (length (nd_P nd) <= 1)%nat ->
  let s1 := set_lb (set_active s rest) (nd_obj nd) in
  body sdp unsolved t nd rest s =
    (if optimality_proved t s1 then (set_active s1 [], Return)
     else (stats s1, Continue)) /\
  (forall s' sig, body sdp unsolved t nd rest s = (s', sig) ->
     (sig = Return \/ sig = Continue) /\
     (sig = Continue -> active s' = rest) /\
     (forall ev, In ev (trace s') -> In ev (trace s) \/
        ev = EvStats (relSolved s) (length rest) (nd_obj nd) (ub s)) /\
     ub s' = ub s /\ incumbent s' = incumbent s /\ relSolved s' = relSolved s) /\
  (forall sdp' unsolved' idxmap' pivot',
     body sdp' unsolved' t (mkNode (nd_obj nd) (nd_seq nd) (nd_Q nd) (nd_P nd) (nd_R nd)
                         (nd_curr nd) idxmap' pivot') rest s
     = body sdp unsolved t nd rest s).
Proof.
  intros Hlen s1.
  assert (Hbody : forall sdp' unsolved' nd', nd_obj nd' = nd_obj nd -> nd_P nd' = nd_P nd ->
            body sdp' unsolved' t nd' rest s =
              (if optimality_proved t s1 then (set_active s1 [], Return)
               else (stats s1, Continue))).
  { intros sdp' unsolved' nd' Hobj HP. unfold body. rewrite Hobj, HP. fold s1.
    destruct (optimality_proved t s1); [reflexivity|].
    apply Nat.leb_le in Hlen. rewrite Hlen. reflexivity. }
  split; [apply Hbody; reflexivity|]. split.
  - intros s' sig. rewrite (Hbody sdp unsolved nd eq_refl eq_refl).
    destruct (optimality_proved t s1); intros H; inversion H; subst; simpl.
    + repeat split; auto; discriminate.
    + repeat split; auto. intros ev Hev.
      apply in_app_or in Hev. destruct Hev as [Hev | [Hev | []]]; auto.
  - intros sdp' unsolved' idxmap' pivot'.
    rewrite (Hbody sdp unsolved nd eq_refl eq_refl). apply Hbody; reflexivity.
Qed.

End Steps.

Lemma terminal_node_guard_witness :
  let sdp := fun (_ : Matrix) (_ : Vec) (_ : Q) => @None (Q * Vec) in
  let nd := mkNode (-1) 2 [[0]] [-1] 0 [0; 0] [1%nat] 0%nat in
  let s := mkBB [] (-2) 0 (1 # 1000000) 3 [[0; 0]; [0; 0]] [3; -1] 0 [0; 0] [] in
  (length (nd_P nd) <= 1)%nat /\
  body sdp Example.unsolved_raises GapTest nd [] s = (stats (set_lb (set_active s []) (-1)), Continue).
Proof.
  intros sdp nd s.
  assert (H : (length (nd_P nd) <= 1)%nat) by (simpl; lia).
  split; [exact H|].
  exact (proj1 (terminal_node_guard sdp Example.unsolved_raises GapTest nd [] s H)).
Defined.

(** C6, a pass against the claim as stated.  After the root of the example is
    expanded with a tight value for the child with x1 = 0, that child is
    popped: its [P] has one entry, its objective -1 meets the incumbent, and
    the termination test ends the loop there.  The queue is emptied and the
    sibling is never popped: the loop does not continue with the next pop. *)
Lemma terminal_node_ends_search :
  let sdp := Example.sdp (-1) in
  let s := fst (body sdp Example.unsolved_raises GapTest (Example.root (-2)) []
                     (Example.start (-2))) in
  let nd := Example.child0 (-1) in
  let s' := set_active (set_lb (set_active s [Example.child1]) (-1)) [] in
  heapq.heappop (active s) = Some (nd, [Example.child1]) /\
  (length (nd_P nd) <= 1)%nat /\
  body sdp Example.unsolved_raises GapTest nd [Example.child1] s = (s', Return) /\
  active s' = [] /\
  solveBB sdp Example.unsolved_raises GapTest 5 s = Proved s'.
Proof.
  intros sdp s nd s'.
  split; [vm_compute; reflexivity|].
  split; [simpl; lia|].
  split; [vm_compute; reflexivity|].
  split; [reflexivity|].
  vm_compute; reflexivity.
Qed.

(** ** What a relaxation solve and an expansion change *)

Section Frames.

Variable sdp : Matrix -> Vec -> Q -> option (Q * Vec).
Variable unsolved : BB -> Matrix -> Vec -> Q -> Vec -> list nat -> result (Q * nat).

Lemma updateBest_frame (s : BB) (x : Vec) :
  same_frame s (updateBest s x) /\
  relSolved (updateBest s x) = relSolved s /\
  trace (updateBest s x) = trace s.
Proof.
  unfold updateBest, same_frame.
  destruct (negb _); simpl; repeat split; reflexivity.
Qed.

Lemma solveRelaxation_solved (s : BB) (Q0 : Matrix) (P0 : Vec) (R0 : Q)
    (curr0 : Vec) (idxmap0 : list nat) (o : Q) (x : Vec) :
  sdp Q0 P0 R0 = Some (o, x) ->
  exists s1,
    solveRelaxation sdp unsolved s Q0 P0 R0 curr0 idxmap0 = (s1, Ok (o, argmin_half x)) /\
    same_frame s s1 /\
    relSolved s1 = S (relSolved s) /\
    trace s1 = trace s ++ [EvSolve Q0 P0 R0].
Proof.
  intros Hs. unfold solveRelaxation. rewrite Hs.
  eexists. split; [reflexivity|].
  match goal with |- context [updateBest ?a ?b] =>
    destruct (updateBest_frame a b) as ((Ha & Hl & Hg & HQ & HP & HR) & Hrel & Htr)
  end.
  unfold same_frame.
  rewrite Ha, Hl, Hg, HQ, HP, HR, Hrel, Htr. simpl. repeat split; reflexivity.
Qed.

Lemma solveRelaxation_unsolved (s : BB) (Q0 : Matrix) (P0 : Vec) (R0 : Q)
    (curr0 : Vec) (idxmap0 : list nat) :
  sdp Q0 P0 R0 = None ->
  solveRelaxation sdp unsolved s Q0 P0 R0 curr0 idxmap0 =
    (emit s (EvSolve Q0 P0 R0), unsolved s Q0 P0 R0 curr0 idxmap0).
Proof.
  intros Hs. unfold solveRelaxation. rewrite Hs. reflexivity.
Qed.

Lemma expand_child_solved (nd : Node) (pidx : nat) (val : Q) (s : BB) (o : Q) (x : Vec) :
  expandable nd pidx ->
  sdp (reduced_Q (nd_Q nd) (nd_pivot nd))
      (reduced_P (nd_Q nd) (nd_P nd) (nd_pivot nd) val)
      (reduced_R (nd_Q nd) (nd_P nd) (nd_R nd) (nd_pivot nd) val) = Some (o, x) ->
  let c := child_of nd pidx val (S (relSolved s)) o (argmin_half x) in
  exists s',
    expand_child sdp unsolved nd pidx val s = (s', Ok tt) /\
    active s' = c :: active s /\
    lb s' = lb s /\ gaptol s' = gaptol s /\
    relSolved s' = S (relSolved s) /\
    trace s' = trace s ++ [EvSolve (nd_Q c) (nd_P c) (nd_R c); EvPush c].
Proof.
  intros Hex Hs c. unfold expand_child.
  rewrite (child_data_expandable nd pidx val Hex).
  destruct (solveRelaxation_solved s _ _ _ (put pidx val (nd_curr nd))
              (del (nd_pivot nd) (nd_idxmap nd)) o x Hs)
    as (s1 & Hsolve & (Ha & Hl & Hg & _) & Hrel & Htr).
  rewrite Hsolve. eexists. split; [reflexivity|].
  unfold push, heapq.heappush. simpl.
  rewrite Ha, Hl, Hg, Hrel, Htr, <- app_assoc. simpl.
  repeat split; reflexivity.
Qed.

Variable t : TermTest.

(** C7.  Expansion cardinality and oracle boundary: a popped node that passes
    the termination test, has at least two free variables and is well shaped
    is expanded into exactly two children, the first for the value 0 and the
    second for the value 1 of its branch variable.  Each child's relaxation is
    solved exactly once, on that child's reduced data, immediately before the
    child is pushed; nothing else is solved or pushed. *)
Theorem expansion_two_children (nd : Node) (rest : list Node) (s : BB) (pidx : nat)
    (o0 o1 : Q) (x0 x1 : Vec) :
  let s1 := set_lb (set_active s rest) (nd_obj nd) in
  let Q0 := reduced_Q (nd_Q nd) (nd_pivot nd) in
  let P0 := reduced_P (nd_Q nd) (nd_P nd) (nd_pivot nd) in
  let R0 := reduced_R (nd_Q nd) (nd_P nd) (nd_R nd) (nd_pivot nd) in
  optimality_proved t s1 = false ->
  (2 <= length (nd_P nd))%nat ->
  expandable nd pidx ->
  sdp Q0 (P0 0) (R0 0) = Some (o0, x0) ->
  sdp Q0 (P0 1) (R0 1) = Some (o1, x1) ->
  let c0 := child_of nd pidx 0 (S (relSolved s)) o0 (argmin_half x0) in
  let c1 := child_of nd pidx 1 (S (S (relSolved s))) o1 (argmin_half x1) in
  exists s',
    body sdp unsolved t nd rest s = (s', Continue) /\
    active s' = c1 :: c0 :: rest /\
    trace s' = trace s ++
      [EvStats (relSolved s) (length rest) (nd_obj nd) (ub s);
       EvSolve (nd_Q c0) (nd_P c0) (nd_R c0); EvPush c0;
       EvSolve (nd_Q c1) (nd_P c1) (nd_R c1); EvPush c1] /\
    relSolved s' = S (S (relSolved s)).
Proof.
  intros s1 Q0 P0 R0 Hopt Hdim Hex Hs0 Hs1 c0 c1.
  unfold body. fold s1. rewrite Hopt.
  replace (length (nd_P nd) <=? 1)%nat with false
    by (symmetry; apply Nat.leb_gt; lia).
  pose proof Hex as (Hlen & Hsq & Hpiv & Hpidx).
  unfold getitem. rewrite Hpiv. cbn [of_option for_vals].
  destruct (expand_child_solved nd pidx 0 (stats s1) o0 x0 Hex Hs0)
    as (sa & Ea & Aa & La & Ga & Ra & Ta).
  rewrite Ea.
  destruct (expand_child_solved nd pidx 1 sa o1 x1 Hex Hs1)
    as (sb & Eb & Ab & Lb & Gb & Rb & Tb).
  rewrite Eb. exists sb. split; [reflexivity|].
  rewrite Ab, Aa, Tb, Ta, Rb, Ra. simpl.
  rewrite <- !app_assoc. simpl. repeat split; reflexivity.
Qed.

End Frames.

(** ** The queue *)


Lemma heappop_perm (h : list Node) :
  forall m rest, heapq.heappop h = Some (m, rest) -> Permutation h (m :: rest).
Proof.
  induction h as [|x tl IH]; intros m rest H; simpl in H; [discriminate|].
  destruct (heapq.heappop tl) as [[m' rest']|] eqn:E.
  - destruct (heapq.precedes x m'); inversion H; subst.
    + apply Permutation_refl.
    + rewrite (IH _ _ eq_refl). apply perm_swap.
  - destruct tl as [|y tl']; [|simpl in E; destruct (heapq.heappop tl') as [[? ?]|];
      [destruct (heapq.precedes y n)|]; discriminate].
    inversion H; subst. apply Permutation_refl.
Qed.

Lemma heappop_none (h : list Node) : heapq.heappop h = None -> h = [].
Proof.
  destruct h as [|x tl]; trivial. simpl.
  destruct (heapq.heappop tl) as [[m rest]|]; [destruct (heapq.precedes x m)|];
    discriminate.
Qed.

(** ** The shape of the nodes in the queue *)

Lemma NoDup_del {A : Type} (a : list A) :
  forall i, NoDup a -> NoDup (del i a).
Proof.
  induction a as [|h tl IH]; intros i H; simpl; trivial.
  inversion H; subst. destruct i as [|j]; trivial.
  constructor; [|auto]. intros Hin. apply In_del in Hin. contradiction.
Qed.

Lemma length_zip_add (a : Vec) :
  forall b, length (zip_add a b) = Nat.min (length a) (length b).
Proof.
  induction a as [|x a IH]; intros [|y b]; simpl; trivial.
  now rewrite IH.
Qed.

Lemma length_coupling (n : nat) (Qm : Matrix) (p : nat) :
  length Qm = n -> (p < n)%nat -> length (coupling Qm p) = pred n.
Proof.
  intros Hlen Hp. unfold coupling. rewrite length_map, length_del; lia.
Qed.

Lemma length_reduced_P (n : nat) (Qm : Matrix) (P : Vec) (p : nat) (v : Q) :
  length Qm = n -> length P = n -> (p < n)%nat ->
  length (reduced_P Qm P p v) = pred n.
Proof.
  intros HQ HP Hp. unfold reduced_P, scale.
  rewrite length_zip_add, length_map, (length_coupling n Qm p HQ Hp), length_del; lia.
Qed.

Lemma square_reduced_Q (n : nat) (Qm : Matrix) (p : nat) :
  square n Qm -> (p < n)%nat -> square (pred n) (reduced_Q Qm p).
Proof.
  intros [Hlen Hrows] Hp. unfold reduced_Q. split.
  - rewrite length_map, length_del; lia.
  - apply Forall_map, Forall_del.
    eapply Forall_impl; [|exact Hrows].
    intros row Hrow. cbv beta in Hrow. rewrite length_del; lia.
Qed.

(** What a successful [child_data] returns on a well-shaped node. *)
Lemma child_data_inv (n : nat) (nd : Node) (pidx : nat) (val : Q)
    (idxmap0 : list nat) (curr0 : Vec) (Q0 : Matrix) (P0 : Vec) (R0 : Q) :
  idx_ok n nd ->
  child_data nd pidx val = Ok (idxmap0, curr0, (Q0, P0, R0)) ->
  (nd_pivot nd < length (nd_P nd))%nat /\
  (pidx < length (nd_curr nd))%nat /\
  idxmap0 = del (nd_pivot nd) (nd_idxmap nd) /\
  curr0 = put pidx val (nd_curr nd) /\
  Q0 = reduced_Q (nd_Q nd) (nd_pivot nd) /\
  P0 = reduced_P (nd_Q nd) (nd_P nd) (nd_pivot nd) val /\
  R0 = reduced_R (nd_Q nd) (nd_P nd) (nd_R nd) (nd_pivot nd) val.
Proof.
  intros (Hlen & Hsq & Hnd & Hbd) H. unfold child_data in H.
  destruct (delete (nd_pivot nd) (nd_idxmap nd)) as [i0|] eqn:Ed;
    cbn [bind] in H; [|discriminate].
  destruct (setitem (nd_curr nd) pidx val) as [c0|] eqn:Es;
    cbn [bind] in H; [|discriminate].
  apply delete_inv in Ed. destruct Ed as [Hp ->].
  apply setitem_inv in Es. destruct Es as [Hpidx ->].
  rewrite (reduce_closed_form (length (nd_P nd))) in H by (trivial; lia).
  cbn [bind] in H. inversion H; subst.
  repeat split; trivial; lia.
Qed.

Lemma idx_ok_child (n : nat) (nd : Node) (pidx : nat) (val : Q)
    (seq : nat) (o : Q) (pivot0 : nat) :
  idx_ok n nd -> (nd_pivot nd < length (nd_P nd))%nat ->
  idx_ok n (child_of nd pidx val seq o pivot0).
Proof.
  intros (Hlen & Hsq & Hnd & Hbd) Hp. pose proof Hsq as [HlenQ _].
  unfold idx_ok, child_of; simpl.
  rewrite (length_reduced_P (length (nd_P nd))) by (trivial; lia).
  split; [|split; [|split]].
  - rewrite length_del; lia.
  - apply (square_reduced_Q _ _ _ Hsq Hp).
  - apply NoDup_del, Hnd.
  - apply Forall_del, Hbd.
Qed.

Section Shapes.

Variable sdp : Matrix -> Vec -> Q -> option (Q * Vec).
Variable unsolved : BB -> Matrix -> Vec -> Q -> Vec -> list nat -> result (Q * nat).
Variable t : TermTest.

Lemma solveRelaxation_frame (s : BB) (Q0 : Matrix) (P0 : Vec) (R0 : Q)
    (curr0 : Vec) (idxmap0 : list nat) :
  same_frame s (fst (solveRelaxation sdp unsolved s Q0 P0 R0 curr0 idxmap0)).
Proof.
  unfold solveRelaxation.
  destruct (sdp Q0 P0 R0) as [[o x]|]; simpl.
  - match goal with |- context [updateBest ?a ?b] =>
      destruct (updateBest_frame a b) as ((Ha & Hl & Hg & HQ & HP & HR) & _)
    end.
    unfold same_frame. rewrite Ha, Hl, Hg, HQ, HP, HR. simpl.
    repeat split; reflexivity.
  - repeat split; reflexivity.
Qed.

(** An expansion pass adds at most the child for [val] to the queue. *)
Lemma expand_child_active (nd : Node) (pidx : nat) (val : Q) (s : BB) :
  forall s' r, expand_child sdp unsolved nd pidx val s = (s', r) ->
  active s' = active s \/
  exists idxmap0 curr0 Q0 P0 R0 o pivot0,
    child_data nd pidx val = Ok (idxmap0, curr0, (Q0, P0, R0)) /\
    r = Ok tt /\
    active s' = mkNode o (relSolved s') Q0 P0 R0 curr0 idxmap0 pivot0 :: active s.
Proof.
  intros s' r H. unfold expand_child in H.
  destruct (child_data nd pidx val) as [[[i0 c0] [[Q0 P0] R0]]|e] eqn:Ec.
  - pose proof (solveRelaxation_frame s Q0 P0 R0 c0 i0) as (Ha & _).
    destruct (solveRelaxation sdp unsolved s Q0 P0 R0 c0 i0) as [s1 [[o pv]|e]];
      simpl in Ha; inversion H; subst; clear H.
    + right. exists i0, c0, Q0, P0, R0, o, pv.
      simpl. rewrite Ha. repeat split; reflexivity.
    + left. exact Ha.
  - inversion H; subst. left. reflexivity.
Qed.

Lemma expand_child_idx_ok (n : nat) (nd : Node) (pidx : nat) (val : Q) (s : BB) :
  idx_ok n nd -> Forall (idx_ok n) (active s) ->
  forall s' r, expand_child sdp unsolved nd pidx val s = (s', r) ->
  Forall (idx_ok n) (active s').
Proof.
  intros Hnd Hall s' r H.
  destruct (expand_child_active _ _ _ _ _ _ H)
    as [-> | (i0 & c0 & Q0 & P0 & R0 & o & pv & Hc & _ & ->)]; trivial.
  constructor; trivial.
  destruct (child_data_inv _ _ _ _ _ _ _ _ _ Hnd Hc) as (Hp & _ & -> & -> & -> & -> & ->).
  apply (idx_ok_child n nd pidx val (relSolved s') o pv Hnd Hp).
Qed.

Lemma for_vals_idx_ok (n : nat) (nd : Node) (pidx : nat) (vals : list Q) :
  idx_ok n nd ->
  forall s, Forall (idx_ok n) (active s) ->
  forall s' r, for_vals sdp unsolved vals nd pidx s = (s', r) ->
  Forall (idx_ok n) (active s').
Proof.
  intros Hnd. induction vals as [|v vals IH]; intros s Hall s' r H; simpl in H.
  - inversion H; subst. exact Hall.
  - destruct (expand_child sdp unsolved nd pidx v s) as [s1 [[]|e]] eqn:E.
    + eapply IH; [|exact H]. eapply expand_child_idx_ok; eauto.
    + inversion H; subst. eapply expand_child_idx_ok; eauto.
Qed.

Lemma body_idx_ok (n : nat) (nd : Node) (rest : list Node) (s : BB) :
  idx_ok n nd -> Forall (idx_ok n) rest ->
  forall s' sig, body sdp unsolved t nd rest s = (s', sig) ->
  Forall (idx_ok n) (active s').
Proof.
  intros Hnd Hrest s' sig H. unfold body in H.
  destruct (optimality_proved t _); [inversion H; subst; constructor|].
  destruct (length (nd_P nd) <=? 1)%nat; [inversion H; subst; exact Hrest|].
  destruct (getitem (nd_idxmap nd) (nd_pivot nd)) as [pidx|e];
    [|inversion H; subst; exact Hrest].
  destruct (for_vals sdp unsolved [0; 1] nd pidx _) as [s3 r] eqn:E.
  assert (Forall (idx_ok n) (active s3))
    by (eapply for_vals_idx_ok; [exact Hnd | | exact E]; exact Hrest).
  destruct r; inversion H; subst; assumption.
Qed.

Lemma iteration_idx_ok (n : nat) (s s' : BB) (sig : signal) :
  Forall (idx_ok n) (active s) -> iteration sdp unsolved t s s' sig ->
  Forall (idx_ok n) (active s').
Proof.
  intros Hall (nd & rest & Hpop & Hbody).
  apply heappop_perm in Hpop.
  pose proof (Permutation_Forall Hpop Hall) as Hall'.
  inversion Hall'; subst.
  eapply body_idx_ok; eauto.
Qed.

(** C8.  The index-map invariant: if the nodes queued at the start have an
    index map as long as their reduced dimension (the length of P and the
    order of Q) that lists pairwise distinct indices below n, so has every node
    found in the queue at any later point of the run; and an expansion builds
    the child by deleting the pivot position from the parent's map, the
    pivot row and column from Q and the pivot entry from P. *)
Theorem index_map_invariant (n : nat) (s s' : BB) :
  Forall (idx_ok n) (active s) ->
  visits sdp unsolved t s s' ->
  Forall (idx_ok n) (active s') /\
  (forall nd pidx val idxmap0 curr0 Q0 P0 R0,
     In nd (active s') ->
     child_data nd pidx val = Ok (idxmap0, curr0, (Q0, P0, R0)) ->
     idxmap0 = del (nd_pivot nd) (nd_idxmap nd) /\
     Q0 = map (del (nd_pivot nd)) (del (nd_pivot nd) (nd_Q nd)) /\
     length P0 = pred (length (nd_P nd)) /\
     length idxmap0 = length P0 /\
     square (length P0) Q0 /\
     NoDup idxmap0 /\ Forall (fun i => (i < n)%nat) idxmap0).
Proof.
  intros Hall Hrun.
  assert (Hinv : Forall (idx_ok n) (active s')).
  { induction Hrun as [s | s s' sig Hit | s s1 s' Hit _ IH].
    - exact Hall.
    - eapply iteration_idx_ok; eauto.
    - apply IH. eapply iteration_idx_ok; eauto. }
  split; [exact Hinv|].
  intros nd pidx val i0 c0 Q0 P0 R0 Hin Hc.
  rewrite Forall_forall in Hinv. pose proof (Hinv _ Hin) as Hnd.
  destruct (child_data_inv _ _ _ _ _ _ _ _ _ Hnd Hc) as (Hp & _ & -> & -> & -> & -> & ->).
  pose proof (idx_ok_child n nd pidx val O 0 O Hnd Hp) as (H1 & H2 & H3 & H4).
  simpl in H1, H2, H3, H4.
  destruct Hnd as (Hlen & [HlenQ _] & _).
  rewrite (length_reduced_P (length (nd_P nd))) in * by (trivial; lia).
  repeat split; trivial; apply H2.
Qed.

End Shapes.

(** ** The least node is popped *)

Lemma precedes_true (a b : Node) :
  heapq.precedes a b = true -> nd_obj a <= nd_obj b.
Proof.
  unfold heapq.precedes. intros H. apply orb_true_iff in H. destruct H as [H|H].
  - apply negb_true_iff in H.
    destruct (Qlt_le_dec (nd_obj a) (nd_obj b)) as [Hlt|Hle]; [lra|].
    apply Qle_bool_iff in Hle. congruence.
  - apply andb_true_iff in H. destruct H as [H _].
    apply Qeq_bool_iff in H. lra.
Qed.

Lemma precedes_false (a b : Node) :
  heapq.precedes a b = false -> nd_obj b <= nd_obj a.
Proof.
  unfold heapq.precedes. intros H. apply orb_false_iff in H. destruct H as [H _].
  apply negb_false_iff in H. now apply Qle_bool_iff in H.
Qed.

Lemma heappop_least (h : list Node) :
  forall m rest, heapq.heappop h = Some (m, rest) ->
  Forall (fun x => nd_obj m <= nd_obj x) rest.
Proof.
  induction h as [|x tl IH]; intros m rest H; simpl in H; [discriminate|].
  destruct (heapq.heappop tl) as [[m' rest']|] eqn:E.
  - pose proof (IH _ _ eq_refl) as Hmin.
    destruct (heapq.precedes x m') eqn:Ep; inversion H; subst.
    + apply precedes_true in Ep.
      apply (Permutation_Forall (Permutation_sym (heappop_perm _ _ _ E))).
      constructor; [exact Ep|].
      eapply Forall_impl; [|exact Hmin]. intros y Hy. cbv beta in Hy. lra.
    + apply precedes_false in Ep. constructor; assumption.
  - inversion H; subst. constructor.
Qed.

(** ** What the loop body leaves alone *)

Section BodyFrames.

Variable sdp : Matrix -> Vec -> Q -> option (Q * Vec).
Variable unsolved : BB -> Matrix -> Vec -> Q -> Vec -> list nat -> result (Q * nat).

Lemma updateBest_ub (s : BB) (x : Vec) : ub (updateBest s x) <= ub s.
Proof.
  unfold updateBest.
  destruct (Qle_bool (ub s) _) eqn:E; simpl; [lra|].
  destruct (Qlt_le_dec (objective (problem_Q s) (problem_P s) (problem_R s) x) (ub s))
    as [Hlt|Hle]; [lra|].
  apply Qle_bool_iff in Hle. congruence.
Qed.

Lemma solveRelaxation_ub (s : BB) (Q0 : Matrix) (P0 : Vec) (R0 : Q)
    (curr0 : Vec) (idxmap0 : list nat) :
  ub (fst (solveRelaxation sdp unsolved s Q0 P0 R0 curr0 idxmap0)) <= ub s.
Proof.
  unfold solveRelaxation.
  destruct (sdp Q0 P0 R0) as [[o x]|]; simpl; [|lra].
  match goal with |- context [updateBest ?a ?b] =>
    pose proof (updateBest_ub a b) as H end.
  simpl in H. exact H.
Qed.

Lemma kept_refl (s : BB) : kept s s.
Proof. unfold kept. repeat split; try reflexivity. lra. Qed.

Lemma kept_trans (s s1 s2 : BB) : kept s s1 -> kept s1 s2 -> kept s s2.
Proof.
  unfold kept. intros (A1 & B1 & C1 & D1 & E1 & F1) (A2 & B2 & C2 & D2 & E2 & F2).
  repeat split; try congruence. lra.
Qed.

Lemma expand_child_kept (nd : Node) (pidx : nat) (val : Q) (s : BB) :
  forall s' r, expand_child sdp unsolved nd pidx val s = (s', r) -> kept s s'.
Proof.
  intros s' r H. unfold expand_child in H.
  destruct (child_data nd pidx val) as [[[i0 c0] [[Q0 P0] R0]]|e].
  - pose proof (solveRelaxation_frame sdp unsolved s Q0 P0 R0 c0 i0) as (_ & Hl & Hg & HQ & HP & HR).
    pose proof (solveRelaxation_ub s Q0 P0 R0 c0 i0) as Hub.
    destruct (solveRelaxation sdp unsolved s Q0 P0 R0 c0 i0) as [s1 [[o pv]|e]];
      simpl in *; inversion H; subst; unfold kept; simpl; repeat split; assumption.
  - inversion H; subst. apply kept_refl.
Qed.

Lemma for_vals_kept (nd : Node) (pidx : nat) (vals : list Q) :
  forall s s' r, for_vals sdp unsolved vals nd pidx s = (s', r) -> kept s s'.
Proof.
  induction vals as [|v vals IH]; intros s s' r H; simpl in H.
  - inversion H; subst. apply kept_refl.
  - destruct (expand_child sdp unsolved nd pidx v s) as [s1 [[]|e]] eqn:E.
    + eapply kept_trans; [eapply expand_child_kept; exact E | eapply IH; exact H].
    + inversion H; subst. eapply expand_child_kept; exact E.
Qed.

Lemma body_kept (t : TermTest) (nd : Node) (rest : list Node) (s : BB) :
  forall s' sig, body sdp unsolved t nd rest s = (s', sig) ->
  kept (set_lb s (nd_obj nd)) s'.
Proof.
  intros s' sig H. unfold body in H.
  destruct (optimality_proved t _);
    [inversion H; subst; unfold kept; simpl; repeat split; try reflexivity; lra|].
  destruct (length (nd_P nd) <=? 1)%nat;
    [inversion H; subst; unfold kept; simpl; repeat split; try reflexivity; lra|].
  destruct (getitem (nd_idxmap nd) (nd_pivot nd)) as [pidx|e];
    [|inversion H; subst; unfold kept; simpl; repeat split; try reflexivity; lra].
  destruct (for_vals sdp unsolved [0; 1] nd pidx _) as [s3 r] eqn:E.
  apply for_vals_kept in E.
  assert (s3 = s') by (destruct r; inversion H; reflexivity). subst s3.
  destruct E as (A & B & C & D & F & G). simpl in *.
  unfold kept; simpl; repeat split; assumption.
Qed.

End BodyFrames.

(** ** The nodes an iteration leaves in the queue *)

Section Children.

Variable sdp : Matrix -> Vec -> Q -> option (Q * Vec).
Variable unsolved : BB -> Matrix -> Vec -> Q -> Vec -> list nat -> result (Q * nat).

Lemma child_data_reduce (nd : Node) (pidx : nat) (val : Q)
    (idxmap0 : list nat) (curr0 : Vec) (Q0 : Matrix) (P0 : Vec) (R0 : Q) :
  child_data nd pidx val = Ok (idxmap0, curr0, (Q0, P0, R0)) ->
  reduce (nd_Q nd) (nd_P nd) (nd_R nd) (nd_pivot nd) val = Ok (Q0, P0, R0).
Proof.
  unfold child_data. intros H.
  destruct (delete _ _); cbn [bind] in H; [|discriminate].
  destruct (setitem _ _ _); cbn [bind] in H; [|discriminate].
  destruct (reduce _ _ _ _ _) as [[[q0 p0] r0]|]; cbn [bind] in H; [|discriminate].
  inversion H; subst. reflexivity.
Qed.

Lemma solveRelaxation_inv (s s1 : BB) (Q0 : Matrix) (P0 : Vec) (R0 : Q)
    (curr0 : Vec) (idxmap0 : list nat) (o : Q) (pv : nat) :
  solveRelaxation sdp unsolved s Q0 P0 R0 curr0 idxmap0 = (s1, Ok (o, pv)) ->
  returned sdp unsolved Q0 P0 R0 o.
Proof.
  unfold solveRelaxation, returned.
  destruct (sdp Q0 P0 R0) as [[o' x]|]; intros H; inversion H; subst.
  - left. exists x. reflexivity.
  - right. split; [reflexivity|]. exists s, curr0, idxmap0, pv. assumption.
Qed.

(** A property of nodes that the rest of the queue has, and that every child
    built from the popped node has, holds of the whole queue afterwards. *)
Lemma body_active_Forall (F : Node -> Prop) (t : TermTest)
    (nd : Node) (rest : list Node) (s : BB) :
  Forall F rest ->
  (forall pidx val idxmap0 curr0 Q0 P0 R0 o pv seq,
     getitem (nd_idxmap nd) (nd_pivot nd) = Ok pidx ->
     In val [0; 1] ->
     child_data nd pidx val = Ok (idxmap0, curr0, (Q0, P0, R0)) ->
     returned sdp unsolved Q0 P0 R0 o ->
     F (mkNode o seq Q0 P0 R0 curr0 idxmap0 pv)) ->
  forall s' sig, body sdp unsolved t nd rest s = (s', sig) -> Forall F (active s').
Proof.
  intros Hrest Hchild s' sig H. unfold body in H.
  destruct (optimality_proved t _); [inversion H; subst; constructor|].
  destruct (length (nd_P nd) <=? 1)%nat; [inversion H; subst; exact Hrest|].
  destruct (getitem (nd_idxmap nd) (nd_pivot nd)) as [pidx|e] eqn:Eg;
    [|inversion H; subst; exact Hrest].
  assert (Hvals : forall vals s0 s3 r,
            incl vals [0; 1] -> Forall F (active s0) ->
            for_vals sdp unsolved vals nd pidx s0 = (s3, r) -> Forall F (active s3)).
  { induction vals as [|v vals IH]; intros s0 s3 r Hincl Hall E; simpl in E.
    - inversion E; subst. exact Hall.
    - destruct (expand_child sdp unsolved nd pidx v s0) as [sa ra] eqn:Ea.
      assert (Hsa : Forall F (active sa)).
      { unfold expand_child in Ea.
        destruct (child_data nd pidx v) as [[[i0 c0] [[Q0 P0] R0]]|e] eqn:Ec;
          [|inversion Ea; subst; exact Hall].
        pose proof (solveRelaxation_frame sdp unsolved s0 Q0 P0 R0 c0 i0) as (Ha & _).
        destruct (solveRelaxation sdp unsolved s0 Q0 P0 R0 c0 i0) as [s1 [[o pv]|e]] eqn:Es;
          simpl in Ha; inversion Ea; subst; clear Ea; simpl; rewrite Ha; trivial.
        pose proof (solveRelaxation_inv _ _ _ _ _ _ _ _ _ Es) as Hx.
        constructor; trivial.
        eapply Hchild; eauto. apply Hincl. left. reflexivity. }
      destruct ra as [[]|e].
      + eapply IH; [|exact Hsa|exact E]. intros y Hy. apply Hincl. right. exact Hy.
      + inversion E; subst. exact Hsa. }
  destruct (for_vals sdp unsolved [0; 1] nd pidx _) as [s3 r] eqn:E.
  assert (Forall F (active s3)).
  { eapply Hvals; [apply incl_refl| |exact E]. exact Hrest. }
  destruct r; inversion H; subst; assumption.
Qed.

End Children.

(** ** Examples of runs *)

Lemma example_sdp_shape (lo : Q) : sdp_shape (Example.sdp lo).
Proof.
  intros Qm P R o x H. unfold Example.sdp in H.
  destruct P as [|a [|b [|c P]]]; try discriminate.
  - destruct (Qeq_bool R 0); inversion H; reflexivity.
  - inversion H; reflexivity.
Qed.

(** The pieces of a successful reduction. *)
Lemma reduce_inv (Qm : Matrix) (P : Vec) (R : Q) (p : nat) (v : Q)
    (Q0 : Matrix) (P0 : Vec) (R0 : Q) :
  reduce Qm P R p v = Ok (Q0, P0, R0) ->
  exists QZ,
    (p < length Qm)%nat /\ (p < length P)%nat /\
    length Q0 = pred (length Qm) /\ length QZ = pred (length Qm) /\
    add (del p P) (scale (2 * v) QZ) = Ok P0.
Proof.
  unfold reduce, delete_row, delete_col, column. intros H.
  destruct (delete p Qm) as [QT|] eqn:E1; cbn [bind] in H; [|discriminate].
  destruct (mapM (delete p) QT) as [Q0'|] eqn:E2; cbn [bind] in H; [|discriminate].
  destruct (mapM (fun row => getitem row p) QT) as [QZ|] eqn:E3;
    cbn [bind] in H; [|discriminate].
  destruct (delete p P) as [PT|] eqn:E4; cbn [bind] in H; [|discriminate].
  destruct (add PT (scale (2 * v) QZ)) as [P0'|] eqn:E5; cbn [bind] in H; [|discriminate].
  destruct (getitem2 Qm p p); cbn [bind] in H; [|discriminate].
  destruct (getitem P p); cbn [bind] in H; [|discriminate].
  inversion H; subst.
  apply delete_inv in E1. destruct E1 as [Hp ->].
  apply delete_inv in E4. destruct E4 as [HpP ->].
  assert (HmapM : forall (A B : Type) (f : A -> result B) l l',
            mapM f l = Ok l' -> length l' = length l).
  { intros A B f l. induction l as [|h tl IH]; intros l' Hm; simpl in Hm.
    - inversion Hm. reflexivity.
    - destruct (f h); cbn [bind] in Hm; [|discriminate].
      destruct (mapM f tl) as [tl'|]; cbn [bind] in Hm; [|discriminate].
      inversion Hm. simpl. now rewrite (IH tl'). }
  exists QZ. rewrite (HmapM _ _ _ _ _ E2), (HmapM _ _ _ _ _ E3), length_del by exact Hp.
  repeat split; trivial.
Qed.

(** C3, a run against the claim as stated: the child with x1 = 0 is given a
    value a billionth below its parent's, as a solver of finite precision may
    return; it is popped right after the root, and [lb] drops from -2 to
    -2.000000001. *)
Lemma lower_bound_can_drop :
  let sdp := Example.sdp (-(2000000001 # 1000000000)) in
  exists s1 s2,
    iteration sdp Example.unsolved_raises GapTest (Example.start (-2)) s1 Continue /\
    iteration sdp Example.unsolved_raises GapTest s1 s2 Continue /\
    lb s1 = -2 /\ lb s2 = -(2000000001 # 1000000000) /\
    lb s2 < lb s1.
Proof.
  intros sdp.
  exists (fst (body sdp Example.unsolved_raises GapTest (Example.root (-2)) [] (Example.start (-2)))).
  eexists. split; [|split; [|split; [|split]]].
  - exists (Example.root (-2)), []. split; vm_compute; reflexivity.
  - exists (Example.child0 (-(2000000001 # 1000000000))), [Example.child1].
    split; vm_compute; reflexivity.
  - vm_compute; reflexivity.
  - vm_compute; reflexivity.
  - vm_compute; reflexivity.
Qed.

(** ** The termination test and the bounds *)

Section Bounds.

Variable sdp : Matrix -> Vec -> Q -> option (Q * Vec).
Variable unsolved : BB -> Matrix -> Vec -> Q -> Vec -> list nat -> result (Q * nat).

Lemma gap_test_iff (s : BB) :
  optimality_proved GapTest s = true <-> ub s - gaptol s <= lb s.
Proof. unfold optimality_proved. apply Qle_bool_iff. Qed.

Lemma body_return_iff (t : TermTest) (nd : Node) (rest : list Node) (s : BB) :
  snd (body sdp unsolved t nd rest s) = Return <->
  optimality_proved t (set_lb (set_active s rest) (nd_obj nd)) = true.
Proof.
  unfold body.
  destruct (optimality_proved t _); [simpl; tauto|].
  split; [|discriminate]. intros H.
  destruct (length (nd_P nd) <=? 1)%nat; [simpl in H; discriminate|].
  destruct (getitem _ _) as [pidx|e]; [|simpl in H; discriminate].
  destruct (for_vals sdp unsolved [0; 1] nd pidx _) as [s3 [[]|e]]; simpl in H; discriminate.
Qed.

(** C5, as amended.  The loop stops at the first pop whose objective is at
    least [ub - gaptol]; with a tolerance that is not negative this covers every
    pop with [lb > ub].  An iteration that goes on past the test therefore has
    [lb < ub - gaptol] at the test, [lb] stays the popped objective to its
    end, and [ub] can only go down meanwhile. *)
Theorem bound_ordering (nd : Node) (rest : list Node) (s : BB) :
  0 <= gaptol s ->
  (snd (body sdp unsolved GapTest nd rest s) = Return <-> ub s - gaptol s <= nd_obj nd) /\
  (ub s < nd_obj nd ->
     body sdp unsolved GapTest nd rest s =
       (set_active (set_lb (set_active s rest) (nd_obj nd)) [], Return)) /\
  (forall s' sig, body sdp unsolved GapTest nd rest s = (s', sig) -> sig <> Return ->
     nd_obj nd < ub s - gaptol s /\ nd_obj nd < ub s /\
     lb s' = nd_obj nd /\ ub s' <= ub s).
Proof.
  intros Hgap.
  assert (Hiff : snd (body sdp unsolved GapTest nd rest s) = Return <->
                 ub s - gaptol s <= nd_obj nd).
  { rewrite body_return_iff, gap_test_iff. simpl. tauto. }
  split; [exact Hiff|]. split.
  - intros Hlt. unfold body.
    replace (optimality_proved GapTest _) with true; [reflexivity|].
    symmetry. apply gap_test_iff. simpl. lra.
  - intros s' sig Hbody Hsig.
    assert (Hnot : ~ ub s - gaptol s <= nd_obj nd).
    { intros Hle. apply Hiff in Hle. rewrite Hbody in Hle. simpl in Hle. auto. }
    pose proof (body_kept sdp unsolved GapTest nd rest s s' sig Hbody) as (Hlb & _ & _ & _ & _ & Hub).
    simpl in Hlb, Hub. repeat split; trivial; lra.
Qed.

End Bounds.

Lemma bound_ordering_witness :
  let sdp := Example.sdp (-(3 # 2)) in
  let s := Example.start (-2) in
  let s' := fst (body sdp Example.unsolved_raises GapTest (Example.root (-2)) [] s) in
  0 <= gaptol s /\ -2 < ub s - gaptol s /\ lb s' = -2 /\ ub s' <= ub s.
Proof.
  intros sdp s s'.
  assert (Hgap : 0 <= gaptol s) by (vm_compute; discriminate).
  split; [exact Hgap|].
  destruct (bound_ordering sdp Example.unsolved_raises (Example.root (-2)) [] s Hgap) as (_ & _ & H).
  destruct (H s' Continue) as (H1 & _ & H3 & H4).
  - vm_compute; reflexivity.
  - discriminate.
  - repeat split; assumption.
Defined.

(** C5, runs against the claim as stated.  With solver values that are lower
    bounds of their nodes, the run pops -2, then -3/2, then 2, and stops there
    with [lb = 2] above [ub = -1].  And a root whose relaxation is tight, but
    returned a billionth above the incumbent's value, stops the loop at its
    first pop, again with [lb > ub]. *)
Lemma terminates_above_upper_bound :
  (exists s', solveBB (Example.sdp (-(3 # 2))) Example.unsolved_raises GapTest 3 (Example.start (-2)) = Proved s' /\
              lb s' = 2 /\ ub s' = -1 /\ ub s' < lb s') /\
  (exists s', solveBB (Example.sdp (-(3 # 2))) Example.unsolved_raises GapTest 1
                (Example.start (-(999999999 # 1000000000))) = Proved s' /\
              lb s' = -(999999999 # 1000000000) /\ ub s' = -1 /\ ub s' < lb s').
Proof.
  split; eexists; (split; [vm_compute; reflexivity|]);
    repeat split; vm_compute; reflexivity.
Qed.

(** ** A solve without solution *)

Section Failure.

Variable sdp : Matrix -> Vec -> Q -> option (Q * Vec).
Variable unsolved : BB -> Matrix -> Vec -> Q -> Vec -> list nat -> result (Q * nat).
Variable t : TermTest.

(** A pass of the [for] loop whose solve has no solution ends as the call of
    line 95 does: an exception leaves the pass, a pair goes into the child
    that line 97 pushes. *)
Lemma expand_child_unsolved (nd : Node) (pidx : nat) (val : Q) (s : BB) :
  expandable nd pidx ->
  sdp (reduced_Q (nd_Q nd) (nd_pivot nd))
      (reduced_P (nd_Q nd) (nd_P nd) (nd_pivot nd) val)
      (reduced_R (nd_Q nd) (nd_P nd) (nd_R nd) (nd_pivot nd) val) = None ->
  let r := unsolved s (reduced_Q (nd_Q nd) (nd_pivot nd))
             (reduced_P (nd_Q nd) (nd_P nd) (nd_pivot nd) val)
             (reduced_R (nd_Q nd) (nd_P nd) (nd_R nd) (nd_pivot nd) val)
             (put pidx val (nd_curr nd)) (del (nd_pivot nd) (nd_idxmap nd)) in
  exists s',
    expand_child sdp unsolved nd pidx val s =
      (s', match r with Ok _ => Ok tt | Raise e => Raise e end) /\
    lb s' = lb s /\ ub s' = ub s /\ incumbent s' = incumbent s /\
    relSolved s' = relSolved s /\
    active s' = match r with
                | Ok (o, pv) => child_of nd pidx val (relSolved s) o pv :: active s
                | Raise _ => active s
                end.
Proof.
  intros Hex Hs r. unfold expand_child.
  rewrite (child_data_expandable nd pidx val Hex).
  rewrite (solveRelaxation_unsolved sdp unsolved s _ _ _ _ _ Hs).
  fold r. destruct r as [[o pv]|e]; eexists; (split; [reflexivity|]);
    simpl; repeat split; reflexivity.
Qed.

(** C9, as amended.  [solveBB] has no branch for a failed solve: line 95
    unpacks whatever [solveRelaxation] answers and line 97 pushes it.  When
    the relaxation of a child of a well-shaped node has no solution, the pass
    through the loop body ends in one of two ways, and in neither is the node
    dropped with the search going on.  Either the call answered with a pair:
    then the child is in the queue, carrying the objective of that pair, and
    the loop continues.  Or an exception left the call: then it leaves the
    loop body and [solveBB] at once, with [lb] at the popped objective and
    the queue as the pop left it, with in front of it the sibling for the
    value 0 when that one was pushed before. *)
Theorem failed_solve_outcome (nd : Node) (rest : list Node) (s : BB)
    (pidx : nat) (val : Q) :
  let Q0 := reduced_Q (nd_Q nd) (nd_pivot nd) in
  let P0 := reduced_P (nd_Q nd) (nd_P nd) (nd_pivot nd) val in
  let R0 := reduced_R (nd_Q nd) (nd_P nd) (nd_R nd) (nd_pivot nd) val in
  optimality_proved t (set_lb (set_active s rest) (nd_obj nd)) = false ->
  (2 <= length (nd_P nd))%nat ->
  expandable nd pidx ->
  In val [0; 1] ->
  sdp Q0 P0 R0 = None ->
  exists s' sig,
    body sdp unsolved t nd rest s = (s', sig) /\
    lb s' = nd_obj nd /\
    ((sig = Continue /\
      exists sc o pv,
        unsolved sc Q0 P0 R0 (put pidx val (nd_curr nd))
                 (del (nd_pivot nd) (nd_idxmap nd)) = Ok (o, pv) /\
        In (child_of nd pidx val (relSolved sc) o pv) (active s'))
     \/
     (exists e,
        sig = Raised e /\
        (active s' = rest \/
         exists c0, nd_idxmap c0 = del (nd_pivot nd) (nd_idxmap nd) /\
                    active s' = c0 :: rest) /\
        (heapq.heappop (active s) = Some (nd, rest) ->
         forall fuel, solveBB sdp unsolved t (S fuel) s = Failed e s'))).
Proof.
  intros Q0 P0 R0 Hopt Hdim Hex Hval Hnone.
  set (s2 := stats (set_lb (set_active s rest) (nd_obj nd))).
  assert (Hbody : exists s' sig,
            body sdp unsolved t nd rest s = (s', sig) /\
            lb s' = nd_obj nd /\
            ((sig = Continue /\
              exists sc o pv,
                unsolved sc Q0 P0 R0 (put pidx val (nd_curr nd))
                         (del (nd_pivot nd) (nd_idxmap nd)) = Ok (o, pv) /\
                In (child_of nd pidx val (relSolved sc) o pv) (active s'))
             \/
             (exists e,
                sig = Raised e /\
                (active s' = rest \/
                 exists c0, nd_idxmap c0 = del (nd_pivot nd) (nd_idxmap nd) /\
                            active s' = c0 :: rest)))).
  { unfold body. rewrite Hopt.
    replace (length (nd_P nd) <=? 1)%nat with false
      by (symmetry; apply Nat.leb_gt; lia).
    pose proof Hex as (_ & _ & Hpiv & _).
    unfold getitem. rewrite Hpiv. cbn [of_option for_vals]. fold s2.
    assert (Hs2 : lb s2 = nd_obj nd /\ active s2 = rest) by (split; reflexivity).
    destruct Hs2 as (Hl2 & Ha2).
    destruct Hval as [<- | [<- | []]].
    - (* the solve for the value 0 has no solution *)
      destruct (expand_child_unsolved nd pidx 0 s2 Hex Hnone)
        as (sa & Ea & La & _ & _ & _ & Aa).
      rewrite Ea. clear Ea. fold Q0 P0 R0 in La, Aa |- *.
      destruct (unsolved s2 Q0 P0 R0 (put pidx 0 (nd_curr nd))
                  (del (nd_pivot nd) (nd_idxmap nd))) as [[o pv]|e] eqn:Eu.
      + destruct (expand_child sdp unsolved nd pidx 1 sa) as [sb rb] eqn:Eb.
        pose proof (expand_child_kept sdp unsolved nd pidx 1 sa sb rb Eb) as (Lb & _).
        assert (Hin : In (child_of nd pidx 0 (relSolved s2) o pv) (active sb)).
        { destruct (expand_child_active sdp unsolved nd pidx 1 sa sb rb Eb)
            as [Ab | (i1 & c1 & Q1 & P1 & R1 & o1 & pv1 & _ & _ & Ab)];
            rewrite Ab, Aa; simpl; auto. }
        destruct rb as [[]|e1].
        * exists sb, Continue. split; [reflexivity|].
          split; [congruence|]. left. split; [reflexivity|].
          exists s2, o, pv. split; [exact Eu | exact Hin].
        * exists sb, (Raised e1). split; [reflexivity|].
          split; [congruence|]. right. exists e1. split; [reflexivity|].
          right.
          destruct (expand_child_active sdp unsolved nd pidx 1 sa sb (Raise e1) Eb)
            as [Ab | (i1 & c1 & Q1 & P1 & R1 & o1 & pv1 & _ & Hr & _)];
            [|discriminate].
          eexists. split; [|rewrite Ab, Aa, Ha2; reflexivity]. reflexivity.
      + exists sa, (Raised e). split; [reflexivity|].
        split; [congruence|]. right. exists e. split; [reflexivity|].
        left. congruence.
    - (* the solve for the value 1 has no solution *)
      destruct (expand_child sdp unsolved nd pidx 0 s2) as [sa ra] eqn:Ea.
      pose proof (expand_child_kept sdp unsolved nd pidx 0 s2 sa ra Ea) as (La & _).
      assert (Hact : active sa = rest \/
                exists c0, nd_idxmap c0 = del (nd_pivot nd) (nd_idxmap nd) /\
                           active sa = c0 :: rest).
      { destruct (expand_child_active sdp unsolved nd pidx 0 s2 sa ra Ea)
          as [Aa | (i0 & c0 & Qa & Pa & Ra & oa & pva & Hcd & _ & Aa)].
        - left. congruence.
        - right. rewrite (child_data_expandable nd pidx 0 Hex) in Hcd.
          injection Hcd as Hi Hc HQ HP HR.
          eexists. split; [|rewrite Aa, Ha2; reflexivity].
          simpl. congruence. }
      destruct ra as [[]|e0].
      + destruct (expand_child_unsolved nd pidx 1 sa Hex Hnone)
          as (sb & Eb & Lb & _ & _ & _ & Ab).
        rewrite Eb. clear Eb. fold Q0 P0 R0 in Lb, Ab |- *.
        destruct (unsolved sa Q0 P0 R0 (put pidx 1 (nd_curr nd))
                    (del (nd_pivot nd) (nd_idxmap nd))) as [[o pv]|e] eqn:Eu.
        * exists sb, Continue. split; [reflexivity|].
          split; [congruence|]. left. split; [reflexivity|].
          exists sa, o, pv. split; [exact Eu|]. rewrite Ab. left. reflexivity.
        * exists sb, (Raised e). split; [reflexivity|].
          split; [congruence|]. right. exists e. split; [reflexivity|].
          rewrite Ab. exact Hact.
      + exists sa, (Raised e0). split; [reflexivity|].
        split; [congruence|]. right. exists e0. split; [reflexivity|].
        destruct Hact as [Hact | (c0 & _ & Hact)]; [left; exact Hact|].
        destruct (expand_child_active sdp unsolved nd pidx 0 s2 sa (Raise e0) Ea)
          as [Aa | (i0 & c1 & Qa & Pa & Ra & oa & pva & _ & Hr & _)];
          [left; congruence | discriminate]. }
  destruct Hbody as (s' & sig & Hb & Hlb & [Hc | (e & He & Hact)]).
  - exists s', sig. split; [exact Hb|]. split; [exact Hlb|]. left. exact Hc.
  - exists s', sig. split; [exact Hb|]. split; [exact Hlb|]. right.
    exists e. split; [exact He|]. split; [exact Hact|].
    intros Hpop fuel. simpl. rewrite Hpop, Hb, He. reflexivity.
Qed.

End Failure.

Lemma failed_solve_outcome_witness :
  let s := Example.start (-2) in
  exists s' sig,
    body Example.sdp_failing (Example.unsolved_returns 5) GapTest
         (Example.root (-2)) [] s = (s', sig) /\
    lb s' = -2.
Proof.
  intros s.
  destruct (failed_solve_outcome Example.sdp_failing (Example.unsolved_returns 5)
              GapTest (Example.root (-2)) [] s 0%nat 1)
    as (s' & sig & Hb & Hlb & _).
  - vm_compute; reflexivity.
  - simpl; lia.
  - repeat split; simpl; try lia; repeat constructor.
  - right; left; reflexivity.
  - vm_compute; reflexivity.
  - exists s', sig. split; [exact Hb | exact Hlb].
Defined.

(** C9, two runs against the claim as stated.  The solve of the child with
    x1 = 1 has no solution.  When the call of line 95 raises, the run ends in
    that exception while the sibling with x1 = 0 is still queued: the search
    does not continue.  When the call answers with the value 5, the child is
    queued like any other, and when it is popped its value becomes the lower
    bound that ends the search: the node is not dropped and does contribute
    a bound. *)
Lemma failed_solve_not_dropped :
  (exists s',
     solveBB Example.sdp_failing Example.unsolved_raises GapTest 5
             (Example.start (-2)) = Failed SolutionError s' /\
     active s' = [Example.child0 (-(3 # 2))]) /\
  (exists s1 s',
     body Example.sdp_failing (Example.unsolved_returns 5) GapTest
          (Example.root (-2)) [] (Example.start (-2)) = (s1, Continue) /\
     active s1 = [mkNode 5 2 [[0]] [-1] 3 [1; 0] [1%nat] 0%nat;
                  Example.child0 (-(3 # 2))] /\
     solveBB Example.sdp_failing (Example.unsolved_returns 5) GapTest 5
             (Example.start (-2)) = Proved s' /\
     lb s' = 5).
Proof.
  split.
  - eexists. split; vm_compute; reflexivity.
  - pose (s1 := fst (body Example.sdp_failing (Example.unsolved_returns 5) GapTest
                          (Example.root (-2)) [] (Example.start (-2)))).
    pose (s' := match solveBB Example.sdp_failing (Example.unsolved_returns 5)
                        GapTest 5 (Example.start (-2)) with
                | Proved x => x
                | _ => Example.start (-2)
                end).
    exists s1, s'.
    split; [|split; [|split]]; vm_compute; reflexivity.
Qed.

(** ** The first iteration of the example *)

Lemma example_root_expandable : expandable (Example.root (-2)) 0.
Proof.
  unfold expandable, square. simpl.
  repeat split; try lia; repeat constructor.
Qed.

Lemma example_root_idx_ok : idx_ok 2 (Example.root (-2)).
Proof.
  unfold idx_ok, square. simpl.
  repeat split; try lia; repeat constructor; simpl; intuition (try lia; try discriminate).
Qed.

Lemma expansion_two_children_witness :
  let sdp := Example.sdp (-(3 # 2)) in
  exists s',
    body sdp Example.unsolved_raises GapTest (Example.root (-2)) [] (Example.start (-2)) = (s', Continue) /\
    active s' = [Example.child1; Example.child0 (-(3 # 2))] /\
    relSolved s' = 3%nat.
Proof.
  intros sdp.
  destruct (expansion_two_children sdp Example.unsolved_raises GapTest (Example.root (-2)) []
              (Example.start (-2)) 0%nat (-(3 # 2)) 2 [1] [1])
    as (s' & Hbody & Hact & _ & Hrel).
  - vm_compute; reflexivity.
  - simpl; lia.
  - exact example_root_expandable.
  - vm_compute; reflexivity.
  - vm_compute; reflexivity.
  - exists s'. split; [exact Hbody|]. split; [|exact Hrel].
    rewrite Hact. vm_compute; reflexivity.
Defined.

Lemma index_map_invariant_witness :
  let sdp := Example.sdp (-(3 # 2)) in
  let s' := fst (body sdp Example.unsolved_raises GapTest (Example.root (-2)) [] (Example.start (-2))) in
  Forall (idx_ok 2) (active s').
Proof.
  intros sdp s'.
  apply (index_map_invariant sdp Example.unsolved_raises GapTest 2 (Example.start (-2)) s').
  - constructor; [exact example_root_idx_ok | constructor].
  - apply visits_last with (sig := Continue).
    exists (Example.root (-2)), []. split; vm_compute; reflexivity.
Defined.

(** ** The incumbent *)

Lemma round_half_bin (x : Q) : is_bin (round_half x).
Proof. unfold round_half, is_bin. destruct (Qle_bool (1 # 2) x); auto. Qed.

Lemma nth_put_same {A : Type} (d v : A) (a : list A) :
  forall i, (i < length a)%nat -> nth i (put i v a) d = v.
Proof.
  induction a as [|h tl IH]; intros [|j] Hlt; simpl in *; try lia; trivial.
  apply IH. lia.
Qed.

Lemma nth_put_other {A : Type} (d v : A) (a : list A) :
  forall i j, i <> j -> nth j (put i v a) d = nth j a d.
Proof.
  induction a as [|h tl IH]; intros [|i] [|j] Hne; simpl; trivial; try congruence.
  apply IH. congruence.
Qed.

Lemma In_del_other {A : Type} (a : list A) :
  forall p x y, nth_error a p = Some x -> In y a -> y <> x -> In y (del p a).
Proof.
  induction a as [|h tl IH]; intros [|p] x y Hnth Hin Hne; simpl in *;
    try discriminate.
  - inversion Hnth; subst. destruct Hin as [->|Hin]; [congruence|exact Hin].
  - destruct Hin as [->|Hin]; [left; reflexivity|right; eauto].
Qed.

(** Writing rounded values at every free index leaves a feasible vector. *)
Lemma scatter_feasible (idxmap : list nat) :
  forall (xr curr : Vec),
    length idxmap = length xr ->
    Forall is_bin xr ->
    (forall i, (i < length curr)%nat -> In i idxmap \/ is_bin (nth i curr 0)) ->
    feasible (length curr) (scatter curr idxmap xr).
Proof.
  induction idxmap as [|i idxmap IH]; intros xr curr Hlen Hxr Hfix.
  - destruct xr; [|discriminate]. simpl. split; [reflexivity|].
    apply Forall_nth. intros k d Hk.
    rewrite (nth_indep curr d 0 Hk).
    destruct (Hfix k Hk) as [[]|H]; exact H.
  - destruct xr as [|x xr]; [discriminate|]. simpl.
    inversion Hxr; subst.
    rewrite <- (length_put curr i x).
    apply IH; [simpl in Hlen; lia | assumption |].
    intros k Hk. rewrite length_put in Hk.
    destruct (Nat.eq_dec i k) as [->|Hne].
    + right. rewrite nth_put_same by exact Hk. assumption.
    + rewrite nth_put_other by exact Hne.
      destruct (Hfix k Hk) as [[Heq|Hin]|Hb]; [congruence|left; exact Hin|right; exact Hb].
Qed.

(** The free entries of a child: the pivot's original index is fixed now. *)
Lemma child_fixed_entries (n : nat) (nd : Node) (pidx : nat) (val : Q) :
  node_ok n nd -> is_bin val ->
  nth_error (nd_idxmap nd) (nd_pivot nd) = Some pidx ->
  forall i, (i < n)%nat ->
    In i (del (nd_pivot nd) (nd_idxmap nd)) \/
    is_bin (nth i (put pidx val (nd_curr nd)) 0).
Proof.
  intros (Hidx & Hcurr & Hfix) Hval Hpiv i Hi.
  destruct (Nat.eq_dec pidx i) as [<-|Hne].
  - right. rewrite nth_put_same; [exact Hval|].
    destruct Hidx as (_ & _ & _ & Hbd). rewrite Forall_forall in Hbd.
    rewrite Hcurr. apply Hbd. eapply nth_error_In; exact Hpiv.
  - rewrite nth_put_other by exact Hne.
    destruct (Hfix i Hi) as [Hin|Hb]; [left|right; exact Hb].
    eapply In_del_other; eauto.
Qed.

Lemma node_ok_child (n : nat) (nd : Node) (pidx : nat) (val : Q)
    (seq : nat) (o : Q) (pivot0 : nat) :
  node_ok n nd -> is_bin val ->
  nth_error (nd_idxmap nd) (nd_pivot nd) = Some pidx ->
  node_ok n (child_of nd pidx val seq o pivot0).
Proof.
  intros Hnd Hval Hpiv. pose proof Hnd as (Hidx & Hcurr & Hfix).
  assert (Hp : (nd_pivot nd < length (nd_P nd))%nat).
  { destruct Hidx as (Hlen & _). rewrite <- Hlen.
    apply nth_error_Some. congruence. }
  split; [apply idx_ok_child; assumption|]. split.
  - simpl. rewrite length_put. exact Hcurr.
  - simpl. apply child_fixed_entries; assumption.
Qed.

Section Incumbent.

Variable sdp : Matrix -> Vec -> Q -> option (Q * Vec).
Variable unsolved : BB -> Matrix -> Vec -> Q -> Vec -> list nat -> result (Q * nat).
Hypothesis Hshape : sdp_shape sdp.

Lemma updateBest_inc_ok (s : BB) (x : Vec) :
  feasible (length (problem_P s)) x -> inc_ok s -> inc_ok (updateBest s x).
Proof.
  intros Hx Hs. unfold updateBest.
  destruct (negb _); [|exact Hs].
  unfold inc_ok, value. simpl. split; [exact Hx|reflexivity].
Qed.

Lemma solveRelaxation_inc_ok (s : BB) (Q0 : Matrix) (P0 : Vec) (R0 : Q)
    (curr0 : Vec) (idxmap0 : list nat) :
  inc_ok s ->
  length curr0 = length (problem_P s) ->
  length idxmap0 = length P0 ->
  (forall i, (i < length curr0)%nat -> In i idxmap0 \/ is_bin (nth i curr0 0)) ->
  inc_ok (fst (solveRelaxation sdp unsolved s Q0 P0 R0 curr0 idxmap0)).
Proof.
  intros Hs Hcurr Hlen Hfix. unfold solveRelaxation.
  destruct (sdp Q0 P0 R0) as [[o x]|] eqn:E; simpl; [|exact Hs].
  apply updateBest_inc_ok; [|exact Hs].
  simpl. rewrite <- Hcurr. apply scatter_feasible.
  - rewrite length_map, (Hshape _ _ _ _ _ E). exact Hlen.
  - apply Forall_map. apply Forall_forall. intros y _. apply round_half_bin.
  - exact Hfix.
Qed.

Lemma expand_child_inc_ok (nd : Node) (pidx : nat) (val : Q) (s : BB) :
  node_ok (length (problem_P s)) nd -> is_bin val ->
  nth_error (nd_idxmap nd) (nd_pivot nd) = Some pidx ->
  inc_ok s ->
  forall s' r, expand_child sdp unsolved nd pidx val s = (s', r) -> inc_ok s'.
Proof.
  intros Hnd Hval Hpiv Hs s' r H. unfold expand_child in H.
  destruct (child_data nd pidx val) as [[[i0 c0] [[Q0 P0] R0]]|e] eqn:Ec;
    [|inversion H; subst; exact Hs].
  pose proof Hnd as (Hidx & Hcurr & _).
  destruct (child_data_inv _ _ _ _ _ _ _ _ _ Hidx Ec) as (Hp & Hpidx & -> & -> & -> & -> & ->).
  pose proof (node_ok_child _ nd pidx val O 0 O Hnd Hval Hpiv) as ((Hl & _) & Hc & Hf).
  simpl in Hl, Hc, Hf.
  assert (Hinc : inc_ok (fst (solveRelaxation sdp unsolved s
              (reduced_Q (nd_Q nd) (nd_pivot nd))
              (reduced_P (nd_Q nd) (nd_P nd) (nd_pivot nd) val)
              (reduced_R (nd_Q nd) (nd_P nd) (nd_R nd) (nd_pivot nd) val)
              (put pidx val (nd_curr nd)) (del (nd_pivot nd) (nd_idxmap nd))))).
  { apply solveRelaxation_inc_ok; trivial. rewrite Hc. exact Hf. }
  destruct (solveRelaxation sdp unsolved s _ _ _ _ _) as [s1 [[o pv]|e]];
    simpl in Hinc; inversion H; subst; exact Hinc.
Qed.

Lemma for_vals_inc_ok (nd : Node) (pidx : nat) (vals : list Q) :
  Forall is_bin vals ->
  nth_error (nd_idxmap nd) (nd_pivot nd) = Some pidx ->
  forall s, node_ok (length (problem_P s)) nd -> inc_ok s ->
  forall s' r, for_vals sdp unsolved vals nd pidx s = (s', r) -> inc_ok s'.
Proof.
  intros Hvals Hpiv. induction Hvals as [|v vals Hv _ IH]; intros s Hnd Hs s' r H;
    simpl in H.
  - inversion H; subst. exact Hs.
  - destruct (expand_child sdp unsolved nd pidx v s) as [s1 r1] eqn:E.
    pose proof (expand_child_inc_ok nd pidx v s Hnd Hv Hpiv Hs s1 r1 E) as Hs1.
    pose proof (expand_child_kept sdp unsolved nd pidx v s s1 r1 E) as (_ & _ & _ & HP & _).
    destruct r1 as [[]|e].
    + eapply IH; [|exact Hs1|exact H]. rewrite HP. exact Hnd.
    + inversion H; subst. exact Hs1.
Qed.

Lemma body_state_ok (t : TermTest) (nd : Node) (rest : list Node) (s : BB) :
  node_ok (length (problem_P s)) nd ->
  Forall (node_ok (length (problem_P s))) rest ->
  inc_ok s ->
  forall s' sig, body sdp unsolved t nd rest s = (s', sig) -> state_ok s'.
Proof.
  intros Hnd Hrest Hs s' sig H.
  pose proof (body_kept sdp unsolved t nd rest s s' sig H) as (_ & _ & _ & HP & _).
  simpl in HP. unfold state_ok. rewrite HP. split.
  - eapply body_active_Forall; [exact Hrest| |exact H].
    intros pidx val i0 c0 Q0 P0 R0 o pv seq Hget Hval Hc Hx.
    pose proof Hnd as (Hidx & _).
    destruct (child_data_inv _ _ _ _ _ _ _ _ _ Hidx Hc) as (_ & _ & -> & -> & -> & -> & ->).
    apply (node_ok_child _ nd pidx val seq o pv); trivial.
    + destruct Hval as [<-|[<-|[]]]; [left|right]; reflexivity.
    + unfold getitem in Hget. destruct (nth_error _ _); inversion Hget; reflexivity.
  - unfold body in H.
    destruct (optimality_proved t _); [inversion H; subst; exact Hs|].
    destruct (length (nd_P nd) <=? 1)%nat; [inversion H; subst; exact Hs|].
    destruct (getitem (nd_idxmap nd) (nd_pivot nd)) as [pidx|e] eqn:Eg;
      [|inversion H; subst; exact Hs].
    destruct (for_vals sdp unsolved [0; 1] nd pidx _) as [s3 r] eqn:E.
    assert (inc_ok s3).
    { eapply for_vals_inc_ok; [| | | |exact E].
      - constructor; [left; reflexivity|].
        constructor; [right; reflexivity|constructor].
      - unfold getitem in Eg. destruct (nth_error _ _); inversion Eg; reflexivity.
      - exact Hnd.
      - exact Hs. }
    destruct r; inversion H; subst; assumption.
Qed.

(** C2.  Gap-check termination.  A pass of the loop ends in the [return] of
    the termination test exactly when the objective of the node just popped,
    to which [lb] has been set, is at least [ub - gaptol].  When a run
    that starts from a queue of well-formed nodes and a feasible incumbent
    attaining [ub] ends this way, the queue is empty, [ub - lb <= gaptol],
    and the incumbent is a 0/1 assignment of all variables whose objective in
    the original problem is [ub]. *)
Theorem gap_termination (fuel : nat) (s s' : BB) :
  state_ok s ->
  solveBB sdp unsolved GapTest fuel s = Proved s' ->
  active s' = [] /\
  ub s' - lb s' <= gaptol s' /\
  feasible (length (problem_P s)) (incumbent s') /\
  objective (problem_Q s) (problem_P s) (problem_R s) (incumbent s') == ub s' /\
  (forall nd rest s0,
     (exists s1, body sdp unsolved GapTest nd rest s0 = (s1, Return)) <->
     ub s0 - gaptol s0 <= lb (set_lb s0 (nd_obj nd))).
Proof.
  intros Hok Hrun.
  assert (Hexit : forall nd rest s0,
            (exists s1, body sdp unsolved GapTest nd rest s0 = (s1, Return)) <->
            ub s0 - gaptol s0 <= lb (set_lb s0 (nd_obj nd))).
  { intros nd rest s0. rewrite <- (gap_test_iff (set_lb (set_active s0 rest) (nd_obj nd))).
    rewrite <- body_return_iff with (sdp := sdp). split.
    - intros (s1 & ->). reflexivity.
    - intros H. destruct (body sdp unsolved GapTest nd rest s0) as [s1 sig]. simpl in H.
      subst. exists s1. reflexivity. }
  revert s Hok Hrun. induction fuel as [|fuel IH]; intros s Hok Hrun; simpl in Hrun.
  - destruct (heapq.heappop (active s)) as [[nd rest]|]; discriminate.
  - destruct (heapq.heappop (active s)) as [[nd rest]|] eqn:Hpop; [|discriminate].
    destruct Hok as (Hnodes & Hinc).
    pose proof (Permutation_Forall (heappop_perm _ _ _ Hpop) Hnodes) as Hnodes'.
    inversion Hnodes' as [|? ? Hnd Hrest]; subst.
    destruct (body sdp unsolved GapTest nd rest s) as [s1 sig] eqn:Eb.
    pose proof (body_state_ok GapTest nd rest s Hnd Hrest Hinc s1 sig Eb) as Hok1.
    pose proof (body_kept sdp unsolved GapTest nd rest s s1 sig Eb) as (_ & _ & HQ & HP & HR & _).
    simpl in HQ, HP, HR.
    destruct sig; [|inversion Hrun; subst s1|discriminate].
    + destruct (IH s1 Hok1 Hrun) as (A & B & C & D & E).
      rewrite HP in C. rewrite HQ, HP, HR in D.
      exact (conj A (conj B (conj C (conj D E)))).
    + destruct Hok1 as (_ & (Hfeas & Hval)). unfold value in Hval.
      rewrite HP in Hfeas. rewrite HQ, HP, HR in Hval.
      assert (Hret : snd (body sdp unsolved GapTest nd rest s) = Return) by (rewrite Eb; reflexivity).
      apply body_return_iff in Hret. unfold body in Eb. rewrite Hret in Eb.
      inversion Eb; subst s'. apply gap_test_iff in Hret. simpl in Hret, Hfeas, Hval.
      simpl. split; [reflexivity|]. split; [lra|].
      exact (conj Hfeas (conj Hval Hexit)).
Qed.

End Incumbent.

(** ** Termination *)

Lemma add_length (a b r : Vec) :
  add a b = Ok r -> (length r <= Nat.max (length a) (length b))%nat.
Proof.
  unfold add. destruct (Nat.eqb (length a) (length b)) eqn:E.
  - intros H. inversion H; subst. rewrite length_zip_add. lia.
  - destruct a as [|x [|x' a]]; destruct b as [|y [|y' b]]; intros H;
      inversion H; subst; simpl; rewrite ?length_map; simpl; lia.
Qed.

Lemma weight_pos (nd : Node) : (1 <= weight nd)%nat.
Proof.
  unfold weight. pose proof (Nat.pow_le_mono_r 2 1 (S (dimension nd))). simpl in *. lia.
Qed.

Lemma potential_perm (h h' : list Node) :
  Permutation h h' -> potential h = potential h'.
Proof.
  intros H. unfold potential.
  induction H; simpl; lia.
Qed.

(** A child is smaller than its parent. *)
Lemma child_dimension (nd : Node) (pidx : nat) (val : Q)
    (idxmap0 : list nat) (curr0 : Vec) (Q0 : Matrix) (P0 : Vec) (R0 : Q)
    (o : Q) (seq pv : nat) :
  child_data nd pidx val = Ok (idxmap0, curr0, (Q0, P0, R0)) ->
  (dimension (mkNode o seq Q0 P0 R0 curr0 idxmap0 pv) < dimension nd)%nat.
Proof.
  intros Hc. apply child_data_reduce in Hc.
  destruct (reduce_inv _ _ _ _ _ _ _ _ Hc) as (QZ & HpQ & HpP & HQ0 & HQZ & Hadd).
  apply add_length in Hadd. unfold scale in Hadd.
  rewrite length_map, length_del in Hadd by exact HpP.
  unfold dimension. simpl. lia.
Qed.

Lemma weight_child (nd c : Node) :
  (dimension c < dimension nd)%nat -> (2 * weight c + 1 <= weight nd)%nat.
Proof.
  intros H. unfold weight.
  assert (H1 : (2 ^ S (dimension c) <= 2 ^ dimension nd)%nat)
    by (apply Nat.pow_le_mono_r; lia).
  assert (H2 : (1 <= 2 ^ S (dimension c))%nat)
    by (pose proof (Nat.pow_le_mono_r 2 0 (S (dimension c))); simpl in *; lia).
  rewrite (Nat.pow_succ_r' 2 (dimension nd)). lia.
Qed.

Section Termination.

Variable sdp : Matrix -> Vec -> Q -> option (Q * Vec).
Variable unsolved : BB -> Matrix -> Vec -> Q -> Vec -> list nat -> result (Q * nat).
Variable t : TermTest.

Lemma for_vals_potential (nd : Node) (pidx : nat) (vals : list Q) :
  forall s s' r, for_vals sdp unsolved vals nd pidx s = (s', r) ->
  (2 * potential (active s') + length vals
   <= 2 * potential (active s) + length vals * weight nd)%nat.
Proof.
  induction vals as [|v vals IH]; intros s s' r H; simpl in H.
  - inversion H; subst. simpl. lia.
  - destruct (expand_child sdp unsolved nd pidx v s) as [s1 r1] eqn:E.
    assert (H1 : (2 * potential (active s1) + 1
                  <= 2 * potential (active s) + weight nd)%nat).
    { destruct (expand_child_active sdp unsolved nd pidx v s s1 r1 E)
        as [-> | (i0 & c0 & Q0 & P0 & R0 & o & pv & Hc & _ & ->)].
      - pose proof (weight_pos nd). lia.
      - pose proof (weight_child nd _
          (child_dimension nd pidx v i0 c0 Q0 P0 R0 o (relSolved s1) pv Hc)).
        unfold potential in *. simpl. lia. }
    destruct r1 as [[]|e].
    + specialize (IH _ _ _ H). simpl. lia.
    + inversion H; subst. pose proof (weight_pos nd). simpl. nia.
Qed.

(** Every pass that continues lowers the potential of the queue. *)
Lemma body_potential (nd : Node) (rest : list Node) (s s' : BB) :
  body sdp unsolved t nd rest s = (s', Continue) ->
  (potential (active s') < weight nd + potential rest)%nat.
Proof.
  intros H. unfold body in H.
  destruct (optimality_proved t _); [discriminate|].
  pose proof (weight_pos nd).
  destruct (length (nd_P nd) <=? 1)%nat; [inversion H; subst; simpl; lia|].
  destruct (getitem (nd_idxmap nd) (nd_pivot nd)) as [pidx|e]; [|discriminate].
  destruct (for_vals sdp unsolved [0; 1] nd pidx _) as [s3 r] eqn:E.
  apply for_vals_potential in E. simpl in E.
  destruct r; inversion H; subst. lia.
Qed.

(** With fuel for the potential of the queue the loop runs to its end. *)
Lemma solveBB_terminates (fuel : nat) :
  forall s, (potential (active s) <= fuel)%nat ->
  exists s', solveBB sdp unsolved t fuel s = Proved s' \/
             solveBB sdp unsolved t fuel s = Exhausted s' \/
             exists e, solveBB sdp unsolved t fuel s = Failed e s'.
Proof.
  induction fuel as [|fuel IH]; intros s Hpot; simpl;
    destruct (heapq.heappop (active s)) as [[nd rest]|] eqn:Hpop;
    try (exists s; right; left; reflexivity).
  - apply heappop_perm, potential_perm in Hpop.
    unfold potential in Hpop. simpl in Hpop. pose proof (weight_pos nd).
    unfold potential in Hpot. lia.
  - apply heappop_perm, potential_perm in Hpop.
    unfold potential in Hpop at 2. simpl in Hpop. fold (potential rest) in Hpop.
    destruct (body sdp unsolved t nd rest s) as [s1 sig] eqn:Eb.
    destruct sig.
    + apply IH. apply body_potential in Eb. lia.
    + exists s1. left. reflexivity.
    + exists s1. right. right. exists e. reflexivity.
Qed.

End Termination.

(** ** Integral data *)

Lemma is_int_plus (a b : Q) : is_int a -> is_int b -> is_int (a + b).
Proof.
  intros [x Hx] [y Hy]. exists (x + y)%Z.
  rewrite inject_Z_plus, Hx, Hy. reflexivity.
Qed.

Lemma is_int_mult (a b : Q) : is_int a -> is_int b -> is_int (a * b).
Proof.
  intros [x Hx] [y Hy]. exists (x * y)%Z.
  rewrite inject_Z_mult, Hx, Hy. reflexivity.
Qed.

Lemma is_int_bin (a : Q) : is_bin a -> is_int a.
Proof. intros [-> | ->]; [exists 0%Z | exists 1%Z]; reflexivity. Qed.

Lemma dot_int (a : Vec) :
  forall b, Forall is_int a -> Forall is_int b -> is_int (dot a b).
Proof.
  induction a as [|x a IH]; intros [|y b] Ha Hb; simpl;
    try (exists 0%Z; reflexivity).
  inversion Ha; inversion Hb; subst.
  apply is_int_plus; [apply is_int_mult; assumption | apply IH; assumption].
Qed.

Lemma objective_int (Qm : Matrix) (P : Vec) (R : Q) (x : Vec) :
  integral Qm P R -> Forall is_bin x -> is_int (objective Qm P R x).
Proof.
  intros (HQ & HP & HR) Hx.
  assert (Hxi : Forall is_int x)
    by (eapply Forall_impl; [|exact Hx]; apply is_int_bin).
  unfold objective, quad, matvec.
  repeat apply is_int_plus; trivial; apply dot_int; trivial.
  apply Forall_map. eapply Forall_impl; [|exact HQ].
  intros row Hrow. apply dot_int; assumption.
Qed.

(** On an integer, a lower bound may be rounded up. *)
Lemma ceil_below_int (l v : Q) : is_int v -> l <= v -> ceil l <= v.
Proof.
  intros [z Hz] Hle. unfold ceil. rewrite Hz.
  rewrite <- Zle_Qle. rewrite <- (Qceiling_Z z).
  apply Qceiling_resp_le. rewrite <- Hz. exact Hle.
Qed.

(** ** The exact optimum *)

Lemma assignments_feasible (n : nat) :
  forall x, In x (assignments n) <-> feasible n x.
Proof.
  induction n as [|n IH]; intros x; simpl.
  - split.
    + intros [<-|[]]. split; [reflexivity|constructor].
    + intros [Hlen _]. destruct x; [left; reflexivity|discriminate].
  - rewrite in_app_iff, !in_map_iff. split.
    + intros [(y & <- & Hy) | (y & <- & Hy)]; apply IH in Hy; destruct Hy as [Hl Hb];
        (split; [simpl; lia | constructor; [|exact Hb]]); [left|right]; reflexivity.
    + intros [Hlen Hb]. destruct x as [|h x]; [discriminate|].
      inversion Hb as [|? ? Hh Hx]; subst.
      assert (Hy : In x (assignments n)) by (apply IH; split; [simpl in Hlen; lia|exact Hx]).
      destruct Hh as [-> | ->]; [left|right]; exists x; split; trivial.
Qed.

Lemma fold_min_le (v : Q) (vs : list Q) :
  fold_right Qmin v vs <= v /\ Forall (fun y => fold_right Qmin v vs <= y) vs.
Proof.
  induction vs as [|w vs [IH1 IH2]]; simpl.
  - split; [lra|constructor].
  - pose proof (Q.le_min_l w (fold_right Qmin v vs)).
    pose proof (Q.le_min_r w (fold_right Qmin v vs)).
    split; [lra|]. constructor; [assumption|].
    eapply Forall_impl; [|exact IH2]. intros y Hy. cbv beta in Hy. lra.
Qed.

Lemma fold_min_attained (v : Q) (vs : list Q) :
  exists y, In y (v :: vs) /\ fold_right Qmin v vs == y.
Proof.
  induction vs as [|w vs (y & Hin & Hy)]; simpl.
  - exists v. split; [left; reflexivity|reflexivity].
  - destruct (Q.min_spec w (fold_right Qmin v vs)) as [[_ Hm]|[_ Hm]].
    + exists w. split; [right; left; reflexivity|exact Hm].
    + exists y. split; [|rewrite Hm; exact Hy].
      destruct Hin as [<-|Hin]; [left; reflexivity|right; right; exact Hin].
Qed.

(** A value that is attained and is below every value is the minimum. *)
Lemma minimum_unique (l : list Q) (v : Q) :
  (exists y, In y l /\ y == v) ->
  (forall y, In y l -> v <= y) ->
  v == minimum l.
Proof.
  intros (y & Hy & Hyv) Hlow.
  destruct l as [|w ws]; [destruct Hy|]. simpl.
  destruct (fold_min_le w ws) as [H1 H2].
  destruct (fold_min_attained w ws) as (z & Hz & Hzm).
  assert (Hle : fold_right Qmin w ws <= y).
  { destruct Hy as [<-|Hy]; [exact H1|].
    rewrite Forall_forall in H2. apply H2, Hy. }
  specialize (Hlow z Hz). lra.
Qed.

Lemma optimum_unique (Qm : Matrix) (P : Vec) (R : Q) (v : Q) :
  (exists x, feasible (length P) x /\ objective Qm P R x == v) ->
  (forall x, feasible (length P) x -> v <= objective Qm P R x) ->
  v == optimum Qm P R.
Proof.
  intros (x & Hx & Hv) Hlow. unfold optimum. apply minimum_unique.
  - exists (objective Qm P R x). split; [|exact Hv].
    apply in_map, assignments_feasible, Hx.
  - intros y Hy. apply in_map_iff in Hy. destruct Hy as (x' & <- & Hx').
    apply Hlow, assignments_feasible, Hx'.
Qed.

(** ** The ceiling test *)

Section Ceiling.

Variable sdp : Matrix -> Vec -> Q -> option (Q * Vec).
Variable unsolved : BB -> Matrix -> Vec -> Q -> Vec -> list nat -> result (Q * nat).

(** A run that ends in the termination test ends with the test satisfied,
    the queue empty and the problem data untouched. *)
Lemma solveBB_Proved_test (t : TermTest) (fuel : nat) :
  forall s s', solveBB sdp unsolved t fuel s = Proved s' ->
  optimality_proved t s' = true /\ active s' = [] /\
  problem_Q s' = problem_Q s /\ problem_P s' = problem_P s /\
  problem_R s' = problem_R s.
Proof.
  induction fuel as [|fuel IH]; intros s s' H; simpl in H;
    destruct (heapq.heappop (active s)) as [[nd rest]|]; try discriminate.
  destruct (body sdp unsolved t nd rest s) as [s1 sig] eqn:Eb.
  pose proof (body_kept sdp unsolved t nd rest s s1 sig Eb) as (_ & _ & HQ & HP & HR & _).
  simpl in HQ, HP, HR.
  destruct sig; [|inversion H; subst s1|discriminate].
  - destruct (IH _ _ H) as (A & B & C & D & E).
    repeat split; trivial; congruence.
  - assert (Hret : snd (body sdp unsolved t nd rest s) = Return) by (rewrite Eb; reflexivity).
    apply body_return_iff in Hret. unfold body in Eb. rewrite Hret in Eb.
    inversion Eb; subst s'. repeat split; trivial.
Qed.

(** C4.  Integer-rounded termination.  Under the ceiling test the loop ends
    within as many iterations as the potential of its queue, which is
    [2^(n+1) - 1] for a root of dimension n.  When the data are integral and
    the loop stops in the test, [ceil lb >= ub] holds; if then [lb] is a lower
    bound of the objective over {0,1}^n and [ub] is the objective of a
    feasible assignment, the returned [ub] is the exact optimum, the least
    value of x'Qx + P'x + R over {0,1}^n, and an integer. *)
Theorem integer_rounded_termination (s : BB) :
  integral (problem_Q s) (problem_P s) (problem_R s) ->
  (forall fuel, (potential (active s) <= fuel)%nat ->
     exists s', solveBB sdp unsolved CeilTest fuel s = Proved s' \/
                solveBB sdp unsolved CeilTest fuel s = Exhausted s' \/
                exists e, solveBB sdp unsolved CeilTest fuel s = Failed e s') /\
  (forall root, active s = [root] -> length (nd_Q root) = length (nd_P root) ->
     potential (active s) = (2 ^ S (length (nd_P root)) - 1)%nat) /\
  (forall fuel s', solveBB sdp unsolved CeilTest fuel s = Proved s' ->
     ub s' <= ceil (lb s') /\
     ((forall x, feasible (length (problem_P s)) x -> lb s' <= value s x) ->
      (exists x, feasible (length (problem_P s)) x /\ value s x == ub s') ->
      ub s' == optimum (problem_Q s) (problem_P s) (problem_R s) /\
      is_int (ub s'))).
Proof.
  intros Hint. split; [|split].
  - intros fuel Hfuel. apply solveBB_terminates. exact Hfuel.
  - intros root Hroot Hlen. rewrite Hroot. unfold potential, weight, dimension.
    simpl. rewrite Hlen, Nat.max_id. lia.
  - intros fuel s' Hrun.
    destruct (solveBB_Proved_test CeilTest fuel s s' Hrun) as (Htest & _).
    apply Qle_bool_iff in Htest. split; [exact Htest|].
    intros Hlow (x & Hx & Hval). split.
    + apply optimum_unique.
      * exists x. split; assumption.
      * intros y Hy. specialize (Hlow y Hy).
        assert (Hc : ceil (lb s') <= value s y).
        { apply ceil_below_int; [|exact Hlow].
          apply objective_int; [exact Hint|apply Hy]. }
        unfold value in Hc. lra.
    + destruct (objective_int _ _ _ x Hint (proj2 Hx)) as [z Hz].
      exists z. rewrite <- Hval. exact Hz.
Qed.

End Ceiling.

(** ** The example run to its end *)

Lemma example_state_ok (o : Q) : state_ok (Example.start o).
Proof.
  unfold state_ok, Example.start. simpl. split.
  - constructor; [|constructor]. split; [|split].
    + unfold idx_ok, square. simpl.
      repeat split; try lia; repeat constructor; simpl;
        intuition (try lia; try discriminate).
    + reflexivity.
    + intros i Hi. left. simpl. lia.
  - unfold inc_ok, feasible, value. simpl. split; [split|].
    + reflexivity.
    + constructor; [left; reflexivity|].
      constructor; [right; reflexivity|constructor].
    + vm_compute; reflexivity.
Qed.

Lemma gap_termination_witness :
  let sdp := Example.sdp (-1) in
  let s := Example.start (-2) in
  exists s',
    solveBB sdp Example.unsolved_raises GapTest 2 s = Proved s' /\
    active s' = [] /\ ub s' - lb s' <= gaptol s' /\
    feasible 2 (incumbent s') /\
    objective Example.Qm Example.P 0 (incumbent s') == ub s'.
Proof.
  intros sdp s.
  pose (s' := match solveBB sdp Example.unsolved_raises GapTest 2 s with Proved x => x | _ => s end).
  assert (Hrun : solveBB sdp Example.unsolved_raises GapTest 2 s = Proved s') by (vm_compute; reflexivity).
  exists s'. split; [exact Hrun|].
  destruct (gap_termination sdp Example.unsolved_raises (example_sdp_shape (-1)) 2 s s'
              (example_state_ok (-2)) Hrun) as (A & B & C & D & _).
  exact (conj A (conj B (conj C D))).
Defined.

Lemma example_integral : integral Example.Qm Example.P 0.
Proof.
  unfold integral, Example.Qm, Example.P.
  assert (H0 : is_int 0) by (exists 0%Z; reflexivity).
  assert (H3 : is_int 3) by (exists 3%Z; reflexivity).
  assert (H1 : is_int (-1)) by (exists (-1)%Z; reflexivity).
  repeat split; repeat constructor; assumption.
Qed.

Lemma integer_rounded_termination_witness :
  let sdp := Example.sdp (-(3 # 2)) in
  let s := Example.start (-2) in
  exists s',
    solveBB sdp Example.unsolved_raises CeilTest 3 s = Proved s' /\
    lb s' = -(3 # 2) /\
    ub s' == optimum Example.Qm Example.P 0.
Proof.
  intros sdp s.
  pose (s' := match solveBB sdp Example.unsolved_raises CeilTest 3 s with Proved x => x | _ => s end).
  assert (Hrun : solveBB sdp Example.unsolved_raises CeilTest 3 s = Proved s') by (vm_compute; reflexivity).
  exists s'. split; [exact Hrun|]. split; [vm_compute; reflexivity|].
  destruct (integer_rounded_termination sdp Example.unsolved_raises s example_integral) as (_ & _ & H).
  destruct (H 3%nat s' Hrun) as (_ & Hopt).
  apply Hopt.
  - intros x Hx. apply assignments_feasible in Hx. simpl in Hx.
    destruct Hx as [<-|[<-|[<-|[<-|[]]]]]; vm_compute; discriminate.
  - exists [0; 1]. split; [|vm_compute; reflexivity].
    split; [reflexivity|].
    constructor; [left; reflexivity|].
    constructor; [right; reflexivity|constructor].
Defined.

(** ** The expansion in memory *)

Module MemoryFacts.

Import Memory.

Lemma bindM_ok {A B : Type} (m : M A) (k : A -> M B) (h : heap) (r : B * heap) :
  bindM m k h = Ok r -> exists a h1, m h = Ok (a, h1) /\ k a h1 = Ok r.
Proof.
  unfold bindM. destruct (m h) as [[a h1]|e]; [|discriminate].
  intros H. exists a, h1. split; [reflexivity|exact H].
Qed.

Lemma ret_inv {A : Type} (a b : A) (h h1 : heap) :
  ret a h = Ok (b, h1) -> b = a /\ h1 = h.
Proof. unfold ret. intros H. inversion H. split; reflexivity. Qed.

Lemma lift_inv {A : Type} (r : result A) (a : A) (h h1 : heap) :
  lift r h = Ok (a, h1) -> r = Ok a /\ h1 = h.
Proof.
  unfold lift. destruct r; intros H; inversion H. split; reflexivity.
Qed.

Lemma new_inv (a : array) (l : nat) (h h1 : heap) :
  new a h = Ok (l, h1) -> l = length h /\ h1 = h ++ [a].
Proof. unfold new. intros H. inversion H. split; reflexivity. Qed.

Lemma write_inv (l : nat) (a : array) (u : unit) (h h1 : heap) :
  write l a h = Ok (u, h1) -> (l < length h)%nat /\ h1 = put l a h.
Proof.
  unfold write. destruct (l <? length h)%nat eqn:E; intros H; inversion H.
  split; [apply Nat.ltb_lt, E|reflexivity].
Qed.

Lemma read_vec_inv (l : nat) (v : Vec) (h h1 : heap) :
  read_vec l h = Ok (v, h1) -> nth_error h l = Some (AVec v) /\ h1 = h.
Proof.
  unfold read_vec, bindM, read, ret, lift.
  destruct (nth_error h l) as [[]|]; intros H; inversion H. split; reflexivity.
Qed.

Lemma read_mat_inv (l : nat) (m : Matrix) (h h1 : heap) :
  read_mat l h = Ok (m, h1) -> nth_error h l = Some (AMat m) /\ h1 = h.
Proof.
  unfold read_mat, bindM, read, ret, lift.
  destruct (nth_error h l) as [[]|]; intros H; inversion H. split; reflexivity.
Qed.

Lemma read_idx_inv (l : nat) (i : list nat) (h h1 : heap) :
  read_idx l h = Ok (i, h1) -> nth_error h l = Some (AIdx i) /\ h1 = h.
Proof.
  unfold read_idx, bindM, read, ret, lift.
  destruct (nth_error h l) as [[]|]; intros H; inversion H. split; reflexivity.
Qed.

Lemma nth_error_old {A : Type} (h t : list A) (l : nat) (a : A) :
  nth_error h l = Some a -> nth_error (h ++ t) l = Some a.
Proof.
  intros H. rewrite nth_error_app1; [exact H|].
  apply nth_error_Some. congruence.
Qed.

Lemma nth_error_new {A : Type} (h t : list A) (k : nat) :
  nth_error (h ++ t) (length h + k) = nth_error t k.
Proof.
  rewrite nth_error_app2 by lia. f_equal. lia.
Qed.

Lemma put_new {A : Type} (h : list A) :
  forall (t : list A) (k : nat) (v : A),
    put (length h + k) v (h ++ t) = h ++ put k v t.
Proof.
  induction h as [|x h IH]; intros t k v; simpl; [reflexivity|].
  now rewrite IH.
Qed.

End MemoryFacts.

(** ** Expansion builds fresh arrays *)

Section Purity.

Import Memory MemoryFacts.

(** One construction appends seven arrays to the heap and changes nothing
    that was there; what it appends is what the pure model computes. *)
Lemma build_child_spec (h h' : heap) (par : NodeRef) (nd : Node)
    (pidx : nat) (val : Q) (c : ChildRef) :
  holds h par nd ->
  build_child par pidx val h = Ok (c, h') ->
  exists i0 c0 Q0 P0 R0 QT PT tmp,
    child_data nd pidx val = Ok (i0, c0, (Q0, P0, R0)) /\
    h' = h ++ [AIdx i0; AVec c0; AMat QT; AMat Q0; AVec PT; AVec tmp; AVec P0] /\
    c = mkChildRef (length h) (length h + 1) (length h + 3) (length h + 6) R0.
Proof.
  intros (HQ & HP & Hc & Hi & HR & Hpv) H.
  unfold build_child in H.
  repeat (apply bindM_ok in H; destruct H as (? & ? & ? & H)).
  apply ret_inv in H. destruct H as [-> ->].
  repeat match goal with
  | E : read_idx _ _ = Ok _ |- _ => apply read_idx_inv in E; destruct E as [E ?]
  | E : read_vec _ _ = Ok _ |- _ => apply read_vec_inv in E; destruct E as [E ?]
  | E : read_mat _ _ = Ok _ |- _ => apply read_mat_inv in E; destruct E as [E ?]
  | E : new _ _ = Ok _ |- _ => apply new_inv in E; destruct E as [? ?]
  | E : lift _ _ = Ok _ |- _ => apply lift_inv in E; destruct E as [E ?]
  | E : write _ _ _ = Ok _ |- _ => apply write_inv in E; destruct E as [E ?]
  end.
  subst.
  repeat match goal with
  | E : nth_error h (r_idxmap par) = Some (AIdx ?x) |- _ =>
      is_var x; rewrite Hi in E; injection E as <-
  | E : nth_error (h ++ _) (r_curr par) = Some (AVec ?x) |- _ =>
      is_var x; rewrite (nth_error_old _ _ _ _ Hc) in E; injection E as <-
  end.
  match goal with
  | E : nth_error (?hh ++ [AVec ?a]) (length ?hh) = Some (AVec ?x) |- _ =>
      rewrite nth_error_app2 in E by lia; rewrite Nat.sub_diag in E;
      simpl in E; injection E as <-
  end.
  assert (Hput : forall (i0 : list nat) (c' : Vec),
            put (length (h ++ [AIdx i0])) (AVec c')
                ((h ++ [AIdx i0]) ++ [AVec (nd_curr nd)])
            = h ++ [AIdx i0; AVec c']).
  { intros i0 c'. rewrite <- app_assoc, length_app. simpl.
    rewrite put_new. reflexivity. }
  rewrite Hput in *. rewrite <- !app_assoc in *. simpl app in *.
  repeat match goal with
  | E : nth_error (h ++ _) (r_Q par) = Some (AMat ?x) |- _ =>
      is_var x; rewrite (nth_error_old _ _ _ _ HQ) in E; injection E as <-
  | E : nth_error (h ++ _) (r_P par) = Some (AVec ?x) |- _ =>
      is_var x; rewrite (nth_error_old _ _ _ _ HP) in E; injection E as <-
  end.
  rewrite Hpv, HR in *.
  do 8 eexists. split; [|split].
  - unfold child_data, reduce.
    repeat match goal with
    | E : _ = Ok _ |- _ => rewrite E; clear E; cbn [bind]
    end.
    reflexivity.
  - reflexivity.
  - rewrite !length_app. simpl. f_equal; lia.
Qed.

Lemma child_data_parts (nd : Node) (pidx : nat) (val : Q)
    (i0 : list nat) (c0 : Vec) (Q0 : Matrix) (P0 : Vec) (R0 : Q) :
  child_data nd pidx val = Ok (i0, c0, (Q0, P0, R0)) ->
  delete (nd_pivot nd) (nd_idxmap nd) = Ok i0 /\
  c0 = put pidx val (nd_curr nd) /\
  exists QT, delete_row (nd_pivot nd) (nd_Q nd) = Ok QT /\
             delete_col (nd_pivot nd) QT = Ok Q0.
Proof.
  unfold child_data, reduce. intros H.
  destruct (delete (nd_pivot nd) (nd_idxmap nd)) as [i|]; cbn [bind] in H; [|discriminate].
  destruct (setitem (nd_curr nd) pidx val) as [c|] eqn:Es; cbn [bind] in H; [|discriminate].
  destruct (delete_row (nd_pivot nd) (nd_Q nd)) as [QT|]; cbn [bind] in H; [|discriminate].
  destruct (delete_col (nd_pivot nd) QT) as [Q0'|] eqn:Ec; cbn [bind] in H; [|discriminate].
  destruct (column QT (nd_pivot nd)); cbn [bind] in H; [|discriminate].
  destruct (delete (nd_pivot nd) (nd_P nd)); cbn [bind] in H; [|discriminate].
  destruct (add _ _); cbn [bind] in H; [|discriminate].
  destruct (getitem2 _ _ _); cbn [bind] in H; [|discriminate].
  destruct (getitem _ _); cbn [bind] in H; [|discriminate].
  inversion H; subst. apply setitem_inv in Es. destruct Es as [_ ->].
  split; [reflexivity|]. split; [reflexivity|].
  exists QT. split; [reflexivity|exact Ec].
Qed.

Lemma holds_old (h t : heap) (par : NodeRef) (nd : Node) :
  holds h par nd -> holds (h ++ t) par nd.
Proof.
  intros (HQ & HP & Hc & Hi & HR & Hpv).
  repeat split; trivial; apply nth_error_old; assumption.
Qed.

(** C10.  Expansion purity: building the child for the value 0 and then the
    child for the value 1 changes no array that existed before, the parent's
    in particular, so the second construction reads the data the first one
    read, and it leaves the first child's arrays alone.  Every array of a
    child is newly allocated.  The children hold what the pure model computes:
    the same index map and the same Q0, the parent's assignment with the one
    entry [pidx] set to 0 and to 1, and their own P0 and R0. *)
Theorem expansion_purity (h h1 h2 : heap) (par : NodeRef) (nd : Node)
    (pidx : nat) (c0 c1 : ChildRef) :
  holds h par nd ->
  build_child par pidx 0 h = Ok (c0, h1) ->
  build_child par pidx 1 h1 = Ok (c1, h2) ->
  (forall l a, nth_error h l = Some a ->
     nth_error h1 l = Some a /\ nth_error h2 l = Some a) /\
  (forall l a, nth_error h1 l = Some a -> nth_error h2 l = Some a) /\
  holds h1 par nd /\ holds h2 par nd /\
  allocated_after h c0 /\ allocated_after h1 c1 /\
  exists i0 Q0 P00 P01 R00 R01,
    child_data nd pidx 0 = Ok (i0, put pidx 0 (nd_curr nd), (Q0, P00, R00)) /\
    child_data nd pidx 1 = Ok (i0, put pidx 1 (nd_curr nd), (Q0, P01, R01)) /\
    contents h2 c0 (i0, put pidx 0 (nd_curr nd), (Q0, P00, R00)) /\
    contents h2 c1 (i0, put pidx 1 (nd_curr nd), (Q0, P01, R01)).
Proof.
  intros Hpar B0 B1.
  destruct (build_child_spec h h1 par nd pidx 0 c0 Hpar B0)
    as (i0 & v0 & Q0 & P00 & R00 & QT0 & PT0 & tmp0 & D0 & -> & ->).
  match type of B1 with
  | build_child _ _ _ ?hh = _ =>
      assert (Hpar1 : holds hh par nd) by (apply holds_old; exact Hpar)
  end.
  destruct (build_child_spec _ h2 par nd pidx 1 c1 Hpar1 B1)
    as (i1 & v1 & Q1 & P01 & R01 & QT1 & PT1 & tmp1 & D1 & -> & ->).
  destruct (child_data_parts _ _ _ _ _ _ _ _ D0) as (Hi0 & -> & QT & Hr0 & Hc0).
  destruct (child_data_parts _ _ _ _ _ _ _ _ D1) as (Hi1 & -> & QT' & Hr1 & Hc1).
  assert (i1 = i0) by congruence. subst i1.
  assert (QT' = QT) by congruence. subst QT'.
  assert (Q1 = Q0) by congruence. subst Q1.
  split; [|split; [|split; [|split; [|split; [|split]]]]].
  - intros l a Hl. split; [|apply nth_error_old]; apply nth_error_old; exact Hl.
  - intros l a Hl. apply nth_error_old. exact Hl.
  - exact Hpar1.
  - apply holds_old. exact Hpar1.
  - unfold allocated_after. simpl. lia.
  - unfold allocated_after. simpl. lia.
  - exists i0, Q0, P00, P01, R00, R01.
    split; [exact D0|]. split; [exact D1|]. split.
    + unfold contents. simpl.
      rewrite <- (Nat.add_0_r (length h)) at 1.
      repeat split; try (apply nth_error_old; rewrite nth_error_new; reflexivity).
    + unfold contents. simpl.
      set (h1 := h ++ _).
      rewrite <- (Nat.add_0_r (length h1)) at 1.
      repeat split; rewrite nth_error_new; reflexivity.
Qed.

End Purity.

Lemma expansion_purity_witness :
  exists c0 h1 c1 h2,
    Memory.build_child Memory.example_ref 0 0 Memory.example_heap = Ok (c0, h1) /\
    Memory.build_child Memory.example_ref 0 1 h1 = Ok (c1, h2) /\
    Memory.holds h2 Memory.example_ref (Example.root (-2)) /\
    Memory.allocated_after Memory.example_heap c0 /\
    Memory.allocated_after h1 c1.
Proof.
  pose (r0 := Memory.build_child Memory.example_ref 0 0 Memory.example_heap).
  pose (c0 := match r0 with Ok (c, _) => c | Raise _ => Memory.mkChildRef 0 0 0 0 0 end).
  pose (h1 := match r0 with Ok (_, h) => h | Raise _ => [] end).
  pose (r1 := Memory.build_child Memory.example_ref 0 1 h1).
  pose (c1 := match r1 with Ok (c, _) => c | Raise _ => Memory.mkChildRef 0 0 0 0 0 end).
  pose (h2 := match r1 with Ok (_, h) => h | Raise _ => [] end).
  assert (B0 : Memory.build_child Memory.example_ref 0 0 Memory.example_heap = Ok (c0, h1))
    by (vm_compute; reflexivity).
  assert (B1 : Memory.build_child Memory.example_ref 0 1 h1 = Ok (c1, h2))
    by (vm_compute; reflexivity).
  assert (Hpar : Memory.holds Memory.example_heap Memory.example_ref (Example.root (-2)))
    by (repeat split).
  exists c0, h1, c1, h2.
  destruct (expansion_purity _ _ _ _ _ _ _ _ Hpar B0 B1)
    as (_ & _ & _ & H2 & A0 & A1 & _).
  repeat split; trivial; try apply H2; try apply A0; try apply A1.
Defined.

(** * Further properties of the driver *)

(** ** Reduction keeps the matrix symmetric *)

Lemma delete_out {A : Type} (a : list A) :
  forall i, (length a <= i)%nat -> delete i a = Raise IndexError.
Proof.
  induction a as [|h tl IH]; intros [|j] Hle; simpl in *; trivial; try lia.
  rewrite IH by lia. reflexivity.
Qed.

Lemma mapM_delete_inv {A : Type} (p : nat) (l : list (list A)) :
  forall l', mapM (delete p) l = Ok l' -> l' = map (del p) l.
Proof.
  induction l as [|row l IH]; intros l' H; simpl in H.
  - inversion H. reflexivity.
  - destruct (delete p row) as [row'|] eqn:E; cbn [bind] in H; [|discriminate].
    destruct (mapM (delete p) l) as [t'|]; cbn [bind] in H; [|discriminate].
    inversion H; subst. apply delete_inv in E. destruct E as [_ ->].
    simpl. now rewrite (IH t').
Qed.

Lemma reduce_Q0 (Qm : Matrix) (P : Vec) (R : Q) (p : nat) (v : Q)
    (Q0 : Matrix) (P0 : Vec) (R0 : Q) :
  reduce Qm P R p v = Ok (Q0, P0, R0) -> Q0 = reduced_Q Qm p.
Proof.
  unfold reduce, delete_row, delete_col. intros H.
  destruct (delete p Qm) as [QT|] eqn:E1; cbn [bind] in H; [|discriminate].
  destruct (mapM (delete p) QT) as [Q0'|] eqn:E2; cbn [bind] in H; [|discriminate].
  destruct (column QT p); cbn [bind] in H; [|discriminate].
  destruct (delete p P); cbn [bind] in H; [|discriminate].
  destruct (add _ _); cbn [bind] in H; [|discriminate].
  destruct (getitem2 _ _ _); cbn [bind] in H; [|discriminate].
  destruct (getitem _ _); cbn [bind] in H; [|discriminate].
  inversion H; subst.
  apply delete_inv in E1. destruct E1 as [_ ->].
  apply mapM_delete_inv in E2. exact E2.
Qed.

Lemma entry_reduced_Q (Qm : Matrix) (p i j : nat) :
  entry (reduced_Q Qm p) i j = entry Qm (skip p i) (skip p j).
Proof.
  unfold entry, reduced_Q, skip.
  change (@nil Q) with (del p (@nil Q)) at 1.
  rewrite (map_nth (del p)), !nth_del.
  destruct (i <? p)%nat, (j <? p)%nat; reflexivity.
Qed.

(** X1.  The matrix of a child is symmetric when its parent's is, so the
    reduction identity applies again at every level of the tree. *)
Theorem reduce_symmetric (Qm : Matrix) (P : Vec) (R : Q) (p : nat) (v : Q)
    (Q0 : Matrix) (P0 : Vec) (R0 : Q) :
  symmetric Qm ->
  reduce Qm P R p v = Ok (Q0, P0, R0) ->
  symmetric Q0.
Proof.
  intros Hsym Hred. rewrite (reduce_Q0 _ _ _ _ _ _ _ _ Hred).
  intros i j. rewrite !entry_reduced_Q. apply Hsym.
Qed.

Lemma reduce_symmetric_witness :
  symmetric [[1; 2]; [2; 3]] /\
  exists Q0 P0 R0,
    reduce [[1; 2]; [2; 3]] [4; 5] 6 1%nat 1 = Ok (Q0, P0, R0) /\ symmetric Q0.
Proof.
  assert (Hsym : symmetric [[1; 2]; [2; 3]]).
  { intros [|[|[|i]]] [|[|[|j]]]; unfold entry; simpl; try reflexivity;
      destruct i; try destruct j; reflexivity. }
  split; [exact Hsym|].
  exists [[1]], [4 + 2 * 1 * 2], (1 * 3 + 1 * 5 + 6).
  assert (Hred : reduce [[1; 2]; [2; 3]] [4; 5] 6 1%nat 1
                 = Ok ([[1]], [4 + 2 * 1 * 2], 1 * 3 + 1 * 5 + 6)) by reflexivity.
  split; [exact Hred|].
  exact (reduce_symmetric _ _ _ _ _ _ _ _ Hsym Hred).
Defined.

(** ** The exceptions of an expansion *)

Lemma setitem_out {A : Type} (a : list A) :
  forall i v, (length a <= i)%nat -> setitem a i v = Raise IndexError.
Proof.
  induction a as [|h tl IH]; intros [|j] v Hle; simpl in *; trivial; try lia.
  rewrite IH by lia. reflexivity.
Qed.

(** X2.  On a well-shaped node, lines 84-93 either build the child or raise
    [IndexError]; they raise exactly when the pivot is no position of the
    reduced problem or [pidx] is no position of the assignment.  No
    [ValueError] arises: the two operands of [PT + 2*val*QZ] have the same
    length and are never broadcast. *)
Theorem child_data_errors (n : nat) (nd : Node) (pidx : nat) (val : Q) :
  idx_ok n nd ->
  child_data nd pidx val =
    if ((nd_pivot nd <? length (nd_P nd)) && (pidx <? length (nd_curr nd)))%nat
    then Ok (del (nd_pivot nd) (nd_idxmap nd), put pidx val (nd_curr nd),
             (reduced_Q (nd_Q nd) (nd_pivot nd),
              reduced_P (nd_Q nd) (nd_P nd) (nd_pivot nd) val,
              reduced_R (nd_Q nd) (nd_P nd) (nd_R nd) (nd_pivot nd) val))
    else Raise IndexError.
Proof.
  intros (Hlen & Hsq & _). unfold child_data.
  destruct (nd_pivot nd <? length (nd_P nd))%nat eqn:Ep; simpl.
  - apply Nat.ltb_lt in Ep.
    rewrite delete_del by lia. cbn [bind].
    destruct (pidx <? length (nd_curr nd))%nat eqn:Ec.
    + apply Nat.ltb_lt in Ec. rewrite setitem_put by exact Ec. cbn [bind].
      rewrite (reduce_closed_form (length (nd_P nd))) by trivial. reflexivity.
    + apply Nat.ltb_ge in Ec. rewrite setitem_out by exact Ec. reflexivity.
  - apply Nat.ltb_ge in Ep. rewrite delete_out by lia. reflexivity.
Qed.

Lemma child_data_errors_witness :
  idx_ok 2 (Example.root (-2)) /\
  child_data (Example.root (-2)) 0 1 = Ok ([1%nat], [1; 0], ([[0]], [-1 + 2 * 1 * 0], 1 * 0 + 1 * 3 + 0)) /\
  child_data (Example.root (-2)) 2 1 = Raise IndexError.
Proof.
  split; [exact example_root_idx_ok|].
  split.
  - exact (child_data_errors 2 (Example.root (-2)) 0 1 example_root_idx_ok).
  - exact (child_data_errors 2 (Example.root (-2)) 2 1 example_root_idx_ok).
Defined.

(** ** The sub-problem of every queued node *)

Lemma put_comm {A : Type} (a : list A) :
  forall i j (u v : A), i <> j -> put i u (put j v a) = put j v (put i u a).
Proof.
  induction a as [|h tl IH]; intros [|i] [|j] u v Hne; simpl; trivial;
    try congruence.
  rewrite IH by congruence. reflexivity.
Qed.

Lemma length_insert_at {A : Type} (v : A) (p : nat) :
  forall y, (p <= length y)%nat -> length (insert_at p v y) = S (length y).
Proof.
  induction p as [|p IH]; intros [|y0 y] Hp; simpl in *; try lia.
  rewrite IH by lia. reflexivity.
Qed.

(** Fixing the pivot in the assignment and dropping it from the index map
    completes an assignment as the parent does with the value put back. *)
Lemma scatter_insert_at (v : Q) (pidx : nat) (idxmap : list nat) :
  forall p curr y,
    nth_error idxmap p = Some pidx -> NoDup idxmap -> (p <= length y)%nat ->
    scatter (put pidx v curr) (del p idxmap) y
    = scatter curr idxmap (insert_at p v y).
Proof.
  induction idxmap as [|i idxmap IH]; intros [|p] curr y Hnth Hnd Hp;
    simpl in Hnth; try discriminate.
  - inversion Hnth; subst. reflexivity.
  - destruct y as [|y0 y]; [simpl in Hp; lia|]. simpl.
    inversion Hnd as [|? ? Hnotin Hnd']; subst.
    rewrite <- (IH p (put i y0 curr) y Hnth Hnd') by (simpl in Hp; lia).
    rewrite put_comm; [reflexivity|].
    intros ->. apply Hnotin. eapply nth_error_In; exact Hnth.
Qed.

Lemma objective_reduced (n : nat) (Qm : Matrix) (P : Vec) (R : Q) (p : nat)
    (v : Q) (y : Vec) :
  square n Qm -> symmetric Qm -> length P = n -> (p < n)%nat ->
  is_bin v -> length y = pred n ->
  objective (reduced_Q Qm p) (reduced_P Qm P p v) (reduced_R Qm P R p v) y
  == objective Qm P R (insert_at p v y).
Proof.
  intros Hsq Hsym HP Hp Hv Hy. pose proof Hsq as [HlenQ _].
  unfold objective.
  rewrite (quad_insert_at n) by (trivial; lia).
  rewrite (dot_insert_at v p P y) by lia.
  unfold reduced_P, reduced_R.
  rewrite dot_zip_add, dot_scale; cycle 1.
  { unfold scale, coupling. rewrite !length_map, !length_del by lia. lia. }
  assert (Hvv : v * v == v) by (destruct Hv as [-> | ->]; ring).
  rewrite Hvv. ring.
Qed.

Lemma node_sound_child (n : nat) (Qm : Matrix) (P : Vec) (R : Q) (nd : Node)
    (pidx : nat) (val : Q) (seq : nat) (o : Q) (pv : nat) :
  node_sound n Qm P R nd -> is_bin val ->
  nth_error (nd_idxmap nd) (nd_pivot nd) = Some pidx ->
  node_sound n Qm P R (child_of nd pidx val seq o pv).
Proof.
  intros (Hidx & Hsym & Hsub) Hval Hpiv.
  pose proof Hidx as (Hlen & Hsq & Hnd & _).
  assert (Hp : (nd_pivot nd < length (nd_P nd))%nat).
  { rewrite <- Hlen. apply nth_error_Some. congruence. }
  split; [apply idx_ok_child; assumption|]. split.
  - simpl. intros i j. rewrite !entry_reduced_Q. apply Hsym.
  - intros y Hy. simpl in Hy |- *.
    rewrite (length_reduced_P (length (nd_P nd))) in Hy by (trivial; apply Hsq).
    rewrite (objective_reduced (length (nd_P nd))) by trivial.
    rewrite scatter_insert_at by (trivial; lia).
    apply Hsub. rewrite length_insert_at; lia.
Qed.

Section SubProblems.

Variable sdp : Matrix -> Vec -> Q -> option (Q * Vec).
Variable unsolved : BB -> Matrix -> Vec -> Q -> Vec -> list nat -> result (Q * nat).
Variable t : TermTest.

(** X3.  Every node in the queue stands for the original problem with some
    variables fixed: if that holds of the nodes queued at the start, then at
    every later point of the run, whatever the solver returns, each queued
    node has a symmetric [Q], and its reduced objective at any values [y] of
    its free variables is the original objective at the node's assignment
    completed by [y] through its index map. *)
Theorem subproblem_invariant (n : nat) (Qm : Matrix) (P : Vec) (R : Q) (s s' : BB) :
  Forall (node_sound n Qm P R) (active s) ->
  visits sdp unsolved t s s' ->
  Forall (node_sound n Qm P R) (active s').
Proof.
  intros Hall Hrun.
  assert (Hstep : forall s0 s1 sig,
            Forall (node_sound n Qm P R) (active s0) ->
            iteration sdp unsolved t s0 s1 sig ->
            Forall (node_sound n Qm P R) (active s1)).
  { intros s0 s1 sig H0 (nd & rest & Hpop & Hbody).
    pose proof (Permutation_Forall (heappop_perm _ _ _ Hpop) H0) as H0'.
    inversion H0' as [|? ? Hnd Hrest]; subst.
    eapply body_active_Forall; [exact Hrest| |exact Hbody].
    intros pidx val i0 c0 Q0 P0 R0 o pv seq Hget Hval Hc Hx.
    pose proof Hnd as (Hidx & _).
    destruct (child_data_inv _ _ _ _ _ _ _ _ _ Hidx Hc) as (_ & _ & -> & -> & -> & -> & ->).
    apply (node_sound_child n Qm P R nd pidx val seq o pv); trivial.
    - destruct Hval as [<-|[<-|[]]]; [left|right]; reflexivity.
    - unfold getitem in Hget. destruct (nth_error _ _); inversion Hget; reflexivity. }
  induction Hrun as [s | s s' sig Hit | s s1 s' Hit _ IH].
  - exact Hall.
  - eapply Hstep; eauto.
  - apply IH. eapply Hstep; eauto.
Qed.

End SubProblems.

Lemma example_root_sound :
  node_sound 2 Example.Qm Example.P 0 (Example.root (-2)).
Proof.
  split; [exact example_root_idx_ok|]. split.
  - intros i j. unfold entry, Example.root, Example.Qm. simpl.
    destruct i as [|[|[|i]]], j as [|[|[|j]]]; reflexivity.
  - intros y Hy. simpl in Hy.
    destruct y as [|a [|b [|c y]]]; try discriminate. reflexivity.
Qed.

Lemma subproblem_invariant_witness :
  let sdp := Example.sdp (-(3 # 2)) in
  let s' := fst (body sdp Example.unsolved_raises GapTest (Example.root (-2)) [] (Example.start (-2))) in
  Forall (node_sound 2 Example.Qm Example.P 0) (active s').
Proof.
  intros sdp s'.
  apply (subproblem_invariant sdp Example.unsolved_raises GapTest 2 Example.Qm Example.P 0
           (Example.start (-2)) s').
  - constructor; [exact example_root_sound | constructor].
  - apply visits_last with (sig := Continue).
    exists (Example.root (-2)), []. split; vm_compute; reflexivity.
Defined.

(** ** The result of a run *)

Section Results.

Variable sdp : Matrix -> Vec -> Q -> option (Q * Vec).
Variable unsolved : BB -> Matrix -> Vec -> Q -> Vec -> list nat -> result (Q * nat).
Variable t : TermTest.

Lemma solveBB_more_fuel (fuel : nat) :
  forall s, (forall s', solveBB sdp unsolved t fuel s <> OutOfFuel s') ->
  solveBB sdp unsolved t (S fuel) s = solveBB sdp unsolved t fuel s.
Proof.
  induction fuel as [|fuel IH]; intros s Hno.
  - simpl in *. destruct (heapq.heappop (active s)) as [[nd rest]|]; [|reflexivity].
    exfalso. apply (Hno s). reflexivity.
  - change (solveBB sdp unsolved t (S (S fuel)) s) with
      (match heapq.heappop (active s) with
       | None => Exhausted s
       | Some (nd, rest) =>
           match body sdp unsolved t nd rest s with
           | (s', Continue) => solveBB sdp unsolved t (S fuel) s'
           | (s', Return) => Proved s'
           | (s', Raised e) => Failed e s'
           end
       end).
    change (solveBB sdp unsolved t (S fuel) s) with
      (match heapq.heappop (active s) with
       | None => Exhausted s
       | Some (nd, rest) =>
           match body sdp unsolved t nd rest s with
           | (s', Continue) => solveBB sdp unsolved t fuel s'
           | (s', Return) => Proved s'
           | (s', Raised e) => Failed e s'
           end
       end) in Hno |- *.
    destruct (heapq.heappop (active s)) as [[nd rest]|]; [|reflexivity].
    destruct (body sdp unsolved t nd rest s) as [s1 [| |e]]; try reflexivity.
    apply IH. exact Hno.
Qed.

(** X4.  [solveBB] always returns, under either termination test and
    whatever the solver answers: within as many iterations as the potential
    of the queue (2^(n+1) - 1 for a single root of dimension n) the loop has
    left through the test, emptied the queue or raised, and further unrolling
    does not change that outcome. *)
Theorem solveBB_result (s : BB) (fuel fuel' : nat) :
  (potential (active s) <= fuel)%nat -> (fuel <= fuel')%nat ->
  solveBB sdp unsolved t fuel' s = solveBB sdp unsolved t fuel s /\
  (forall s', solveBB sdp unsolved t fuel s <> OutOfFuel s') /\
  (forall root, active s = [root] -> length (nd_Q root) = length (nd_P root) ->
     potential (active s) = (2 ^ S (length (nd_P root)) - 1)%nat).
Proof.
  intros Hpot Hle.
  assert (Hno : forall s', solveBB sdp unsolved t fuel s <> OutOfFuel s').
  { intros s' H. destruct (solveBB_terminates sdp unsolved t fuel s Hpot)
      as (s1 & [H1 | [H1 | (e & H1)]]); congruence. }
  split; [|split; [exact Hno|]].
  - induction Hle as [|fuel' Hle IH]; [reflexivity|].
    rewrite solveBB_more_fuel; [exact IH|].
    intros s'. rewrite IH. apply Hno.
  - intros root Hroot Hlen. rewrite Hroot. unfold potential, weight, dimension.
    simpl. rewrite Hlen, Nat.max_id. lia.
Qed.

Lemma expand_child_pushed (nd : Node) (pidx : nat) (val : Q) (s s' : BB) (u : unit) :
  expand_child sdp unsolved nd pidx val s = (s', Ok u) ->
  length (active s') = S (length (active s)).
Proof.
  intros H.
  destruct (expand_child_active sdp unsolved nd pidx val s s' (Ok u) H)
    as [Hsame | (i0 & c0 & Q0 & P0 & R0 & o & pv & _ & _ & ->)]; [|reflexivity].
  exfalso. unfold expand_child in H.
  destruct (child_data nd pidx val) as [[[i0 c0] [[Q0 P0] R0]]|e]; [|discriminate].
  pose proof (solveRelaxation_frame sdp unsolved s Q0 P0 R0 c0 i0) as (Ha & _).
  destruct (solveRelaxation sdp unsolved s Q0 P0 R0 c0 i0) as [s1 [[o pv]|e]];
    [|discriminate].
  simpl in Ha. inversion H; subst. simpl in Hsame. rewrite Ha in Hsame.
  apply (f_equal (@length Node)) in Hsame. simpl in Hsame. lia.
Qed.

(** X5.  An iteration that goes on changes the size of the queue by one:
    a terminal node is popped and nothing is pushed, or a node is popped and
    its two children are pushed. *)
Theorem queue_growth (s s' : BB) :
  iteration sdp unsolved t s s' Continue ->
  (S (length (active s')) = length (active s) \/
   length (active s') = S (length (active s))).
Proof.
  intros (nd & rest & Hpop & Hbody).
  apply heappop_perm, Permutation_length in Hpop. simpl in Hpop. rewrite Hpop.
  unfold body in Hbody.
  destruct (optimality_proved t _); [discriminate|].
  destruct (length (nd_P nd) <=? 1)%nat;
    [inversion Hbody; subst; left; reflexivity|].
  destruct (getitem (nd_idxmap nd) (nd_pivot nd)) as [pidx|e]; [|discriminate].
  right. cbn [for_vals] in Hbody.
  destruct (expand_child sdp unsolved nd pidx 0 _) as [sa [[]|e]] eqn:Ea; [|discriminate].
  destruct (expand_child sdp unsolved nd pidx 1 sa) as [sb [[]|e]] eqn:Eb; [|discriminate].
  inversion Hbody; subst.
  apply expand_child_pushed in Ea, Eb. rewrite Eb, Ea. reflexivity.
Qed.

(** X6.  No node without free variables is ever queued: children are only
    built from nodes with at least two free variables and have one less.  So,
    from a queue of well-shaped nodes with at least one free variable each,
    every node queued later has at least one. *)
Theorem no_empty_node (n : nat) (s s' : BB) :
  Forall (fun nd => idx_ok n nd /\ (1 <= length (nd_P nd))%nat) (active s) ->
  visits sdp unsolved t s s' ->
  Forall (fun nd => idx_ok n nd /\ (1 <= length (nd_P nd))%nat) (active s').
Proof.
  intros Hall Hrun.
  assert (Hstep : forall s0 s1 sig,
            Forall (fun nd => idx_ok n nd /\ (1 <= length (nd_P nd))%nat) (active s0) ->
            iteration sdp unsolved t s0 s1 sig ->
            Forall (fun nd => idx_ok n nd /\ (1 <= length (nd_P nd))%nat) (active s1)).
  { intros s0 s1 sig H0 (nd & rest & Hpop & Hbody).
    pose proof (Permutation_Forall (heappop_perm _ _ _ Hpop) H0) as H0'.
    inversion H0' as [|? ? [Hidx Hdim] Hrest]; subst.
    destruct (length (nd_P nd) <=? 1)%nat eqn:Eterm.
    - unfold body in Hbody. rewrite Eterm in Hbody.
      destruct (optimality_proved t _); inversion Hbody; subst; simpl;
        [constructor|exact Hrest].
    - apply Nat.leb_gt in Eterm.
      eapply body_active_Forall; [exact Hrest| |exact Hbody].
      intros pidx val i0 c0 Q0 P0 R0 o pv seq Hget Hval Hc Hx.
      destruct (child_data_inv _ _ _ _ _ _ _ _ _ Hidx Hc) as (Hp & _ & -> & -> & -> & -> & ->).
      pose proof (idx_ok_child n nd pidx val seq o pv Hidx Hp) as Hchild.
      split; [exact Hchild|]. simpl.
      rewrite (length_reduced_P (length (nd_P nd))); trivial; [lia|].
      destruct Hidx as (_ & [HlenQ _] & _). exact HlenQ. }
  induction Hrun as [s | s s' sig Hit | s s1 s' Hit _ IH].
  - exact Hall.
  - eapply Hstep; eauto.
  - apply IH. eapply Hstep; eauto.
Qed.

End Results.

(** ** The two termination tests *)

(** X7.  With an integral upper bound, the ceiling test of line 216 holds
    exactly when [lb > ub - 1]: it is the gap test with a tolerance just
    short of one.  So it holds whenever the gap test of line 71 does, for
    any tolerance below one. *)
Theorem ceil_test_stronger (s : BB) :
  is_int (ub s) ->
  (optimality_proved CeilTest s = true <-> ub s - 1 < lb s) /\
  (gaptol s < 1 -> optimality_proved GapTest s = true ->
   optimality_proved CeilTest s = true).
Proof.
  intros [z Hz].
  assert (Hiff : optimality_proved CeilTest s = true <-> ub s - 1 < lb s).
  { unfold optimality_proved, ceil. rewrite Qle_bool_iff, Hz. split.
    - intros H. pose proof (Qceiling_lt (lb s)) as Hc.
      rewrite <- Zle_Qle in H.
      assert (Hc' : inject_Z z - 1 <= inject_Z (Qceiling (lb s) - 1)).
      { change 1 with (inject_Z 1). unfold Qminus.
        rewrite <- inject_Z_opp, <- inject_Z_plus, <- Zle_Qle. lia. }
      lra.
    - intros H. rewrite <- Zle_Qle.
      pose proof (Qle_ceiling (lb s)) as Hc.
      assert (Hlt : inject_Z (z - 1) < inject_Z (Qceiling (lb s))).
      { unfold Z.sub. rewrite inject_Z_plus, inject_Z_opp.
        change (inject_Z 1) with 1. lra. }
      rewrite <- Zlt_Qlt in Hlt. lia. }
  split; [exact Hiff|].
  intros Hgap Htest. apply Hiff. apply gap_test_iff in Htest. lra.
Qed.

Lemma ceil_test_stronger_witness :
  let s := mkBB [] (-(3 # 2)) (-1) (1 # 1000000) 3 Example.Qm Example.P 0 [0; 1] [] in
  is_int (ub s) /\
  optimality_proved CeilTest s = true /\ ub s - 1 < lb s /\
  optimality_proved GapTest s = false.
Proof.
  intros s.
  assert (Hint : is_int (ub s)) by (exists (-1)%Z; reflexivity).
  split; [exact Hint|].
  destruct (ceil_test_stronger s Hint) as (Hiff & _).
  assert (Hc : optimality_proved CeilTest s = true) by reflexivity.
  split; [exact Hc|]. split; [apply Hiff; exact Hc|reflexivity].
Defined.

Lemma solveBB_result_witness :
  let sdp := Example.sdp (-(3 # 2)) in
  let s := Example.start (-2) in
  (potential (active s) <= 7)%nat /\
  solveBB sdp Example.unsolved_raises GapTest 100 s = solveBB sdp Example.unsolved_raises GapTest 7 s /\
  exists s', solveBB sdp Example.unsolved_raises GapTest 7 s = Proved s'.
Proof.
  intros sdp s.
  assert (Hpot : (potential (active s) <= 7)%nat) by (vm_compute; lia).
  split; [exact Hpot|].
  destruct (solveBB_result sdp Example.unsolved_raises GapTest s 7 100 Hpot) as (Heq & _ & _); [lia|].
  split; [exact Heq|].
  eexists. vm_compute. reflexivity.
Defined.

Lemma queue_growth_witness :
  let sdp := Example.sdp (-(3 # 2)) in
  let s := Example.start (-2) in
  let s' := fst (body sdp Example.unsolved_raises GapTest (Example.root (-2)) [] s) in
  length (active s) = 1%nat /\ length (active s') = 2%nat /\
  (S (length (active s')) = length (active s) \/
   length (active s') = S (length (active s))).
Proof.
  intros sdp s s'.
  split; [reflexivity|]. split; [vm_compute; reflexivity|].
  apply (queue_growth sdp Example.unsolved_raises GapTest s s').
  exists (Example.root (-2)), []. split; vm_compute; reflexivity.
Defined.

Lemma no_empty_node_witness :
  let sdp := Example.sdp (-(3 # 2)) in
  let s' := fst (body sdp Example.unsolved_raises GapTest (Example.root (-2)) [] (Example.start (-2))) in
  Forall (fun nd => idx_ok 2 nd /\ (1 <= length (nd_P nd))%nat) (active s').
Proof.
  intros sdp s'.
  apply (no_empty_node sdp Example.unsolved_raises GapTest 2 (Example.start (-2)) s').
  - constructor; [|constructor]. split; [exact example_root_idx_ok|simpl; lia].
  - apply visits_last with (sig := Continue).
    exists (Example.root (-2)), []. split; vm_compute; reflexivity.
Defined.

(** * The relaxation is a relaxation *)

(** ** The popped objectives along a run *)

Section Monotone.

Variable sdp : Matrix -> Vec -> Q -> option (Q * Vec).
Variable unsolved : BB -> Matrix -> Vec -> Q -> Vec -> list nat -> result (Q * nat).
Variable t : TermTest.

(** After an iteration the lower bound is the objective of the popped node
    and, when fixing a variable does not lower the returned objective, no
    queued node lies below it. *)
Lemma iteration_least (n : nat) (s s' : BB) (sig : signal) :
  relax_monotone sdp unsolved ->
  Forall (relaxed sdp unsolved n) (active s) ->
  iteration sdp unsolved t s s' sig ->
  Forall (relaxed sdp unsolved n) (active s') /\
  Forall (fun x => lb s' <= nd_obj x) (active s') /\
  (Forall (fun x => lb s <= nd_obj x) (active s) -> lb s <= lb s').
Proof.
  intros Hmono Hall (nd & rest & Hpop & Hbody).
  pose proof (heappop_least _ _ _ Hpop) as Hleast.
  pose proof (heappop_perm _ _ _ Hpop) as Hperm.
  pose proof (Permutation_Forall Hperm Hall) as Hall'.
  inversion Hall' as [|? ? Hnd Hrest]; subst.
  pose proof (body_kept sdp unsolved t nd rest s s' sig Hbody) as (Hlb & _).
  simpl in Hlb. rewrite Hlb.
  assert (Hboth : Forall (fun x => relaxed sdp unsolved n x /\ nd_obj nd <= nd_obj x)
                         (active s')).
  { eapply body_active_Forall; [| |exact Hbody].
    - apply Forall_and; assumption.
    - intros pidx val i0 c0 Q0 P0 R0 o pv seq _ Hval Hc Hx.
      destruct Hnd as (Hobj & Hidx & Hsym).
      pose proof (child_data_reduce _ _ _ _ _ _ _ _ Hc) as Hred.
      destruct (child_data_inv _ _ _ _ _ _ _ _ _ Hidx Hc)
        as (Hp & _ & -> & -> & -> & -> & ->).
      assert (Hbin : is_bin val).
      { destruct Hval as [<-|[<-|[]]]; [left|right]; reflexivity. }
      split; [split; [|split]|].
      + exact Hx.
      + exact (idx_ok_child n nd pidx val seq o pv Hidx Hp).
      + simpl. intros i j. rewrite !entry_reduced_Q. apply Hsym.
      + simpl. destruct Hidx as (_ & Hsq & _).
        exact (Hmono (length (nd_P nd)) _ _ _ _ _ _ _ _ _ _
                 Hsq Hsym eq_refl Hbin Hred Hobj Hx). }
  split; [|split].
  - eapply Forall_impl; [|exact Hboth]. intros x [H _]. exact H.
  - eapply Forall_impl; [|exact Hboth]. intros x [_ H]. exact H.
  - intros Hlow. apply (Permutation_Forall Hperm) in Hlow.
    inversion Hlow; subst. assumption.
Qed.

(** C3, as amended.  The node popped has the least objective of the queue.
    If fixing a variable of a node to 0 or to 1 never lowers the objective
    that [solveRelaxation] returns, and the queue holds well-shaped nodes
    with symmetric [Q] whose objectives were returned for their data, then
    from the first pop on the popped objectives, and with them [lb], never
    decrease. *)
Theorem lower_bound_monotone (n : nat) (s s1 s2 : BB) :
  relax_monotone sdp unsolved ->
  Forall (relaxed sdp unsolved n) (active s) ->
  iteration sdp unsolved t s s1 Continue ->
  visits sdp unsolved t s1 s2 ->
  lb s1 <= lb s2.
Proof.
  intros Hmono Hall Hfirst Hrun.
  destruct (iteration_least n _ _ _ Hmono Hall Hfirst) as (Hok & Hlow & _).
  clear Hfirst Hall s.
  induction Hrun as [s | s s' sig Hit | s sa s' Hit _ IH].
  - lra.
  - destruct (iteration_least n _ _ _ Hmono Hok Hit) as (_ & _ & Hle). auto.
  - destruct (iteration_least n _ _ _ Hmono Hok Hit) as (Hok' & Hlow' & Hle).
    specialize (IH Hok' Hlow'). specialize (Hle Hlow). lra.
Qed.

End Monotone.

(** The exact solver meets the assumption: the assignments of a child are
    assignments of its parent. *)
Lemma optimum_le (Qm : Matrix) (P : Vec) (R : Q) (x : Vec) :
  feasible (length P) x -> optimum Qm P R <= objective Qm P R x.
Proof.
  intros Hx. apply assignments_feasible in Hx.
  apply (in_map (objective Qm P R)) in Hx. unfold optimum.
  destruct (map (objective Qm P R) (assignments (length P))) as [|w ws];
    [destruct Hx|]. simpl.
  destruct (fold_min_le w ws) as [H1 H2].
  destruct Hx as [<-|Hx]; [exact H1|].
  rewrite Forall_forall in H2. exact (H2 _ Hx).
Qed.

Lemma optimum_attained (Qm : Matrix) (P : Vec) (R : Q) :
  exists x, feasible (length P) x /\ optimum Qm P R == objective Qm P R x.
Proof.
  unfold optimum.
  destruct (map (objective Qm P R) (assignments (length P))) as [|w ws] eqn:E.
  - assert (Hin : In (repeat 0 (length P)) (assignments (length P))).
    { apply assignments_feasible. split; [apply repeat_length|].
      apply Forall_forall. intros y Hy. apply repeat_spec in Hy. left. exact Hy. }
    apply (in_map (objective Qm P R)) in Hin. rewrite E in Hin. destruct Hin.
  - simpl. destruct (fold_min_attained w ws) as (y & Hy & Hm).
    rewrite <- E in Hy. apply in_map_iff in Hy. destruct Hy as (x & <- & Hx).
    exists x. split; [apply assignments_feasible, Hx | exact Hm].
Qed.

Lemma feasible_insert_at (n p : nat) (v : Q) (y : Vec) :
  is_bin v -> (p < n)%nat -> feasible (pred n) y -> feasible n (insert_at p v y).
Proof.
  intros Hv Hp [Hlen Hbin]. split.
  - rewrite length_insert_at; lia.
  - clear Hlen Hp. revert y Hbin.
    induction p as [|p IH]; intros [|h y] Hbin; simpl.
    + constructor; [exact Hv|constructor].
    + constructor; [exact Hv|exact Hbin].
    + constructor; [exact Hv|constructor].
    + inversion Hbin; subst. constructor; [assumption|apply IH; assumption].
Qed.

Lemma exact_monotone
    (unsolved : BB -> Matrix -> Vec -> Q -> Vec -> list nat -> result (Q * nat)) :
  relax_monotone Example.exact unsolved.
Proof.
  intros n Qm P R p v Q0 P0 R0 o o0 Hsq Hsym HP Hv Hred Ho Ho0.
  destruct (reduce_inv _ _ _ _ _ _ _ _ Hred) as (_ & _ & Hp & _).
  rewrite HP in Hp.
  rewrite (reduce_closed_form n) in Hred by assumption.
  inversion Hred; subst Q0 P0 R0; clear Hred.
  destruct Ho as [(x & Ho) | (Ho & _)]; [|discriminate].
  destruct Ho0 as [(x0 & Ho0) | (Ho0 & _)]; [|discriminate].
  unfold Example.exact in Ho, Ho0. inversion Ho; subst o. inversion Ho0; subst o0.
  destruct (optimum_attained (reduced_Q Qm p) (reduced_P Qm P p v)
              (reduced_R Qm P R p v)) as (y & Hy & ->).
  pose proof Hsq as [HlenQ _].
  rewrite (length_reduced_P n) in Hy by assumption.
  rewrite (objective_reduced n) by (trivial; apply Hy).
  apply optimum_le. rewrite HP. apply feasible_insert_at; assumption.
Qed.

Lemma example_root_relaxed :
  relaxed Example.exact Example.unsolved_raises 2 (Example.root (-1)).
Proof.
  split; [|split].
  - left. exists [1 # 2; 1 # 2]. vm_compute. reflexivity.
  - unfold idx_ok, square. simpl.
    repeat split; try lia; repeat constructor; simpl;
      intuition (try lia; try discriminate).
  - intros i j. unfold entry, Example.root, Example.Qm. simpl.
    destruct i as [|[|[|i]]], j as [|[|[|j]]]; reflexivity.
Qed.

Lemma lower_bound_monotone_witness :
  let sdp := Example.exact in
  let s1 := fst (body sdp Example.unsolved_raises GapTest (Example.root (-1)) []
                      Example.start_exact) in
  let s2 := fst (body sdp Example.unsolved_raises GapTest (Example.child0 (-1))
                      [Example.child1] s1) in
  lb s1 <= lb s2.
Proof.
  intros sdp s1 s2.
  apply (lower_bound_monotone sdp Example.unsolved_raises GapTest 2
           Example.start_exact s1 s2 (exact_monotone Example.unsolved_raises)).
  - constructor; [exact example_root_relaxed|constructor].
  - exists (Example.root (-1)), []. split; vm_compute; reflexivity.
  - apply visits_last with (sig := Return).
    exists (Example.child0 (-1)), [Example.child1].
    split; vm_compute; reflexivity.
Defined.

Section Lifting.

Import Relaxation.

Lemma map_veq {A : Type} (f g : A -> Q) (l : list A) :
  (forall a, f a == g a) -> veq (map f l) (map g l).
Proof.
  intros H. induction l as [|a l IH]; simpl; constructor; [apply H|exact IH].
Qed.

Lemma dot_veq_r (a y y' : Vec) : veq y y' -> dot a y == dot a y'.
Proof.
  intros H. rewrite (dot_comm a y), (dot_comm a y'). apply dot_veq. exact H.
Qed.

Lemma nth_scale (c : Q) (b : Vec) (j : nat) :
  nth j (scale c b) 0 == c * nth j b 0.
Proof.
  unfold scale. revert j. induction b as [|h b IH]; intros [|j]; simpl;
    try ring; try reflexivity. apply IH.
Qed.

Lemma entry_outer (a b : Vec) (i j : nat) :
  entry (outer a b) i j == nth i a 0 * nth j b 0.
Proof.
  unfold entry, outer. revert i. induction a as [|h a IH]; intros [|i]; simpl.
  - destruct j; simpl; ring.
  - destruct j; simpl; ring.
  - apply nth_scale.
  - apply IH.
Qed.

Lemma firstn_length_app {A : Type} (a b : list A) :
  firstn (length a) (a ++ b) = a.
Proof. induction a as [|h a IH]; simpl; [reflexivity|now rewrite IH]. Qed.

Lemma skipn_length_app {A : Type} (a b : list A) :
  skipn (length a) (a ++ b) = b.
Proof. induction a as [|h a IH]; simpl; [reflexivity|exact IH]. Qed.

Lemma X_of_lifted (x : Vec) : X_of (length x) (lifted x) = outer x x.
Proof.
  unfold X_of, Fusion.slice, lifted, outer. rewrite Nat.sub_0_r. simpl skipn.
  rewrite firstn_map, firstn_length_app, map_map.
  apply map_ext. intros xi. unfold scale.
  rewrite firstn_map, firstn_length_app. reflexivity.
Qed.

Lemma concat_singletons {A B : Type} (f : A -> list B) (g : A -> B) (l : list A) :
  (forall a, f a = [g a]) -> concat (map f l) = map g l.
Proof.
  intros H. induction l as [|a l IH]; simpl; [reflexivity|].
  rewrite H, IH. reflexivity.
Qed.

Lemma x_of_lifted (x : Vec) :
  x_of (length x) (lifted x) = map (fun xi => xi * 1) x.
Proof.
  unfold x_of, Fusion.slice, lifted, outer. rewrite Nat.sub_0_r. simpl skipn.
  replace (length x + 1 - length x)%nat with 1%nat by lia.
  rewrite firstn_map, firstn_length_app, map_map.
  apply concat_singletons. intros xi. unfold scale.
  rewrite <- (length_map (Qmult xi) x), map_app, skipn_length_app. reflexivity.
Qed.

Lemma quad_outer (z w : Vec) : quad (outer z z) w == dot z w * dot z w.
Proof.
  unfold quad, matvec, outer. rewrite map_map.
  rewrite (dot_veq_r w _ (map (fun zi => zi * dot z w) z)).
  - rewrite dot_comm.
    rewrite (dot_map_scale (fun zi : Q => zi) (dot z w) z w).
    rewrite map_id. ring.
  - apply map_veq. intros zi. rewrite dot_scale. reflexivity.
Qed.

Lemma dot2_outer (x : Vec) (Qm : Matrix) :
  forall xs, Fusion.dot2 Qm (map (fun xi => scale xi x) xs)
             == dot xs (matvec Qm x).
Proof.
  induction Qm as [|q Qm IH]; intros [|xi xs]; simpl; try reflexivity.
  rewrite IH, (dot_comm q), dot_scale, (dot_comm x q). reflexivity.
Qed.

End Lifting.

Section LowerBound.

Import Relaxation.

Lemma sub_veq (a b : Vec) : veq a b -> Fusion.equalsTo 0 (Fusion.sub a b).
Proof.
  intros H. unfold Fusion.equalsTo.
  induction H as [|x y a b Hxy _ IH]; simpl; constructor; [|exact IH].
  rewrite Hxy. ring.
Qed.

Lemma nth_map_seq (f : nat -> Q) (n k : nat) :
  (k < n)%nat -> nth k (map f (seq 0 n)) 0 = f k.
Proof.
  intros Hk. rewrite (nth_indep _ 0 (f O)) by (rewrite length_map, length_seq; exact Hk).
  rewrite (map_nth f), seq_nth by exact Hk. reflexivity.
Qed.

Lemma nth_map_times_one (x : Vec) (k : nat) :
  nth k (map (fun xi => xi * 1) x) 0 == nth k x 0.
Proof.
  revert k. induction x as [|h x IH]; intros [|k]; simpl; try reflexivity.
  - ring.
  - apply IH.
Qed.

Lemma outer_square (z : Vec) : square (length z) (outer z z).
Proof.
  unfold square, outer. split; [apply length_map|].
  apply Forall_map. apply Forall_forall. intros zi _. apply length_map.
Qed.

(** X8.  The relaxation built by [fusionSDP] relaxes the binary problem: a
    0/1 vector [x] lifts to the point [Z = (x; 1)(x; 1)'], which satisfies
    every constraint of the model (positive semidefinite, [diag(X) = x],
    [Z[n, n] = 1]) and at which the model's objective is [x'Qx + P'x + R].
    Hence a lower bound of the model's objective over its feasible points is
    a lower bound of the binary problem. *)
Theorem relaxation_lower_bound (Qm : Matrix) (P : Vec) (R : Q) (x : Vec) :
  feasible (length P) x ->
  constraints P (lifted x) /\
  objective_at Qm P R (lifted x) == objective Qm P R x /\
  (forall bound,
     (forall Z, constraints P Z -> bound <= objective_at Qm P R Z) ->
     bound <= objective Qm P R x).
Proof.
  intros [Hlen Hbin].
  assert (Hcons : constraints P (lifted x)).
  { unfold constraints. rewrite <- Hlen. split; [|split].
    - unfold Fusion.inPSDCone, lifted. split; [|split].
      + replace (length x + 1)%nat with (length (x ++ [1]))
          by (rewrite length_app; reflexivity).
        apply outer_square.
      + intros i j. rewrite !entry_outer. ring.
      + intros w _. rewrite quad_outer.
        destruct (Qlt_le_dec (dot (x ++ [1]) w) 0); nra.
    - rewrite X_of_lifted, x_of_lifted. apply sub_veq. apply veq_nth.
      + unfold Fusion.diag, outer.
        repeat (rewrite ?length_map, ?length_seq). reflexivity.
      + intros k Hk. unfold Fusion.diag, outer in Hk.
        repeat (rewrite ?length_map, ?length_seq in Hk).
        unfold Fusion.diag.
        rewrite nth_map_seq by (unfold outer; rewrite length_map; exact Hk).
        rewrite entry_outer, nth_map_times_one.
        assert (Hk' : is_bin (nth k x 0)).
        { rewrite Forall_forall in Hbin. apply Hbin, nth_In, Hk. }
        destruct Hk' as [-> | ->]; ring.
    - unfold Fusion.equalsTo, Fusion.index2, lifted. constructor; [|constructor].
      rewrite entry_outer, app_nth2, Nat.sub_diag by lia. simpl. ring. }
  assert (Hobj : objective_at Qm P R (lifted x) == objective Qm P R x).
  { unfold objective_at, objective, quad. rewrite <- Hlen.
    rewrite X_of_lifted, x_of_lifted.
    rewrite (dot_veq_r P _ x); cycle 1.
    { apply veq_nth; [apply length_map|].
      intros k _. apply nth_map_times_one. }
    unfold outer. rewrite dot2_outer. ring. }
  split; [exact Hcons|]. split; [exact Hobj|].
  intros bound Hbound. rewrite <- Hobj. apply Hbound, Hcons.
Qed.

End LowerBound.

Lemma relaxation_lower_bound_witness :
  feasible (length Example.P) [0; 1] /\
  Relaxation.constraints Example.P (Relaxation.lifted [0; 1]) /\
  Relaxation.objective_at Example.Qm Example.P 0 (Relaxation.lifted [0; 1]) == -1.
Proof.
  assert (Hx : feasible (length Example.P) [0; 1]).
  { split; [reflexivity|].
    constructor; [left; reflexivity|].
    constructor; [right; reflexivity|constructor]. }
  split; [exact Hx|].
  destruct (relaxation_lower_bound Example.Qm Example.P 0 [0; 1] Hx) as (Hc & Ho & _).
  split; [exact Hc|]. rewrite Ho. vm_compute. reflexivity.
Defined.

(** * The Quickstart models *)

Section QuickstartModels.

Import Quickstart.

Lemma Forall_seq_Forall2 (F : Q -> Q -> Prop) (z : Vec) :
  forall x, length z = length x ->
  (Forall (fun j => F (nth j z 0) (nth j x 0)) (seq 0 (length z)) <->
   Forall2 F z x).
Proof.
  induction z as [|a z IH]; intros [|b x] Hlen; simpl in Hlen; try discriminate.
  - simpl. split; constructor.
  - simpl length. rewrite <- cons_seq, <- seq_shift. split.
    + intros H. inversion H as [|? ? Hab Hrest]; subst.
      constructor; [exact Hab|]. apply IH; [lia|].
      rewrite Forall_map in Hrest. exact Hrest.
    + intros H. inversion H as [|? ? ? ? Hab Hrest]; subst.
      constructor; [exact Hab|]. rewrite Forall_map.
      apply IH; [lia|exact Hrest].
Qed.

Lemma Forall_hstack_Forall2 (G : Vec -> Prop) (z : Vec) :
  forall x, length z = length x ->
  (Forall G (Fusion.hstack z x) <-> Forall2 (fun a b => G [a; b]) z x).
Proof.
  induction z as [|a z IH]; intros [|b x] Hlen; simpl in Hlen; try discriminate.
  - simpl. split; constructor.
  - simpl. split.
    + intros H. inversion H; subst. constructor; [assumption|].
      apply IH; [lia|assumption].
    + intros H. inversion H; subst. constructor; [assumption|].
      apply IH; [lia|assumption].
Qed.

Lemma dot_repeat (lam : Q) (z : Vec) :
  dot (repeat lam (length z)) z == lam * Fusion.sum z.
Proof.
  induction z as [|a z IH]; simpl; [ring|]. rewrite IH. ring.
Qed.

(** X9.  The two regularised models agree: with the constant weight vector
    [[lam]*n] that the notebook passes, [buildregumodel2] has the feasible
    points and the objective of [buildregumodel].  The loop of n cone
    constraints on [(z_j, x_j)] and the single constraint on the rows of
    [hstack(z, x)] say the same, and [lam * sum(z)] is [dot([lam]*n, z)]. *)
Theorem regumodels_agree (A : Matrix) (b : Vec) (lam t : Q) (x z : Vec) :
  length x = columns A -> length z = columns A ->
  (fst (buildregumodel A b lam t x z) <->
   fst (buildregumodel2 A b (repeat lam (columns A)) t x z)) /\
  snd (buildregumodel A b lam t x z)
  == snd (buildregumodel2 A b (repeat lam (columns A)) t x z).
Proof.
  intros Hx Hz. unfold buildregumodel, buildregumodel2, Fusion.rows_inQCone,
    Fusion.index. simpl fst. simpl snd. split.
  - rewrite <- Hz.
    rewrite (Forall_seq_Forall2 (fun a b => Fusion.inQCone [a; b]) z x) by congruence.
    rewrite (Forall_hstack_Forall2 Fusion.inQCone z x) by congruence.
    reflexivity.
  - rewrite <- Hz, dot_repeat. reflexivity.
Qed.

Lemma inQCone_pair (zj xj : Q) : Fusion.inQCone [zj; xj] <-> Qabs xj <= zj.
Proof.
  unfold Fusion.inQCone. simpl. rewrite Qabs_Qle_condition. split.
  - intros [Hz Hsq]. split; nra.
  - intros [Hlo Hhi]. split; [lra|nra].
Qed.

Lemma sum_abs_le (z : Vec) :
  forall x, Forall2 (fun a b => Qabs b <= a) z x ->
  Fusion.sum (map Qabs x) <= Fusion.sum z.
Proof.
  intros x H. induction H as [|a b z x Hab _ IH]; simpl; lra.
Qed.

(** X10.  What the regularised model computes.  Its cone constraints on
    [(z_j, x_j)] say [z_j >= |x_j|]; so with [lam >= 0] the objective of a
    feasible point is at least [t + lam * sum |x_j|], and this value is
    attained at [z = |x|], which is feasible whenever [(t, x)] is feasible
    for [buildmodel]. *)
Theorem regumodel_absolute_values (A : Matrix) (b : Vec) (lam t : Q) (x z : Vec) :
  length x = columns A -> length z = columns A ->
  (fst (buildregumodel A b lam t x z) <->
   fst (buildmodel A b t x) /\ Forall2 (fun zj xj => Qabs xj <= zj) z x) /\
  (0 <= lam -> fst (buildregumodel A b lam t x z) ->
   t + lam * Fusion.sum (map Qabs x) <= snd (buildregumodel A b lam t x z)) /\
  (fst (buildmodel A b t x) ->
   fst (buildregumodel A b lam t x (map Qabs x)) /\
   snd (buildregumodel A b lam t x (map Qabs x))
   == t + lam * Fusion.sum (map Qabs x)).
Proof.
  intros Hx Hz.
  assert (Hcone : forall z', length z' = columns A ->
            (Forall (fun j => Fusion.inQCone [Fusion.index z' j; Fusion.index x j])
                    (seq 0 (columns A)) <->
             Forall2 (fun zj xj => Qabs xj <= zj) z' x)).
  { intros z' Hz'. unfold Fusion.index. rewrite <- Hz'.
    rewrite (Forall_seq_Forall2 (fun a b => Fusion.inQCone [a; b]) z' x) by congruence.
    split; intros H; (eapply Forall2_impl; [|exact H]);
      intros a c Hac; apply inQCone_pair; exact Hac. }
  unfold buildregumodel, buildmodel. simpl fst. simpl snd.
  split; [|split].
  - rewrite (Hcone z Hz). reflexivity.
  - intros Hlam [_ Hc]. apply (Hcone z Hz) in Hc.
    pose proof (sum_abs_le z x Hc). nra.
  - intros Hn. split; [|reflexivity]. split; [exact Hn|].
    apply Hcone; [rewrite length_map; exact Hx|].
    clear. induction x as [|a x IH]; simpl; constructor; [lra|exact IH].
Qed.

End QuickstartModels.

Lemma regumodels_agree_witness :
  let A := [[1; 2]; [3; 4]] in
  length [1; -1] = Quickstart.columns A /\
  (fst (Quickstart.buildregumodel A [0; 0] 2 5 [1; -1] [1; 1]) <->
   fst (Quickstart.buildregumodel2 A [0; 0] [2; 2] 5 [1; -1] [1; 1])).
Proof.
  intros A. split; [reflexivity|].
  exact (proj1 (regumodels_agree A [0; 0] 2 5 [1; -1] [1; 1] eq_refl eq_refl)).
Defined.

Lemma regumodel_absolute_values_witness :
  let A := [[1; 2]; [3; 4]] in
  length [1; -1] = Quickstart.columns A /\
  fst (Quickstart.buildmodel A [0; 0] 5 [1; -1]) /\
  fst (Quickstart.buildregumodel A [0; 0] 2 5 [1; -1] (map Qabs [1; -1])).
Proof.
  intros A. split; [reflexivity|].
  assert (Hn : fst (Quickstart.buildmodel A [0; 0] 5 [1; -1])).
  { unfold Quickstart.buildmodel, Quickstart.norm_constraint, Fusion.rows_inQCone.
    simpl. constructor; [|constructor]. split; vm_compute; discriminate. }
  split; [exact Hn|].
  destruct (regumodel_absolute_values A [0; 0] 2 5 [1; -1] [1; 1] eq_refl eq_refl)
    as (_ & _ & H).
  exact (proj1 (H Hn)).
Defined.

(** * The two models of an expansion agree *)

Section Refinement.

Import Memory MemoryFacts.

Lemma bind_read_idx {B : Type} (l : nat) (i : list nat) (k : list nat -> M B) (h : heap) :
  nth_error h l = Some (AIdx i) -> bindM (read_idx l) k h = k i h.
Proof. intros H. unfold read_idx. unfold bindM, read. rewrite H. reflexivity. Qed.

Lemma bind_read_vec {B : Type} (l : nat) (v : Vec) (k : Vec -> M B) (h : heap) :
  nth_error h l = Some (AVec v) -> bindM (read_vec l) k h = k v h.
Proof. intros H. unfold read_vec. unfold bindM, read. rewrite H. reflexivity. Qed.

Lemma bind_read_mat {B : Type} (l : nat) (m : Matrix) (k : Matrix -> M B) (h : heap) :
  nth_error h l = Some (AMat m) -> bindM (read_mat l) k h = k m h.
Proof. intros H. unfold read_mat. unfold bindM, read. rewrite H. reflexivity. Qed.

Lemma bind_new {B : Type} (a : array) (k : nat -> M B) (h : heap) :
  bindM (new a) k h = k (length h) (h ++ [a]).
Proof. reflexivity. Qed.

Lemma bind_lift_ok {A B : Type} (a : A) (k : A -> M B) (h : heap) :
  bindM (lift (Ok a)) k h = k a h.
Proof. reflexivity. Qed.

Lemma bind_lift_raise {A B : Type} (e : exn) (k : A -> M B) (h : heap) :
  bindM (lift (@Raise A e)) k h = Raise e.
Proof. reflexivity. Qed.

Lemma bind_write {B : Type} (l : nat) (a : array) (k : unit -> M B) (h : heap) :
  (l < length h)%nat -> bindM (write l a) k h = k tt (put l a h).
Proof.
  intros H. unfold bindM, write.
  apply Nat.ltb_lt in H. rewrite H. reflexivity.
Qed.

(** The construction in memory ends as the pure one does. *)
Lemma build_child_outcome (h : heap) (par : NodeRef) (nd : Node)
    (pidx : nat) (val : Q) :
  holds h par nd ->
  match child_data nd pidx val with
  | Ok _ => exists r, build_child par pidx val h = Ok r
  | Raise e => build_child par pidx val h = Raise e
  end.
Proof.
  intros (HQ & HP & Hc & Hi & HR & Hpv).
  unfold child_data, reduce, build_child. rewrite Hpv, HR.
  rewrite (bind_read_idx _ _ _ _ Hi).
  destruct (delete (nd_pivot nd) (nd_idxmap nd)) as [i0|e]; cbn [bind];
    [rewrite bind_lift_ok | rewrite bind_lift_raise; reflexivity].
  rewrite bind_new.
  rewrite (bind_read_vec _ _ _ _ (nth_error_old _ _ _ _ Hc)).
  rewrite bind_new.
  rewrite (bind_read_vec _ (nd_curr nd))
    by (rewrite nth_error_app2, Nat.sub_diag by lia; reflexivity).
  destruct (setitem (nd_curr nd) pidx val) as [c'|e]; cbn [bind];
    [rewrite bind_lift_ok | rewrite bind_lift_raise; reflexivity].
  rewrite bind_write by (rewrite !length_app; simpl; lia).
  assert (Hput : put (length (h ++ [AIdx i0])) (AVec c')
                     ((h ++ [AIdx i0]) ++ [AVec (nd_curr nd)])
                 = h ++ [AIdx i0; AVec c']).
  { rewrite <- app_assoc, length_app. simpl. rewrite put_new. reflexivity. }
  rewrite Hput.
  rewrite (bind_read_mat _ _ _ _ (nth_error_old _ _ _ _ HQ)).
  destruct (delete_row (nd_pivot nd) (nd_Q nd)) as [QT|e]; cbn [bind];
    [rewrite bind_lift_ok | rewrite bind_lift_raise; reflexivity].
  rewrite bind_new.
  destruct (delete_col (nd_pivot nd) QT) as [Q0|e]; cbn [bind];
    [rewrite bind_lift_ok | rewrite bind_lift_raise; reflexivity].
  rewrite bind_new.
  destruct (column QT (nd_pivot nd)) as [QZ|e]; cbn [bind];
    [rewrite bind_lift_ok | rewrite bind_lift_raise; reflexivity].
  rewrite <- !app_assoc.
  rewrite (bind_read_vec _ _ _ _ (nth_error_old _ _ _ _ HP)).
  destruct (delete (nd_pivot nd) (nd_P nd)) as [PT|e]; cbn [bind];
    [rewrite bind_lift_ok | rewrite bind_lift_raise; reflexivity].
  rewrite !bind_new.
  destruct (add PT (scale (2 * val) QZ)) as [P0|e]; cbn [bind];
    [rewrite bind_lift_ok | rewrite bind_lift_raise; reflexivity].
  rewrite bind_new.
  destruct (getitem2 (nd_Q nd) (nd_pivot nd) (nd_pivot nd)) as [qpp|e]; cbn [bind];
    [rewrite bind_lift_ok | rewrite bind_lift_raise; reflexivity].
  destruct (getitem (nd_P nd) (nd_pivot nd)) as [pp|e]; cbn [bind];
    [rewrite bind_lift_ok | rewrite bind_lift_raise; reflexivity].
  eexists. reflexivity.
Qed.

(** X11.  The model that passes arrays by value loses nothing: on arrays in
    memory, lines 84-93 raise the exception the pure model raises, in the
    same place, and where the pure model returns the child's data they
    return references to newly allocated arrays that hold exactly these
    data, leaving every older array as it was. *)
Theorem build_child_refines (h : heap) (par : NodeRef) (nd : Node)
    (pidx : nat) (val : Q) :
  holds h par nd ->
  match child_data nd pidx val with
  | Ok d =>
      exists c h',
        build_child par pidx val h = Ok (c, h') /\
        contents h' c d /\ allocated_after h c /\
        (forall l a, nth_error h l = Some a -> nth_error h' l = Some a)
  | Raise e => build_child par pidx val h = Raise e
  end.
Proof.
  intros Hpar. pose proof (build_child_outcome h par nd pidx val Hpar) as Hout.
  destruct (child_data nd pidx val) as [d|e] eqn:Ed; [|exact Hout].
  destruct Hout as ([c h'] & Hb).
  destruct (build_child_spec h h' par nd pidx val c Hpar Hb)
    as (i0 & c0 & Q0 & P0 & R0 & QT & PT & tmp & D & -> & ->).
  rewrite Ed in D. inversion D; subst d.
  eexists. eexists. split; [exact Hb|]. split; [|split].
  - unfold contents. simpl.
    rewrite <- (Nat.add_0_r (length h)) at 1.
    repeat split; rewrite nth_error_new; reflexivity.
  - unfold allocated_after. simpl. lia.
  - intros l a Hl. apply nth_error_old. exact Hl.
Qed.

End Refinement.

Lemma build_child_refines_witness :
  Memory.holds Memory.example_heap Memory.example_ref (Example.root (-2)) /\
  (exists c h', Memory.build_child Memory.example_ref 0 1 Memory.example_heap = Ok (c, h')) /\
  Memory.build_child Memory.example_ref 2 1 Memory.example_heap = Raise IndexError.
Proof.
  assert (Hpar : Memory.holds Memory.example_heap Memory.example_ref (Example.root (-2)))
    by (repeat split).
  split; [exact Hpar|]. split.
  - pose proof (build_child_refines _ _ _ 0%nat 1 Hpar) as H.
    change (child_data (Example.root (-2)) 0 1) with
      (Ok ([1%nat], [1; 0], ([[0]], [-1 + 2 * 1 * 0], 1 * 0 + 1 * 3 + 0))
       : result (list nat * Vec * (Matrix * Vec * Q))) in H.
    destruct H as (c & h' & Hb & _). exists c, h'. exact Hb.
  - exact (build_child_refines _ _ _ 2%nat 1 Hpar).
Defined.

(** * Fixing two variables *)

Lemma insert_at_insert_at {A : Type} (v w : A) (p : nat) :
  forall q y, (p <= q)%nat -> (q <= length y)%nat ->
  insert_at p v (insert_at q w y) = insert_at (S q) w (insert_at p v y).
Proof.
  induction p as [|p IH]; intros q y Hpq Hq.
  - reflexivity.
  - destruct q as [|q]; [lia|]. destruct y as [|h y]; [simpl in Hq; lia|].
    simpl. f_equal. apply IH; simpl in Hq; lia.
Qed.

Lemma del_del {A : Type} (l : list A) :
  forall p q, (p <= q)%nat -> del q (del p l) = del p (del (S q) l).
Proof.
  induction l as [|h l IH]; intros p q Hpq; [reflexivity|].
  destruct p as [|p]; simpl.
  - destruct l; reflexivity.
  - destruct q as [|q]; [lia|]. destruct l as [|h' l']; [reflexivity|].
    change (del (S q) (h :: del p (h' :: l')) = h :: del p (del (S q) (h' :: l'))).
    simpl del at 1. f_equal. apply IH. lia.
Qed.

Lemma reduced_Q_reduced_Q (Qm : Matrix) (p q : nat) :
  (p <= q)%nat ->
  reduced_Q (reduced_Q Qm p) q = reduced_Q (reduced_Q Qm (S q)) p.
Proof.
  intros Hpq. unfold reduced_Q.
  rewrite !del_map, !map_map, (del_del Qm p q Hpq).
  apply map_ext. intros row. apply del_del. exact Hpq.
Qed.

(** X12.  The order of two fixings does not matter: on a symmetric problem,
    fixing the variable at [p] to [v] and then the variable at [q] to [w]
    (which has moved to position [q - 1]) leads to the same reduced matrix,
    and to the same reduced objective at every assignment of the variables
    left, as fixing [q] first and [p] second. *)
Theorem reduce_order_independent (n : nat) (Qm : Matrix) (P : Vec) (R : Q)
    (p q : nat) (v w : Q) :
  square n Qm -> symmetric Qm -> length P = n ->
  (p <= q)%nat -> (S q < n)%nat -> is_bin v -> is_bin w ->
  exists Qa Pa Ra Qb Pb Rb Q2 Pab Rab Pba Rba,
    reduce Qm P R p v = Ok (Qa, Pa, Ra) /\
    reduce Qa Pa Ra q w = Ok (Q2, Pab, Rab) /\
    reduce Qm P R (S q) w = Ok (Qb, Pb, Rb) /\
    reduce Qb Pb Rb p v = Ok (Q2, Pba, Rba) /\
    forall y, length y = (n - 2)%nat ->
      objective Q2 Pab Rab y == objective Q2 Pba Rba y.
Proof.
  intros Hsq Hsym HP Hpq Hq Hv Hw. pose proof Hsq as [HlenQ _].
  assert (Hp : (p < n)%nat) by lia.
  assert (Hsq_a := square_reduced_Q n Qm p Hsq Hp).
  assert (Hsq_b := square_reduced_Q n Qm (S q) Hsq Hq).
  assert (HP_a := length_reduced_P n Qm P p v HlenQ HP Hp).
  assert (HP_b := length_reduced_P n Qm P (S q) w HlenQ HP Hq).
  assert (Hsym_a : symmetric (reduced_Q Qm p))
    by (intros i j; rewrite !entry_reduced_Q; apply Hsym).
  assert (Hsym_b : symmetric (reduced_Q Qm (S q)))
    by (intros i j; rewrite !entry_reduced_Q; apply Hsym).
  exists (reduced_Q Qm p), (reduced_P Qm P p v), (reduced_R Qm P R p v).
  exists (reduced_Q Qm (S q)), (reduced_P Qm P (S q) w), (reduced_R Qm P R (S q) w).
  exists (reduced_Q (reduced_Q Qm p) q).
  exists (reduced_P (reduced_Q Qm p) (reduced_P Qm P p v) q w),
         (reduced_R (reduced_Q Qm p) (reduced_P Qm P p v) (reduced_R Qm P R p v) q w).
  exists (reduced_P (reduced_Q Qm (S q)) (reduced_P Qm P (S q) w) p v),
         (reduced_R (reduced_Q Qm (S q)) (reduced_P Qm P (S q) w)
                    (reduced_R Qm P R (S q) w) p v).
  split; [apply (reduce_closed_form n); assumption|].
  split; [apply (reduce_closed_form (pred n)); trivial; lia|].
  split; [apply (reduce_closed_form n); assumption|].
  split.
  { rewrite (reduced_Q_reduced_Q Qm p q Hpq).
    apply (reduce_closed_form (pred n)); trivial; lia. }
  intros y Hy.
  rewrite (objective_reduced (pred n)) by (trivial; lia).
  rewrite (objective_reduced n) by (trivial; rewrite length_insert_at; lia).
  rewrite (reduced_Q_reduced_Q Qm p q Hpq).
  rewrite (objective_reduced (pred n)) by (trivial; lia).
  rewrite (objective_reduced n) by (trivial; rewrite length_insert_at; lia).
  rewrite insert_at_insert_at by lia. reflexivity.
Qed.

Lemma reduce_order_independent_witness :
  let Qm := [[1; 2; 0]; [2; 3; 1]; [0; 1; 5]] in
  square 3 Qm /\
  exists Qa Pa Ra Qb Pb Rb Q2 Pab Rab Pba Rba,
    reduce Qm [4; 5; 6] 7 0 1 = Ok (Qa, Pa, Ra) /\
    reduce Qa Pa Ra 1 0 = Ok (Q2, Pab, Rab) /\
    reduce Qm [4; 5; 6] 7 2 0 = Ok (Qb, Pb, Rb) /\
    reduce Qb Pb Rb 0 1 = Ok (Q2, Pba, Rba) /\
    forall y, length y = 1%nat -> objective Q2 Pab Rab y == objective Q2 Pba Rba y.
Proof.
  intros Qm.
  assert (Hsq : square 3 Qm) by (split; [reflexivity|repeat constructor]).
  split; [exact Hsq|].
  apply (reduce_order_independent 3 Qm [4; 5; 6] 7 0 1 1 0).
  - exact Hsq.
  - intros i j. unfold entry, Qm.
    destruct i as [|[|[|[|i]]]], j as [|[|[|[|j]]]]; reflexivity.
  - reflexivity.
  - lia.
  - lia.
  - right. reflexivity.
  - left. reflexivity.
Defined.
